(** * Example-5-MC-GP-IRS-CVA: a shallow embedding of the notebook

    The notebook [Chapter3-GPs/extras/Example-5-MC-GP-IRS-CVA.ipynb] trains
    one Gaussian-process surrogate per instrument and exposure date and then
    runs a Monte Carlo CVA simulation.  This file embeds its cells as Rocq
    functions and states the properties of the specification about them.

    Conventions of the embedding.

    - numpy arrays of floats are lists over a number type [A] with the
      operations of the class [Num]; the notebook's dtype is binary64, which
      is the instance [Num_float] (Rocq's primitive floats, executable);
      the instance [Num_Q] is exact rational arithmetic, and [Num_R53] is
      arithmetic rounded to the nearest number of 53 significant bits,
      ties to even, which is binary64 as long as nothing overflows or
      underflows.  General theorems are proved from [NumLaws], a set of
      order and monotonicity laws that do not say that an operation is
      exact; they hold in [Num_Q] and in [Num_R53].
    - the input arrays hold no NaN: numpy's [min], [max], [argmin], [argmax]
      and [quantile] return a NaN, or its position, when there is one,
      which the embedding does not model.
    - a two-dimensional array is the list of its rows.
    - Python exceptions are the [Raise] results of the type [result];
      code that draws from [np.random] runs in the monad [py], which
      threads the generator state.
    - scikit-learn's regressor and [np.exp], [np.std] are library code and
      are taken as parameters (the record [Lib]).
    - [pi] and [dPD] are float32 arrays in the notebook: a store into
      them converts the value with [float32], and the products and means
      of their rows are computed in float32 ([mul32], [np_mean32]).
      [np.mean] and [np.sum] add from left to right.
    - the numbers of paths and of dates, [M] and [nt], are natural
      numbers, and the model parameters are Python numbers, so that
      [T/nt] raises [ZeroDivisionError] at [nt = 0].
    - the data cells read files that are not part of the notebook; the
      arrays they produce are the fields of the record [globals], and the
      currency code of a swap is a natural number. *)

From Stdlib Require Import ZArith QArith Qround Qpower Lia Lqa Floats Uint63 Sorted.
From stdpp Require Import base option list gmap strings.

Local Open Scope nat_scope.

(** [lmap f a] applies [f] to every entry of the array [a]. *)
Abbreviation lmap := (@fmap list list_fmap _ _) (only parsing).

(** ** Numbers *)

(** The arithmetic the notebook uses on array elements. [of_int] is the
    conversion of a Python int, [eps16] the literal [1e-16], [float32] the
    conversion to numpy's float32 that a store into an array of that dtype
    makes. *)
Class Num (A : Type) : Type := {
  of_int : Z -> A;
  eps16 : A;
  float32 : A -> A;
  fadd : A -> A -> A;
  fsub : A -> A -> A;
  fmul : A -> A -> A;
  fdiv : A -> A -> A;
  fopp : A -> A;
  fleb : A -> A -> bool;
  fltb : A -> A -> bool;
  feqb : A -> A -> bool;
}.

Declare Scope num_scope.
Delimit Scope num_scope with num.
Notation "x + y" := (fadd x y) : num_scope.
Notation "x - y" := (fsub x y) : num_scope.
Notation "x * y" := (fmul x y) : num_scope.
Notation "x / y" := (fdiv x y) : num_scope.
Notation "- x" := (fopp x) : num_scope.
Notation "x <=? y" := (fleb x y) : num_scope.
Notation "x <? y" := (fltb x y) : num_scope.
Notation "x =? y" := (feqb x y) : num_scope.

Definition fle {A} `{Num A} (x y : A) : Prop := fleb x y = true.
Definition flt {A} `{Num A} (x y : A) : Prop := fltb x y = true.
Definition feq {A} `{Num A} (x y : A) : Prop := feqb x y = true.
Notation "x <= y" := (fle x y) : num_scope.
Notation "x < y" := (flt x y) : num_scope.
Notation "x == y" := (feq x y) : num_scope.

Definition f0 {A} `{Num A} : A := of_int 0.
Definition f1 {A} `{Num A} : A := of_int 1.

(** Exact rationals. *)
#[export] Instance Num_Q : Num Q := {|
  of_int := inject_Z;
  eps16 := (1 # 10000000000000000)%Q;
  float32 := fun x => x;
  fadd := Qplus;
  fsub := Qminus;
  fmul := Qmult;
  fdiv := Qdiv;
  fopp := Qopp;
  fleb := Qle_bool;
  fltb := fun x y => negb (Qle_bool y x);
  feqb := Qeq_bool;
|}.

(** IEEE binary64, the dtype of the notebook's arrays. *)
Definition float_of_int (z : Z) : float :=
  match z with
  | Z0 => PrimFloat.zero
  | Zpos _ => PrimFloat.of_uint63 (Uint63.of_Z z)
  | Zneg p => PrimFloat.opp (PrimFloat.of_uint63 (Uint63.of_Z (Zpos p)))
  end.

(** The binary32 number nearest to a double, ties to even, as a double. *)
Definition binary32 (x : float) : float :=
  match Prim2SF x with
  | S754_finite s m e => SF2Prim (binary_round 24 128 s m e)
  | _ => x
  end.

#[export] Instance Num_float : Num float := {|
  of_int := float_of_int;
  eps16 := 0x1.cd2b297d889bcp-54%float; (* the double that [1e-16] denotes *)
  float32 := binary32;
  fadd := PrimFloat.add;
  fsub := PrimFloat.sub;
  fmul := PrimFloat.mul;
  fdiv := PrimFloat.div;
  fopp := PrimFloat.opp;
  fleb := PrimFloat.leb;
  fltb := PrimFloat.ltb;
  feqb := PrimFloat.eqb;
|}.

(** ** Rounding *)

(** Rounding of a rational to the nearest number with [p] significant
    bits, ties to even, with no bound on the exponent: what an IEEE
    operation returns when it neither overflows nor underflows.
    [binade x] is the exponent [e] with [2^e <= x < 2^(e+1)], [rne] the
    rounding to the nearest integer. *)
Local Open Scope Q_scope.

Definition pow2 (e : Z) : Q := 2 ^ e.

Definition binade (x : Q) : Z :=
  let e0 := (Z.log2 (Qnum x) - Z.log2 (Zpos (Qden x)))%Z in
  if Qle_bool (pow2 e0) x then e0 else (e0 - 1)%Z.

Definition rne (q : Q) : Z :=
  let f := Qfloor q in
  match Qcompare (q - inject_Z f) (1 # 2) with
  | Lt => f
  | Gt => (f + 1)%Z
  | Eq => if Z.even f then f else (f + 1)%Z
  end.

Definition round_pos (p : Z) (x : Q) : Q :=
  let e := (binade x - (p - 1))%Z in
  inject_Z (rne (x / pow2 e)) * pow2 e.

Definition round_nearest (p : Z) (x : Q) : Q :=
  match Qnum x with
  | Z0 => 0
  | Zpos _ => Qred (round_pos p x)
  | Zneg _ => Qred (- round_pos p (- x))
  end.


Local Close Scope Q_scope.

(** Arithmetic rounded to 53 significant bits (binary64) after every
    operation; [float32] rounds to 24.  An element is read through the
    rounding, so that each one stands for a representable number. *)
Record R53 : Type := mkR53 { r53_val : Q }.

Definition rd (x : R53) : Q := round_nearest 53 (r53_val x).

Definition R53_op (f : Q -> Q -> Q) (x y : R53) : R53 :=
  mkR53 (round_nearest 53 (f (rd x) (rd y))).

#[export] Instance Num_R53 : Num R53 := {|
  of_int := fun z => mkR53 (round_nearest 53 (inject_Z z));
  eps16 := mkR53 (round_nearest 53 (1 # 10000000000000000)%Q);
  float32 := fun x => mkR53 (round_nearest 24 (rd x));
  fadd := R53_op Qplus;
  fsub := R53_op Qminus;
  fmul := R53_op Qmult;
  fdiv := R53_op Qdiv;
  fopp := fun x => mkR53 (- rd x)%Q;
  fleb := fun x y => Qle_bool (rd x) (rd y);
  fltb := fun x y => negb (Qle_bool (rd y) (rd x));
  feqb := fun x y => Qeq_bool (rd x) (rd y);
|}.
(** Laws of the order and of the operations that the proofs use.  Each of
    them holds in exact arithmetic and in arithmetic rounded to 53 bits
    (the instances [NumLaws_Q] and [NumLaws_R53]); none says that an
    operation is exact. *)
Class NumLaws (A : Type) `{Num A} : Prop := {
  fle_refl : forall x : A, (x <= x)%num;
  fle_trans : forall x y z : A, (x <= y)%num -> (y <= z)%num -> (x <= z)%num;
  fle_total : forall x y : A, (x <= y)%num \/ (y <= x)%num;
  fltb_fleb : forall x y : A, (x <? y)%num = negb (y <=? x)%num;
  feqb_fleb : forall x y : A, (x =? y)%num = (x <=? y)%num && (y <=? x)%num;
  fsub_mono : forall x x' y : A, (x <= x')%num -> (x - y <= x' - y)%num;
  fsub_diag : forall x y : A, (x == y)%num -> (x - y == f0)%num;
  fsub_pos : forall x y : A, (y < x)%num -> (f0 < x - y)%num;
  fadd_eps : forall d : A, (d <= d + eps16)%num;
  fadd_eps_pos : forall d : A, (f0 <= d)%num -> (f0 < d + eps16)%num;
  fdiv_nonneg : forall n d : A, (f0 <= n)%num -> (f0 < d)%num -> (f0 <= n / d)%num;
  fdiv_le_1 : forall n d : A, (n <= d)%num -> (f0 < d)%num -> (n / d <= f1)%num;
  fdiv_zero : forall n d : A, (n == f0)%num -> (f0 < d)%num -> (n / d == f0)%num;
  fdiv_diag : forall n d : A, (n == d)%num -> (f0 < d)%num -> (n / d == f1)%num;
  fadd_mono : forall x x' y y' : A,
    (x <= x')%num -> (y <= y')%num -> (x + y <= x' + y')%num;
  fadd_nonneg : forall m e : A, (f0 <= e)%num -> (m <= m + e)%num;
  fsub_nonneg_le : forall m e : A, (f0 <= e)%num -> (m - e <= m)%num;
  fmul_nonneg : forall x y : A, (f0 <= x)%num -> (f0 <= y)%num -> (f0 <= x * y)%num;
  fmul_mono : forall x y c : A, (f0 <= c)%num -> (x <= y)%num -> (x * c <= y * c)%num;
  of_int_nonneg : forall z : Z, (0 <= z)%Z -> (f0 <= (of_int z : A))%num;
}.

(** ** Exceptions and the two monads *)

Inductive exn : Type :=
  | NameError (name : string)
  | IndexError
  | KeyError
  | ValueError
  | TypeError
  | AttributeError
  | ZeroDivisionError.

Inductive result (X : Type) : Type :=
  | Ok (x : X)
  | Raise (e : exn).
Arguments Ok {X} x.
Arguments Raise {X} e.

Definition rbind {X Y} (m : result X) (k : X -> result Y) : result Y :=
  match m with
  | Ok x => k x
  | Raise e => Raise e
  end.

(** The state of [np.random]: a source of integers and the number of
    draws made so far. *)
Record rng : Type := { gen : nat -> nat; pos : nat }.

Definition py (X : Type) : Type := rng -> result (X * rng).

Definition pret {X} (x : X) : py X := fun g => Ok (x, g).
Definition pbind {X Y} (m : py X) (k : X -> py Y) : py Y :=
  fun g => match m g with
           | Ok (x, g') => k x g'
           | Raise e => Raise e
           end.
Definition lift {X} (m : result X) : py X :=
  fun g => match m with
           | Ok x => Ok (x, g)
           | Raise e => Raise e
           end.

#[export] Instance result_ret : MRet result := @Ok.
#[export] Instance result_bind : MBind result := fun X Y k m => rbind m k.
#[export] Instance py_ret : MRet py := @pret.
#[export] Instance py_bind : MBind py := fun X Y k m => pbind m k.

(** [for x in xs: acc = body(acc, x)] in either monad. *)
Fixpoint rfold {X S} (body : S -> X -> result S) (xs : list X) (s : S)
  : result S :=
  match xs with
  | [] => Ok s
  | x :: xs' => s' ← body s x; rfold body xs' s'
  end.

Fixpoint pfold {X S} (body : S -> X -> py S) (xs : list X) (s : S) : py S :=
  match xs with
  | [] => pret s
  | x :: xs' => s' ← body s x; pfold body xs' s'
  end.

Fixpoint rmapM {X Y} (f : X -> result Y) (xs : list X) : result (list Y) :=
  match xs with
  | [] => Ok []
  | x :: xs' => y ← f x; ys ← rmapM f xs'; Ok (y :: ys)
  end.

(** ** Arrays *)

(** [a[i]] for a list, a row index or a column index: [IndexError] out of
    range (indices are naturals: negative indices do not occur). *)
Definition getitem {X} (a : list X) (i : nat) : result X :=
  match a !! i with
  | Some x => Ok x
  | None => Raise IndexError
  end.

(** [d[k]] for a dict. *)
Definition dict_get {V} (d : gmap nat V) (k : nat) : result V :=
  match d !! k with
  | Some v => Ok v
  | None => Raise KeyError
  end.

Abbreviation matrix A := (list (list A)).

(** [np.shape(ar)[1]]. *)
Definition ncols {A} (ar : matrix A) : nat :=
  match ar with
  | [] => 0
  | r :: _ => length r
  end.

(** [ar[:, c]]. *)
Definition column {A} (ar : matrix A) (c : nat) : result (list A) :=
  if decide (c < ncols ar)%nat then rmapM (fun r => getitem r c) ar
  else Raise IndexError.

(** [ar[:, cs]] with a list of column indices. *)
Definition columns {A} (ar : matrix A) (cs : list nat) : result (matrix A) :=
  rmapM (fun r => rmapM (getitem r) cs) ar.

(** [a[idx]] and [ar[idx, :]] with an integer index array. *)
Definition take_idx {X} (a : list X) (idx : list nat) : result (list X) :=
  rmapM (getitem a) idx.

(** [np.where(mask)[0]]: the positions of the true entries, increasing. *)
Fixpoint where_from (i : nat) (mask : list bool) : list nat :=
  match mask with
  | [] => []
  | b :: mask' =>
      if b then i :: where_from (S i) mask' else where_from (S i) mask'
  end.
Definition np_where (mask : list bool) : list nat := where_from 0 mask.

(** [a[start:stop] = v] on a one-dimensional numpy array: the slice is
    cut to the array, [v] must have the length of the slice or length 1
    (broadcast), otherwise numpy raises [ValueError]. *)
Definition slice_assign {X} (a : list X) (start stop : nat) (v : list X)
  : result (list X) :=
  let lo := Nat.min start (length a) in
  let hi := Nat.max lo (Nat.min stop (length a)) in
  if decide (hi - lo = length v) then Ok (take lo a ++ v ++ drop hi a)
  else match v with
       | [x] => Ok (take lo a ++ replicate (hi - lo) x ++ drop hi a)
       | _ => Raise ValueError
       end.

(** [np.random.choice(a, n)]: [n] draws with replacement, each the element
    of [a] at a position the generator gives; [ValueError] when [a] is
    empty and a draw is asked for. *)
Definition random_choice {X} (a : list X) (n : nat) : py (list X) :=
  fun g =>
    match a with
    | [] => if decide (n = 0) then Ok ([], g) else Raise ValueError
    | x0 :: _ =>
        Ok (lmap (fun k => nth (gen g (pos g + k) mod length a) a x0) (seq 0 n),
            {| gen := gen g; pos := pos g + n |})
    end.

Section Numpy.
Context {A : Type} `{Num A}.
Local Open Scope num_scope.

(** Reductions of a one-dimensional array. *)
Definition min2 (x y : A) : A := if y <? x then y else x.
Definition max2 (x y : A) : A := if x <? y then y else x.

Definition np_min (a : list A) : result A :=
  match a with
  | [] => Raise ValueError
  | x :: a' => Ok (foldl min2 x a')
  end.
Definition np_max (a : list A) : result A :=
  match a with
  | [] => Raise ValueError
  | x :: a' => Ok (foldl max2 x a')
  end.

(** [np.argmin], [np.argmax]: the first position of the extreme value. *)
Fixpoint argmin_from (bi : nat) (b : A) (i : nat) (a : list A) : nat :=
  match a with
  | [] => bi
  | x :: a' =>
      if x <? b then argmin_from i x (S i) a' else argmin_from bi b (S i) a'
  end.
Fixpoint argmax_from (bi : nat) (b : A) (i : nat) (a : list A) : nat :=
  match a with
  | [] => bi
  | x :: a' =>
      if b <? x then argmax_from i x (S i) a' else argmax_from bi b (S i) a'
  end.
Definition np_argmin (a : list A) : result nat :=
  match a with
  | [] => Raise ValueError
  | x :: a' => Ok (argmin_from 0 x 1 a')
  end.
Definition np_argmax (a : list A) : result nat :=
  match a with
  | [] => Raise ValueError
  | x :: a' => Ok (argmax_from 0 x 1 a')
  end.

(** The same reductions with [axis=0]: one value per column;
    [ValueError] on an array without rows. *)
Definition axis0 {Y} (f : list A -> result Y) (ar : matrix A)
  : result (list Y) :=
  match ar with
  | [] => Raise ValueError
  | _ => rmapM (fun c => col ← column ar c; f col) (seq 0 (ncols ar))
  end.

(** [np.mean] of a one-dimensional array and of the rows of a matrix
    ([axis=1]). *)
Definition np_sum (a : list A) : A := foldl fadd f0 a.
Definition np_mean (a : list A) : A :=
  np_sum a / of_int (Z.of_nat (length a)).
Definition np_mean_axis1 (ar : matrix A) : list A := lmap np_mean ar.

(** The same on arrays of dtype float32, where numpy computes in float32:
    the product of two arrays, and the mean, whose sum is accumulated in
    float32. *)
Definition mul32 (u v : list A) : list A :=
  zip_with (fun a b : A => float32 (a * b)) u v.
Definition np_sum32 (a : list A) : A :=
  foldl (fun s x : A => float32 (s + x)) f0 a.
Definition np_mean32 (a : list A) : A :=
  float32 (np_sum32 a / of_int (Z.of_nat (length a))).
Definition np_mean32_axis1 (ar : matrix A) : list A := lmap np_mean32 ar.

(** [np.quantile(ar, [0, 0.25, 0.5, 0.75, 1], axis=0)], linear
    interpolation between the two order statistics around position
    [(n-1) * k/4]. *)
Fixpoint insert_sorted (x : A) (s : list A) : list A :=
  match s with
  | [] => [x]
  | y :: s' => if x <=? y then x :: s else y :: insert_sorted x s'
  end.
Definition np_sort (a : list A) : list A := foldr insert_sorted [] a.

Definition quartile (a : list A) (k : nat) : result A :=
  let s := np_sort a in
  let h := ((length s - 1) * k)%nat in
  lo ← getitem s (h / 4)%nat;
  hi ← getitem s (Nat.min (h / 4 + 1) (length s - 1))%nat;
  let t := of_int (Z.of_nat (h mod 4)) / of_int 4 in
  Ok (lo * (f1 - t) + hi * t).

Definition np_quantile (ar : matrix A) : result (matrix A) :=
  rmapM (fun k =>
           rmapM (fun c => col ← column ar c; quartile col k)
                 (seq 0 (ncols ar)))
        (seq 0 5).

(** [(ar[:, c] >= q[k, c]) & (ar[:, c] <= q[k+1, c])]. *)
Definition in_bucket (ar q : matrix A) (c k : nat) : result (list bool) :=
  col ← column ar c;
  qlo ← getitem q k;
  lo ← getitem qlo c;
  qhi ← getitem q (S k);
  hi ← getitem qhi c;
  Ok (lmap (fun x : A => (lo <=? x) && (x <=? hi)) col).

(** The rows of the cell whose quartile indices are [ks], column by
    column: [np.where(... & ... & ...)[0]]. *)
Fixpoint cell_mask (ar q : matrix A) (c : nat) (ks : list nat)
  : result (list bool) :=
  match ks with
  | [] => Ok (lmap (fun _ => true) ar)
  | k :: ks' =>
      m ← in_bucket ar q c k;
      ms ← cell_mask ar q (S c) ks';
      Ok (zip_with andb m ms)
  end.
Definition cell_rows (ar q : matrix A) (ks : list nat) : result (list nat) :=
  m ← cell_mask ar q 0 ks; Ok (np_where m).

(** The loop nests [for i in range(4): for j in range(4): ...]. *)
Definition cells2 : list (list nat) :=
  i ← seq 0 4; j ← seq 0 4; [[i; j]].
Definition cells3 : list (list nat) :=
  i ← seq 0 4; j ← seq 0 4; k ← seq 0 4; [[i; j; k]].

(** The body of the two-column loop: truncate a cell with more than
    [num_samples] rows, otherwise draw with replacement. *)
Definition step2 (ar q : matrix A) (num_samples : nat) (idx : list nat)
           (ks : list nat) : py (list nat) :=
  idx_ ← lift (cell_rows ar q ks);
  idx__ ← (if decide (num_samples < length idx_)%nat
           then mret (take num_samples idx_)
           else random_choice idx_ num_samples);
  mret (idx ++ idx__).

(** The body of the other loop, which reads columns 0, 1 and 2 and skips
    an empty cell. *)
Definition step3 (ar q : matrix A) (num_samples : nat) (idx : list nat)
           (ks : list nat) : py (list nat) :=
  idx_ ← lift (cell_rows ar q ks);
  if decide (num_samples < length idx_)%nat
  then mret (idx ++ take num_samples idx_)
  else if decide (0 < length idx_)%nat
       then idx__ ← random_choice idx_ num_samples; mret (idx ++ idx__)
       else mret idx.

(** [stratified_sampling(ar, M)]. *)
Definition stratified_sampling (ar : matrix A) (M : nat) : py (list nat) :=
  q ← lift (np_quantile ar);
  let dim := ncols ar in
  let num_samples := (M / 4 ^ dim)%nat in
  idx ← (if decide (dim = 2)
         then pfold (step2 ar q num_samples) cells2 []
         else pfold (step3 ar q num_samples) cells3 []);
  idx_min ← lift (axis0 np_argmin ar);
  idx_max ← lift (axis0 np_argmax ar);
  idx ← lift (slice_assign idx 0 dim idx_min);
  idx ← lift (slice_assign idx dim (2 * dim)%nat idx_max);
  mret idx.

End Numpy.


(** ** Library code *)

(** What the notebook calls and does not define: [np.exp], [np.std], and
    scikit-learn's [GaussianProcessRegressor] with the Matern kernel of the
    notebook.  [gp_fit X y] is [GaussianProcessRegressor(...).fit(X, y)];
    [gp_predict gp x] is the posterior mean and standard deviation that
    [gp.predict(., return_std=True)] gives at the input row [x] (both are
    computed row by row).  The two may raise: scikit-learn validates its
    inputs. *)
Record Lib (A GP : Type) : Type := {
  np_exp : A -> A;
  np_std : list A -> A;
  gp_fit : matrix A -> list A -> result GP;
  gp_predict : GP -> list A -> result (A * A);
}.
Arguments np_exp {A GP} _ _.
Arguments np_std {A GP} _ _.
Arguments gp_fit {A GP} _ _ _.
Arguments gp_predict {A GP} _ _ _.

(** ** The data cells *)

(** A row of [irs_params['arr_0']]: column 5 is the counterparty, column 6
    the currency code. *)
Record irs_param : Type := { cpty : nat; ccy : nat }.

(** [for i in range(len(irs_params)): if irs_params[i][5] == cpty_idx:
    port_idx.append(i)], with [cpty_idx = 0]. *)
Definition cpty_idx : nat := 0.
Definition make_port_idx (irs_params : list irs_param) : list nat :=
  np_where (lmap (fun p => bool_decide (cpty p = cpty_idx)) irs_params).

(** The cell that builds [irs_map]. *)
Definition make_irs_map (irs_params : list irs_param) (port_idx : list nat)
  : result (gmap nat (list nat)) :=
  rfold (fun irs_map i =>
           p ← getitem irs_params i;
           if decide (ccy p = 0)
           then Ok (<[i := [0]]> irs_map)
           else Ok (<[i := [ccy p; ccy p + 10]]> irs_map))
        port_idx ∅.

(** [np.arange(start, stop, 10)]. *)
Definition arange10 (start stop : nat) : list nat :=
  lmap (fun k => start + 10 * k) (seq 0 ((stop + 9 - start) / 10)).

Fixpoint transpose {A} (m : matrix A) : matrix A :=
  match m with
  | [] => []
  | r :: m' =>
      match m' with
      | [] => lmap (fun x => [x]) r
      | _ => zip_with cons r (transpose m')
      end
  end.

(** The global names that the data cells bind and the later cells read.
    [mtm[i]] has a row per portfolio instrument and a column per scenario;
    [rates_fx[i]] and [prev_rates_fx[i]] have a row per scenario and a
    column per rate or FX process. *)
Record globals (A : Type) : Type := {
  port_idx : list nat;
  irs_map : gmap nat (list nat);
  mtm : list (matrix A);
  rates_fx : list (matrix A);
  prev_rates_fx : list (matrix A);
  nt : nat;
  M : nat;
}.
Arguments port_idx {A} _.
Arguments irs_map {A} _.
Arguments mtm {A} _.
Arguments rates_fx {A} _.
Arguments prev_rates_fx {A} _.
Arguments nt {A} _.
Arguments M {A} _.

(** The data cells: [mtm_irs] and [rates_and_fx] are the loaded cubes
    (time step, instrument or process, scenario), [M0] is the cell
    [M = 2000].  [port_idx = np.array(port_idx)] of an empty list is an
    array of floats, which cannot index: [IndexError]. *)
Definition data_cells {A} (irs_params : list irs_param)
           (mtm_irs rates_and_fx : list (matrix A)) (M0 : nat)
  : result (globals A) :=
  let port_idx := make_port_idx irs_params in
  let T := length mtm_irs in
  irs_map ← make_irs_map irs_params port_idx;
  '(mtm, rates_fx, prev_rates_fx) ←
    rfold (fun '(mtm, rates_fx, prev_rates_fx) t =>
             cube_t ← getitem mtm_irs t;
             rows ← (if decide (port_idx = []) then Raise IndexError
                     else take_idx cube_t port_idx);
             prev ← getitem rates_and_fx (t - 5);
             cur ← getitem rates_and_fx t;
             Ok (mtm ++ [lmap (take (2 * M0)) rows],
                 rates_fx ++ [transpose (lmap (take (2 * M0)) cur)],
                 prev_rates_fx ++ [transpose (lmap (take (2 * M0)) prev)]))
          (arange10 5 T) ([], [], []);
  Ok {| port_idx := port_idx; irs_map := irs_map; mtm := mtm;
        rates_fx := rates_fx; prev_rates_fx := prev_rates_fx;
        nt := length (arange10 1 T); M := M0 |}.

(** The cell [reset_idx = (np.arange(101) - 1) // 5*5]. *)
Definition reset_idx : list Z :=
  lmap (fun k : nat => ((Z.of_nat k - 1) / 5 * 5)%Z) (seq 0 101).

(** ** Training *)

(** An entry of the dict [portfolio].  The arrays are created as
    [np.array([0]*nt, dtype=object)]: a slot is [None] until the training
    loop assigns it. *)
Record pf_entry (A GP : Type) : Type := {
  GPs : list (option GP);
  weight : Z;
  pf_min : list (option (list A));
  pf_max : list (option (list A));
  min_sc_x : list (option (list A));
  max_sc_x : list (option (list A));
  min_sc_y : list (option A);
  max_sc_y : list (option A);
}.
Arguments GPs {A GP} _.
Arguments weight {A GP} _.
Arguments pf_min {A GP} _.
Arguments pf_max {A GP} _.
Arguments min_sc_x {A GP} _.
Arguments max_sc_x {A GP} _.
Arguments min_sc_y {A GP} _.
Arguments max_sc_y {A GP} _.

(** [a[i] = v] on an array of slots. *)
Definition setitem {X} (a : list X) (i : nat) (v : X) : result (list X) :=
  if decide (i < length a) then Ok (<[i := v]> a) else Raise IndexError.

(** Reading a slot and using its value in a way that the placeholder [0]
    does not support: subscripting it ([TypeError]) or calling a method of
    it ([AttributeError]). *)
Definition getslot {X} (a : list (option X)) (i : nat) (e : exn) : result X :=
  s ← getitem a i;
  match s with
  | Some x => Ok x
  | None => Raise e
  end.

Section Training.
Context {A GP : Type} `{Num A} (lib : Lib A GP).
Local Open Scope num_scope.

Definition empty_entry (nt : nat) : pf_entry A GP :=
  {| GPs := replicate nt None; weight := 1;
     pf_min := replicate nt None; pf_max := replicate nt None;
     min_sc_x := replicate nt None; max_sc_x := replicate nt None;
     min_sc_y := replicate nt None; max_sc_y := replicate nt None |}.

Definition empty_portfolio (port_idx : list nat) (nt : nat)
  : gmap nat (pf_entry A GP) :=
  foldl (fun pf idx => <[idx := empty_entry nt]> pf) ∅ port_idx.

(** The right-hand side of an assignment to all the [rows] rows of an
    array: it has that many rows, or one row, which is repeated. *)
Definition fit_rows {X} (rows : nat) (xs : list X) : result (list X) :=
  if decide (length xs = rows) then Ok xs
  else match xs with
       | [x] => Ok (replicate rows x)
       | _ => Raise ValueError
       end.

(** The inputs of instrument [j] at step [i]: its mapped processes, and
    from the second step on a leading column with the first of them at
    the previous reset date, written into [np.zeros([2*M, n_rates+1])]. *)
Definition train_inputs (g : globals A) (i j : nat) : result (matrix A) :=
  key ← getitem (port_idx g) j;
  cols ← dict_get (irs_map g) key;
  if decide (0 < i)%nat then
    prev ← getitem (prev_rates_fx g) i;
    c0 ← getitem cols 0;
    v ← column prev c0;
    v ← fit_rows (2 * M g) v;
    cur ← getitem (rates_fx g) i;
    m ← columns cur cols;
    m ← fit_rows (2 * M g) m;
    Ok (zip_with cons v m)
  else
    cur ← getitem (rates_fx g) i;
    columns cur cols.

(** [(rates_ - np.min(rates_, axis=0)) /
     (np.max(rates_, axis=0) - np.min(rates_, axis=0) + 1e-16)]. *)
Definition rescale_x (mn mx : list A) (row : list A) : list A :=
  zip_with (fun x b => (x - b.1) / (b.2 - b.1 + eps16)) row (zip mn mx).

Definition rescale_inputs (rates_ : matrix A) : result (matrix A) :=
  mn ← axis0 np_min rates_;
  mx ← axis0 np_max rates_;
  Ok (lmap (rescale_x mn mx) rates_).

(** The rescaling of the prices, with its test of the range. *)
Definition rescale_prices (irs_prices : list A) : result (list A) :=
  mx ← np_max irs_prices;
  mn ← np_min irs_prices;
  if negb (mx - mn =? f0)
  then Ok (lmap (fun p : A => (p - mn) / (mx - mn)) irs_prices)
  else Ok (lmap (fun p : A => p - mn) irs_prices).

(** The body of the training loop for step [i] and instrument [j]. *)
Definition train_step (g : globals A) (pf : gmap nat (pf_entry A GP))
           (ij : nat * nat) : py (gmap nat (pf_entry A GP)) :=
  let '(i, j) := ij in
  rates_ ← lift (train_inputs g i j);
  idx ← stratified_sampling rates_ (M g);
  lift (
    rates_sc_ ← rescale_inputs rates_;
    mtm_i ← getitem (mtm g) i;
    irs_prices ← getitem mtm_i j;
    irs_prices_sc_ ← rescale_prices irs_prices;
    X ← take_idx rates_sc_ idx;
    y ← take_idx irs_prices_sc_ idx;
    gp ← gp_fit lib X y;
    key ← getitem (port_idx g) j;
    e ← dict_get pf key;
    gps ← setitem (GPs e) i (Some gp);
    sub ← take_idx rates_ idx;
    mn ← axis0 np_min sub;
    pmin ← setitem (pf_min e) i (Some mn);
    mx ← axis0 np_max sub;
    pmax ← setitem (pf_max e) i (Some mx);
    mnx ← axis0 np_min rates_;
    minx ← setitem (min_sc_x e) i (Some mnx);
    mxx ← axis0 np_max rates_;
    maxx ← setitem (max_sc_x e) i (Some mxx);
    mny ← np_min irs_prices;
    miny ← setitem (min_sc_y e) i (Some mny);
    mxy ← np_max irs_prices;
    maxy ← setitem (max_sc_y e) i (Some mxy);
    Ok (<[key := {| GPs := gps; weight := weight e;
                    pf_min := pmin; pf_max := pmax;
                    min_sc_x := minx; max_sc_x := maxx;
                    min_sc_y := miny; max_sc_y := maxy |}]> pf)).

(** [for i in range(nt): for j in range(20): ...]. *)
Definition train (g : globals A) : py (gmap nat (pf_entry A GP)) :=
  pfold (train_step g)
        (i ← seq 0 (nt g); j ← seq 0 20; [(i, j)])
        (empty_portfolio (port_idx g) (nt g)).

End Training.

(** ** The CVA simulation *)

Record sim_params : Type := { sp_M : nat; sp_nt : nat }.
Record model_params (A : Type) : Type := {
  mp_r : A; mp_T : A; mp_t0 : A; mp_lambda : A; mp_size : nat;
}.
Arguments mp_r {A} _.
Arguments mp_T {A} _.
Arguments mp_t0 {A} _.
Arguments mp_lambda {A} _.
Arguments mp_size {A} _.
Record def_model (A : Type) : Type := { recovery : A }.
Arguments recovery {A} _.

(** The dicts [pi] and [CVA] that the function returns. *)
Record pi_t (A : Type) : Type := {
  pi_tilde : matrix A; pi_exact : matrix A; pi_tilde_var : matrix A;
}.
Arguments pi_tilde {A} _.
Arguments pi_exact {A} _.
Arguments pi_tilde_var {A} _.
Record CVA_t (A : Type) : Type := {
  cva_tilde : A; cva_exact : A;
  cva_exact_up : A; cva_exact_down : A;
  cva_tilde_up : A; cva_tilde_down : A;
}.
Arguments cva_tilde {A} _.
Arguments cva_exact {A} _.
Arguments cva_exact_up {A} _.
Arguments cva_exact_down {A} _.
Arguments cva_tilde_up {A} _.
Arguments cva_tilde_down {A} _.

(** [name(x)] for a name that the function does not assign: the name is
    looked up in the global and builtin names when the call is evaluated.
    A namespace gives, for each bound name, what a call of the object with
    one number does. *)
Definition call_name {A} (ns : gmap string (A -> result A)) (name : string)
           (x : A) : result A :=
  match ns !! name with
  | None => Raise (NameError name)
  | Some f => f x
  end.

Section Simulation.
Context {A GP : Type} `{Num A} (lib : Lib A GP).
Local Open Scope num_scope.

(** The clipping of column [k] of the test inputs: both index sets are
    computed first, then the two assignments are made in turn. *)
Definition clip (lo hi x : A) : A :=
  let below := x <? lo in
  let above := hi <? x in
  let x1 := if below then lo else x in
  if above then hi else x1.

Definition clip_column (e : pf_entry A GP) (i : nat) (test_rates : matrix A)
           (k : nat) : result (matrix A) :=
  mn ← getslot (pf_min e) i TypeError;
  lo ← getitem mn k;
  mx ← getslot (pf_max e) i TypeError;
  hi ← getitem mx k;
  Ok (lmap (fun row : list A => match row !! k with
                      | Some x => <[k := clip lo hi x]> row
                      | None => row
                      end) test_rates).

(** The value of a slot in arithmetic: the placeholder is the number
    [0], which behaves as an array of one entry. *)
Definition slot_row (s : list (option (list A))) (i : nat)
  : result (list A) :=
  v ← getitem s i; Ok (default [f0] v).
Definition slot_num (s : list (option A)) (i : nat) : result A :=
  v ← getitem s i; Ok (default f0 v).

(** An operation on two one-dimensional arrays, with numpy's
    broadcasting: equal lengths, or one of them of length 1. *)
Definition bcast (f : A -> A -> A) (u v : list A) : result (list A) :=
  if decide (length u = length v) then Ok (zip_with f u v)
  else match u, v with
       | [x], _ => Ok (lmap (f x) v)
       | _, [y] => Ok (lmap (fun x : A => f x y) u)
       | _, _ => Raise ValueError
       end.

(** [(test_rates - min_) / (max_ - min_)]. *)
Definition rescale_test (min_ max_ : list A) (test_rates : matrix A)
  : result (matrix A) :=
  den ← bcast fsub max_ min_;
  rmapM (fun row => num ← bcast fsub row min_; bcast fdiv num den)
        test_rates.

(** [gp.predict(X, return_std=True)]: scikit-learn refuses an array
    without rows. *)
Definition predict (gp : GP) (X : matrix A) : result (list (A * A)) :=
  match X with
  | [] => Raise ValueError
  | _ => rmapM (gp_predict lib gp) X
  end.

(** The test inputs of instrument [j] at date [i], clipped, as they are
    before the rescaling. *)
Definition test_inputs (g : globals A) (pf : gmap nat (pf_entry A GP))
           (i j : nat) (idx : list nat) : result (matrix A) :=
  cur ← getitem (rates_fx g) i;
  key ← getitem (port_idx g) j;
  cols ← dict_get (irs_map g) key;
  rates ← columns cur cols;
  prev ← getitem (prev_rates_fx g) i;
  c0 ← getitem cols 0;
  prev_rates ← column prev c0;
  let n_rates := length cols in
  dim_test ← (if decide (0 < i)%nat then
                v ← take_idx prev_rates idx;
                m ← take_idx rates idx;
                Ok (S n_rates, zip_with cons v m)
              else
                m ← take_idx rates idx;
                Ok (n_rates, m));
  e ← dict_get pf key;
  rfold (clip_column e i) (seq 0 dim_test.1) dim_test.2.

(** What instrument [j] adds at date [i] to [pred_], [var_] and [obs_],
    once the scenario indices [idx] are drawn. *)
Definition instrument_values (g : globals A) (pf : gmap nat (pf_entry A GP))
           (i j : nat) (idx : list nat) : result (list A * list A * list A) :=
  mtm_i ← getitem (mtm g) i;
  prices_j ← getitem mtm_i j;
  irs_prices ← take_idx prices_j idx;
  test_rates ← test_inputs g pf i j idx;
  key ← getitem (port_idx g) j;
  e ← dict_get pf key;
  min_ ← slot_row (min_sc_x e) i;
  max_ ← slot_row (max_sc_x e) i;
  test_rates_sc ← rescale_test min_ max_ test_rates;
  gp ← getslot (GPs e) i AttributeError;
  out ← predict gp test_rates_sc;
  min_y_ ← slot_num (min_sc_y e) i;
  max_y_ ← slot_num (max_sc_y e) i;
  let pred := lmap (fun o : A * A => min_y_ + o.1 * (max_y_ - min_y_)) out in
  let std := lmap (fun o : A * A => o.2 * (max_y_ - min_y_)) out in
  let w := of_int (weight e) in
  Ok (lmap (fmul w) pred,
      lmap (fun s : A => (w * s) * (w * s)) std,
      lmap (fmul w) irs_prices).

(** [pred_ += ...; var_ += ...; obs_ += ...]. *)
Definition accumulate (acc vals : list A * list A * list A)
  : list A * list A * list A :=
  (zip_with fadd acc.1.1 vals.1.1,
   zip_with fadd acc.1.2 vals.1.2,
   zip_with fadd acc.2 vals.2).

(** The body of the loop over the instruments at date [i]. *)
Definition instrument_step (g : globals A) (pf : gmap nat (pf_entry A GP))
           (M i : nat) (acc : list A * list A * list A) (j : nat)
  : py (list A * list A * list A) :=
  idx ← random_choice (seq 0 (2 * M)) M;
  lift (vals ← instrument_values g pf i j idx; Ok (accumulate acc vals)).

(** The state of the first loop: [pi] and [dPD], four arrays of dtype
    float32; a row assigned to one of them is converted entry by entry. *)
Definition zeros (n m : nat) : matrix A := replicate n (replicate m f0).

Definition exposure_step (g : globals A) (pf : gmap nat (pf_entry A GP))
           (M n_instruments : nat) (haz_rate dt : A)
           (st : pi_t A * matrix A) (i : nat) : py (pi_t A * matrix A) :=
  let '(pi, dPD) := st in
  '(pred_, var_, obs_) ←
    pfold (instrument_step g pf M i) (seq 0 n_instruments)
          (replicate M f0, replicate M f0, replicate M f0);
  lift (
    t ← setitem (pi_tilde pi) i (lmap float32 pred_);
    x ← setitem (pi_exact pi) i (lmap float32 obs_);
    v ← setitem (pi_tilde_var pi) i (lmap float32 var_);
    d ← setitem dPD i
          (replicate M (float32 (haz_rate * np_exp lib (- haz_rate * dt))));
    Ok ({| pi_tilde := t; pi_exact := x; pi_tilde_var := v |}, d)).

Definition exposure_loop (g : globals A) (pf : gmap nat (pf_entry A GP))
           (sp : sim_params) (mp : model_params A) (dt : A)
  : py (pi_t A * matrix A) :=
  let M := sp_M sp in
  let nt := sp_nt sp in
  pfold (exposure_step g pf M (mp_size mp) (mp_lambda mp) dt) (seq 0 nt)
        ({| pi_tilde := zeros nt M; pi_exact := zeros nt M;
            pi_tilde_var := zeros nt M |}, zeros nt M).

(** The body of the second loop. *)
Definition cva_step (ns : gmap string (A -> result A)) (M : nat)
           (r t0 dt : A) (pi : pi_t A) (dPD : matrix A)
           (CVA : CVA_t A) (i : nat) : result (CVA_t A) :=
  let time := of_int (Z.of_nat i) * dt in
  dPD_i ← getitem dPD i;
  tilde_i ← getitem (pi_tilde pi) i;
  let mu_tilde :=
    np_mean32 (mul32 dPD_i tilde_i) * np_exp lib (- r * (time - t0)) * dt in
  let CVA_tilde := cva_tilde CVA + mu_tilde in
  let num_tilde :=
    np_std lib (mul32 dPD_i tilde_i) * np_exp lib (- r * (time - t0)) * dt in
  sqrt_M ← call_name ns "sqrt" (of_int (Z.of_nat M));
  let std_tilde_err := num_tilde / sqrt_M in
  let CVA_tilde_up := cva_tilde_up CVA + (mu_tilde + of_int 2 * std_tilde_err) in
  let CVA_tilde_down := cva_tilde_down CVA + (mu_tilde - of_int 2 * std_tilde_err) in
  exact_i ← getitem (pi_exact pi) i;
  let mu_exact :=
    np_mean32 (mul32 dPD_i exact_i) * np_exp lib (- r * (time - t0)) * dt in
  let CVA_exact := cva_exact CVA + mu_exact in
  let num_exact :=
    np_std lib (mul32 dPD_i exact_i) * np_exp lib (- r * (time - t0)) * dt in
  sqrt_M' ← call_name ns "sqrt" (of_int (Z.of_nat M));
  let std_exact_err := num_exact / sqrt_M' in
  Ok {| cva_tilde := CVA_tilde; cva_exact := CVA_exact;
        cva_exact_up := cva_exact_up CVA + (mu_exact + of_int 2 * std_exact_err);
        cva_exact_down := cva_exact_down CVA + (mu_exact - of_int 2 * std_exact_err);
        cva_tilde_up := CVA_tilde_up; cva_tilde_down := CVA_tilde_down |}.

Definition scale_cva (c : A) (CVA : CVA_t A) : CVA_t A :=
  {| cva_tilde := cva_tilde CVA * c; cva_exact := cva_exact CVA * c;
     cva_exact_up := cva_exact_up CVA * c;
     cva_exact_down := cva_exact_down CVA * c;
     cva_tilde_up := cva_tilde_up CVA * c;
     cva_tilde_down := cva_tilde_down CVA * c |}.

Definition cva_loop (ns : gmap string (A -> result A)) (sp : sim_params)
           (mp : model_params A) (dm : def_model A) (dt : A)
           (pi : pi_t A) (dPD : matrix A) : result (CVA_t A) :=
  CVA ← rfold (cva_step ns (sp_M sp) (mp_r mp) (mp_t0 mp) dt pi dPD)
              (seq 0 (sp_nt sp))
              {| cva_tilde := f0; cva_exact := f0;
                 cva_exact_up := f0; cva_exact_down := f0;
                 cva_tilde_up := f0; cva_tilde_down := f0 |};
  Ok (scale_cva (f1 - recovery dm) CVA).

(** [dt = T/nt]. *)
Definition time_step (mp : model_params A) (nt : nat) : result A :=
  if decide (nt = 0) then Raise ZeroDivisionError
  else Ok (mp_T mp / of_int (Z.of_nat nt)).

(** [CVA_simulation(sim_params, model_params, def_model)], in the global
    namespace [ns] with the global data [g] and [portfolio = pf]. *)
Definition CVA_simulation (ns : gmap string (A -> result A)) (g : globals A)
           (pf : gmap nat (pf_entry A GP)) (sp : sim_params)
           (mp : model_params A) (dm : def_model A)
  : py (CVA_t A * pi_t A) :=
  dt ← lift (time_step mp (sp_nt sp));
  '(pi, dPD) ← exposure_loop g pf sp mp dt;
  CVA ← lift (cva_loop ns sp mp dm dt pi dPD);
  mret (CVA, pi).

(** The cell after the simulation: [np.mean(pi_0[...], axis=1)], on
    arrays of dtype float32. *)
Definition epe_gp (pi_0 : pi_t A) : list A := np_mean32_axis1 (pi_tilde pi_0).
Definition epe_obs (pi_0 : pi_t A) : list A := np_mean32_axis1 (pi_exact pi_0).
Definition epe_var (pi_0 : pi_t A) : list A :=
  np_mean32_axis1 (pi_tilde_var pi_0).

End Simulation.

(** ** The namespace in which [CVA_simulation] runs *)

(** The names that the cells above the call bind ([%matplotlib inline]
    binds none), IPython's own, and Python's builtin functions. *)
Definition global_names : list string :=
  [ "plt"; "np"; "gaussian_process"; "ConstantKernel"; "RBF"; "Matern";
    "mtm_irs"; "rates_and_fx"; "irs_params"; "rate_params";
    "cpty_idx"; "port_idx"; "i"; "T"; "reset_idx"; "M"; "irs_map"; "ccy";
    "mtm"; "rates_fx"; "prev_rates_fx"; "t"; "nt"; "stratified_sampling";
    "sk_kernel_matern"; "sk_kernel_rbf"; "portfolio"; "idx"; "gps"; "j";
    "n_rates"; "rates_"; "gp"; "rates_sc_"; "irs_prices"; "irs_prices_sc_";
    "CVA_simulation"; "def_model"; "sim_params"; "model_params";
    "In"; "Out"; "get_ipython"; "exit"; "quit"; "_"; "__"; "___" ]%string.

Definition builtin_names : list string :=
  [ "abs"; "all"; "any"; "ascii"; "bin"; "bool"; "bytearray"; "bytes";
    "callable"; "chr"; "classmethod"; "compile"; "complex"; "delattr";
    "dict"; "dir"; "divmod"; "enumerate"; "eval"; "exec"; "filter";
    "float"; "format"; "frozenset"; "getattr"; "globals"; "hasattr";
    "hash"; "help"; "hex"; "id"; "input"; "int"; "isinstance";
    "issubclass"; "iter"; "len"; "list"; "locals"; "map"; "max";
    "memoryview"; "min"; "next"; "object"; "oct"; "open"; "ord"; "pow";
    "print"; "property"; "range"; "repr"; "reversed"; "round"; "set";
    "setattr"; "slice"; "sorted"; "staticmethod"; "str"; "sum"; "super";
    "tuple"; "type"; "vars"; "zip"; "__import__" ]%string.

(** [call x] is what calling the object bound to a name with the one
    argument [x] does; the namespace of the notebook is given for any
    behaviour [call] of the objects bound in it. *)
Definition notebook_ns {A} (call : string -> A -> result A)
  : gmap string (A -> result A) :=
  list_to_map (lmap (fun n => (n, call n)) (global_names ++ builtin_names)).

(** * Notions of the statements *)

(** A rectangular array: every row has [ncols] entries. *)
Definition rect {A} (ar : matrix A) : Prop :=
  Forall (fun r => length r = ncols ar) ar.

(** The number of input columns of the instrument [key] at step [i]. *)
Definition dim_of (cols : list nat) (i : nat) : nat :=
  if decide (0 < i) then S (length cols) else length cols.

(** The processes that [irs_map] gives a swap. *)
Definition mapped_processes (p : irs_param) : list nat :=
  if decide (ccy p = 0) then [0] else [ccy p; ccy p + 10].


(** The Expected Positive Exposure in the words of the specification: the
    mean over the scenarios of the positive part [max(V, 0)] of the
    portfolio value, date by date. *)
Definition epe_positive_part {A} `{Num A} (V : matrix A) : list A :=
  lmap (fun row : list A => np_mean (lmap (max2 f0) row)) V.

(** The entry of [row] in column [c] lies between the quartiles [k] and
    [k + 1] of that column, rows [k] and [k + 1] of [q]. *)
Definition between_quartiles {A} `{Num A} (q : matrix A) (row : list A)
           (c k : nat) : Prop :=
  exists x qlo qhi lo hi,
    row !! c = Some x /\ q !! k = Some qlo /\ qlo !! c = Some lo /\
    q !! S k = Some qhi /\ qhi !! c = Some hi /\
    (lo <= x)%num /\ (x <= hi)%num.

(** Row [r] of [ar] lies in the cell [ks] of the quartile grid: in every
    column [c] that the cell constrains, between the quartiles [ks[c]] and
    [ks[c] + 1]. *)
Definition in_cell {A} `{Num A} (ar q : matrix A) (ks : list nat) (r : nat)
  : Prop :=
  exists row,
    ar !! r = Some row /\
    forall c k, ks !! c = Some k -> between_quartiles q row c k.

(** [rows] lists the rows of [ar] that lie in the cell, in increasing
    order. *)
Definition cell_members {A} `{Num A} (ar q : matrix A) (ks rows : list nat)
  : Prop :=
  StronglySorted lt rows /\ forall r, r ∈ rows <-> in_cell ar q ks r.

(** [counts P xs n]: [n] of the elements of [xs] satisfy [P]. *)
Inductive counts {X : Type} (P : X -> Prop) : list X -> nat -> Prop :=
  | counts_nil : counts P [] 0
  | counts_yes x xs n : P x -> counts P xs n -> counts P (x :: xs) (S n)
  | counts_no x xs n : ~ P x -> counts P xs n -> counts P (x :: xs) n.

(** Every one of the 16 cells of the two quartile grids has a row. *)
Definition buckets_nonempty {A} `{Num A} (ar : matrix A) : Prop :=
  exists q,
    np_quantile ar = Ok q /\
    Forall (fun ks => exists r, in_cell ar q ks r) cells2.

Section Notions.
Context {A GP : Type} `{Num A} (lib : Lib A GP).
Local Open Scope num_scope.

(** The four bounds of a slot: [d] columns each, the bounds of the
    sample inside the bounds of the whole array. *)
Definition bounds_nested (mn mx mnx mxx : list A) (d : nat) : Prop :=
  length mn = d /\ length mx = d /\ length mnx = d /\ length mxx = d /\
  forall k lo hi lo' hi',
    mn !! k = Some lo -> mx !! k = Some hi ->
    mnx !! k = Some lo' -> mxx !! k = Some hi' ->
    lo' <= lo /\ lo <= hi /\ hi <= hi'.

(** What holds of every slot that the training loop has written. *)
Definition entry_inv (g : globals A) (key : nat) (e : pf_entry A GP) : Prop :=
  forall i mn,
    pf_min e !! i = Some (Some mn) ->
    exists mx mnx mxx cols,
      irs_map g !! key = Some cols /\
      pf_max e !! i = Some (Some mx) /\
      min_sc_x e !! i = Some (Some mnx) /\
      max_sc_x e !! i = Some (Some mxx) /\
      bounds_nested mn mx mnx mxx (dim_of cols i).

Definition pf_inv (g : globals A) (pf : gmap nat (pf_entry A GP)) : Prop :=
  forall key e, pf !! key = Some e -> entry_inv g key e.

(** Column [k] of the array lies between the [k]-th bounds. *)
Definition column_within (mn mx : list A) (k : nat) (test : matrix A) : Prop :=
  forall row x,
    row ∈ test -> row !! k = Some x ->
    exists lo hi, mn !! k = Some lo /\ mx !! k = Some hi /\ lo <= x /\ x <= hi.

(** One pass of the two-column loop over a cell that is not empty: the
    cell contributes [num_samples] of the rows that lie between its
    quartiles, the first ones when it has more. *)
Definition drawn_from (ar q : matrix A) (num_samples : nat)
           (ks : list nat) (chunk : list nat) : Prop :=
  exists rows,
    cell_members ar q ks rows /\ length chunk = num_samples /\
    Forall (fun r => r ∈ rows) chunk /\
    ((num_samples < length rows)%nat -> chunk = take num_samples rows).

(** The value that the first loop writes into every entry of [dPD]. *)
Definition dPD_value (haz_rate dt : A) : A :=
  float32 (haz_rate * np_exp lib (- haz_rate * dt)).

(** The market factors of an instrument mapped to the processes [cols], at
    date [i] in scenario [s]: its processes, and after the first date the
    first of them at the previous reset date in front. *)
Definition scenario_factors (g : globals A) (i : nat) (cols : list nat)
           (s : nat) : result (list A) :=
  cur ← getitem (rates_fx g) i;
  row ← getitem cur s;
  rates ← rmapM (getitem row) cols;
  if decide (0 < i)%nat then
    prev ← getitem (prev_rates_fx g) i;
    c0 ← getitem cols 0;
    prow ← getitem prev s;
    x ← getitem prow c0;
    Ok (x :: rates)
  else Ok rates.

(** The clipping of entry [k] of one row of inputs. *)
Definition clip_row (mn mx : list A) (row : list A) (k : nat) : list A :=
  match row !! k, mn !! k, mx !! k with
  | Some x, Some lo, Some hi => <[k := clip lo hi x]> row
  | _, _, _ => row
  end.




(** The lower bound, the estimate and the upper bound are in order, for
    the surrogate and for the analytical prices. *)
Definition bounds_ordered (CVA : CVA_t A) : Prop :=
  cva_tilde_down CVA <= cva_tilde CVA /\ cva_tilde CVA <= cva_tilde_up CVA /\
  cva_exact_down CVA <= cva_exact CVA /\ cva_exact CVA <= cva_exact_up CVA.

End Notions.

(** One pass of the three-column loop: a cell without rows contributes
    nothing, any other cell [num_samples] of the rows that lie between its
    quartiles, the first ones when it has more. *)
Definition drawn_or_skipped {A} `{Num A} (ar q : matrix A) (num_samples : nat)
           (ks : list nat) (chunk : list nat) : Prop :=
  exists rows,
    cell_members ar q ks rows /\
    Forall (fun r => r ∈ rows) chunk /\
    (rows = [] -> chunk = []) /\
    (rows <> [] -> length chunk = num_samples) /\
    ((num_samples < length rows)%nat -> chunk = take num_samples rows).

(** The slot of date [i] of the swap [key] holds a fitted regressor and
    the six arrays of bounds, none of them the placeholder. *)
Definition slot_trained {A GP : Type} (pf : gmap nat (pf_entry A GP))
           (key i : nat) : Prop :=
  exists e gp mn mx mnx mxx mny mxy,
    pf !! key = Some e /\ GPs e !! i = Some (Some gp) /\
    pf_min e !! i = Some (Some mn) /\ pf_max e !! i = Some (Some mx) /\
    min_sc_x e !! i = Some (Some mnx) /\ max_sc_x e !! i = Some (Some mxx) /\
    min_sc_y e !! i = Some (Some mny) /\ max_sc_y e !! i = Some (Some mxy).

(** The pairs of the training loop, in its order. *)
Definition train_pairs (nt : nat) : list (nat * nat) :=
  i ← seq 0 nt; j ← seq 0 20; [(i, j)].

(** A list of rationals in ascending order. *)
Fixpoint ascending (s : list Q) : Prop :=
  match s with
  | [] => True
  | x :: s' => Forall (Qle x) s' /\ ascending s'
  end.



(** * Data sets *)

(** A training array in binary64 with two scenarios: a rate column and an
    FX column whose range is 1.5. *)
Definition rates_binary64 : matrix float :=
  [ [0.25%float; 1%float];
    [0.5%float; 2.5%float] ].

(** The same array and two prices in exact arithmetic. *)
Definition rates_exact : matrix Q := [ [1 # 4; 1]; [1 # 2; 5 # 2] ]%Q.
Definition prices_exact : list Q := [ -1; 3 ]%Q.

(** The same array and prices in arithmetic rounded to 53 bits, and the
    binary64 number that such a value is. *)
Definition rates_r53 : matrix R53 :=
  [ [mkR53 (1 # 4); mkR53 1]; [mkR53 (1 # 2); mkR53 (5 # 2)] ].

Definition binary64_of (x : R53) : float :=
  let q := rd x in
  SF2Prim (binary_normalize 53 1024 (Qnum q) (- Z.log2 (Zpos (Qden q))) false).

(** A 16-row array with one row in every cell, in binary64 and in exact
    arithmetic, and what [stratified_sampling] returns on the latter. *)
Definition grid_points : list (Z * Z) :=
  [ (1, 5); (2, 3); (3, 8); (4, 1); (5, 7); (6, 2); (7, 6); (8, 4);
    (1, 1); (8, 8); (1, 8); (8, 1); (3, 3); (6, 6); (3, 6); (6, 3) ]%Z.

Definition grid_binary64 : matrix float :=
  lmap (fun p : Z * Z => [float_of_int p.1; float_of_int p.2]) grid_points.

Definition grid_exact : matrix Q :=
  lmap (fun p : Z * Z => [inject_Z p.1; inject_Z p.2]) grid_points.

(** Twenty swaps of counterparty 0 in currency 1 and one swap of another
    counterparty; 16 time steps, 12 processes, 128 scenarios; [M = 64]. *)
Definition demo_irs_params : list irs_param :=
  replicate 20 {| cpty := 0; ccy := 1 |} ++ [ {| cpty := 1; ccy := 2 |} ].

Definition demo_rate (t p s : nat) : Q :=
  if decide (p < 11)
  then (inject_Z (Z.of_nat (1 + (s + t + p) mod 8)) / 100)%Q
  else (1 + inject_Z (Z.of_nat ((s / 8 + t) mod 16)) / 10)%Q.

Definition demo_price (t p s : nat) : Q :=
  (- inject_Z (Z.of_nat (1 + (s + p + t) mod 3)))%Q.

Definition demo_cube (f : nat -> nat -> nat -> Q) (np : nat) : list (matrix Q) :=
  lmap (fun t => lmap (fun p => lmap (f t p) (seq 0 128)) (seq 0 np)) (seq 0 16).

Definition demo_globals : result (globals Q) :=
  data_cells demo_irs_params (demo_cube demo_price 21) (demo_cube demo_rate 12) 64.

(** Stand-ins for the library code, enough to run the cells: a regressor
    that predicts the mean of its training targets with deviation 0, the
    Taylor polynomial of degree 2 for [np.exp], and 0 for [np.std]. *)
Definition demo_lib : Lib Q Q := {|
  np_exp := fun x => (1 + x + x * x / 2)%Q;
  np_std := fun _ => 0%Q;
  gp_fit := fun _ y => Ok (Qred (np_mean y));
  gp_predict := fun gp _ => Ok (gp, 0%Q);
|}.

Definition g0 : rng := {| gen := fun k => 7 * k + 3; pos := 0 |}.

(** The globals after the data cells, and the portfolio and the generator
    state after the training loop, computed. *)
Definition demo_g : globals Q :=
  Eval vm_compute in
    match demo_globals with
    | Ok g => g
    | Raise _ =>
        {| port_idx := []; irs_map := ∅; mtm := []; rates_fx := [];
           prev_rates_fx := []; nt := 0; M := 0 |}
    end.

Definition demo_trained : result (gmap nat (pf_entry Q Q) * rng) :=
  Eval vm_compute in train demo_lib demo_g g0.

Definition demo_portfolio : gmap nat (pf_entry Q Q) :=
  Eval vm_compute in
    match demo_trained with
    | Ok (pf, _) => pf
    | Raise _ => ∅
    end.

Definition demo_rng : rng :=
  Eval vm_compute in
    match demo_trained with
    | Ok (_, r) => r
    | Raise _ => g0
    end.

Definition demo_sim : sim_params := {| sp_M := 4; sp_nt := 2 |}.
Definition demo_model : model_params Q :=
  {| mp_r := (2 # 100)%Q; mp_T := 10%Q; mp_t0 := 0%Q; mp_lambda := (5 # 100)%Q;
     mp_size := 20 |}.
Definition demo_def : def_model Q := {| recovery := (4 # 10)%Q |}.

(** The test inputs of the first instrument at the second date, for the
    scenarios 0, 3, 5 and 7. *)
Definition demo_test : matrix Q :=
  Eval vm_compute in
    match test_inputs demo_g demo_portfolio 1 0 [0; 3; 5; 7] with
    | Ok t => t
    | Raise _ => []
    end.

(** The data set above after the market has been simulated anew: other
    scenarios of the rates and FX processes, here each value [x] of
    the training scenarios replaced by [2 x - 0.03]; and the test inputs
    on them. *)
Definition fresh_g : globals Q :=
  Eval vm_compute in
    {| port_idx := port_idx demo_g; irs_map := irs_map demo_g;
       mtm := mtm demo_g;
       rates_fx := lmap (lmap (lmap (fun x => Qred (2 * x - (3 # 100))%Q))) (rates_fx demo_g);
       prev_rates_fx := lmap (lmap (lmap (fun x => Qred (2 * x - (3 # 100))%Q))) (prev_rates_fx demo_g);
       nt := nt demo_g; M := M demo_g |}.

Definition fresh_test : matrix Q :=
  Eval vm_compute in
    match test_inputs fresh_g demo_portfolio 1 0 [0; 3; 5; 7] with
    | Ok t => t
    | Raise _ => []
    end.

(** The first loop of the simulation on the data set above. *)
Definition demo_dt : Q := (mp_T demo_model / inject_Z 2)%Q.

Definition demo_exposed : result (pi_t Q * matrix Q * rng) :=
  Eval vm_compute in
    exposure_loop demo_lib demo_g demo_portfolio demo_sim demo_model demo_dt g0.

Definition demo_pi : pi_t Q :=
  Eval vm_compute in
    match demo_exposed with
    | Ok (pi, _, _) => pi
    | Raise _ => {| pi_tilde := []; pi_exact := []; pi_tilde_var := [] |}
    end.

Definition demo_dPD : matrix Q :=
  Eval vm_compute in
    match demo_exposed with
    | Ok (_, dPD, _) => dPD
    | Raise _ => []
    end.

Definition demo_rng' : rng :=
  Eval vm_compute in
    match demo_exposed with
    | Ok (_, _, r) => r
    | Raise _ => g0
    end.





Definition grid_sample : list nat :=
  Eval vm_compute in
    match stratified_sampling grid_exact 32 g0 with
    | Ok (idx, _) => idx
    | Raise _ => []
    end.

Definition grid_rng : rng :=
  Eval vm_compute in
    match stratified_sampling grid_exact 32 g0 with
    | Ok (_, g) => g
    | Raise _ => g0
    end.

(** The data set above with the fourth swap in the domestic currency. *)
Definition domestic_irs_params : list irs_param :=
  <[3 := {| cpty := 0; ccy := 0 |}]> demo_irs_params.

Definition domestic_g : globals Q :=
  Eval vm_compute in
    match data_cells domestic_irs_params (demo_cube demo_price 21)
                     (demo_cube demo_rate 12) 64 with
    | Ok g => g
    | Raise _ => demo_g
    end.

(** The parameters of the notebook's own call. *)
Definition notebook_sim : sim_params := {| sp_M := 1000; sp_nt := 10 |}.
Definition notebook_model {A} `{Num A} : model_params A :=
  {| mp_r := (of_int 2 / of_int 100)%num; mp_T := of_int 10;
     mp_t0 := of_int 0; mp_lambda := (of_int 5 / of_int 100)%num;
     mp_size := 20 |}.
Definition notebook_def {A} `{Num A} : def_model A :=
  {| recovery := (of_int 4 / of_int 10)%num |}.

(** Eight scenarios of two perfectly dependent factors, and eight
    scenarios of three. *)
Definition diag_exact : matrix Q :=
  lmap (fun k : nat => [inject_Z (Z.of_nat k); inject_Z (Z.of_nat k)])
       (seq 1 8).

Definition diag3_exact : matrix Q :=
  lmap (fun k : nat => [inject_Z (Z.of_nat k); inject_Z (Z.of_nat k);
                        inject_Z (Z.of_nat (9 - k))])
       (seq 1 8).

(** Three swaps of counterparty 0 and one of another counterparty, with
    the cubes of the data set above. *)
Definition few_irs_params : list irs_param :=
  replicate 3 {| cpty := 0; ccy := 1 |} ++ [ {| cpty := 1; ccy := 2 |} ].

Definition few_g : globals Q :=
  Eval vm_compute in
    match data_cells few_irs_params (demo_cube demo_price 21)
                     (demo_cube demo_rate 12) 64 with
    | Ok g => g
    | Raise _ => demo_g
    end.

(** The data set above cut after 15 time steps. *)
Definition short_g : globals Q :=
  Eval vm_compute in
    match data_cells demo_irs_params (take 15 (demo_cube demo_price 21))
                     (take 15 (demo_cube demo_rate 12)) 64 with
    | Ok g => g
    | Raise _ => demo_g
    end.

(** Two steps of Heron's iteration from [x], a stand-in for [sqrt], and
    the namespace of the notebook with the name [sqrt] bound to it. *)
Definition heron (x : Q) : Q :=
  let s := ((x + 1) / 2)%Q in Qred ((s + x / s) / 2)%Q.

Definition demo_ns : gmap string (Q -> result Q) :=
  <["sqrt"%string := fun x => Ok (heron x)]>
    (notebook_ns (fun _ _ => Raise TypeError)).

(** The parameters of the simulation above with a 21st instrument. *)
Definition demo_model21 : model_params Q :=
  {| mp_r := mp_r demo_model; mp_T := mp_T demo_model;
     mp_t0 := mp_t0 demo_model; mp_lambda := mp_lambda demo_model;
     mp_size := 21 |}.

(** The second training step of the first swap on the data set above,
    from the initial [portfolio]. *)
Definition demo_step : result (gmap nat (pf_entry Q Q) * rng) :=
  Eval vm_compute in
    train_step demo_lib demo_g
               (empty_portfolio (port_idx demo_g) (nt demo_g)) (1, 0) g0.

Definition demo_step_portfolio : gmap nat (pf_entry Q Q) :=
  Eval vm_compute in
    match demo_step with
    | Ok (pf, _) => pf
    | Raise _ => ∅
    end.

Definition demo_step_rng : rng :=
  Eval vm_compute in
    match demo_step with
    | Ok (_, r) => r
    | Raise _ => g0
    end.




(** A call in binary64 with the parameters of the notebook, two paths and
    a portfolio of no instrument, so that no market data is read.
    [np.exp] is given by its value at [-0.05], the one argument that the
    first loop passes to it: the double nearest to [exp(-0.05)]. *)
Definition binary64_exp (x : float) : float :=
  if (x =? -0x1.999999999999ap-5)%float then 0x1.e7078b0a726a6p-1%float
  else 1%float.

Definition binary64_lib : Lib float unit := {|
  np_exp := binary64_exp;
  np_std := fun _ => 0%float;
  gp_fit := fun _ _ => Ok tt;
  gp_predict := fun _ _ => Ok (0%float, 0%float);
|}.

Definition binary64_globals : globals float :=
  {| port_idx := []; irs_map := ∅; mtm := []; rates_fx := [];
     prev_rates_fx := []; nt := 0; M := 0 |}.

Definition binary64_sim : sim_params := {| sp_M := 2; sp_nt := 10 |}.
Definition binary64_model : model_params float :=
  {| mp_r := 0x1.47ae147ae147bp-6%float; mp_T := 10%float; mp_t0 := 0%float;
     mp_lambda := 0x1.999999999999ap-5%float; mp_size := 0 |}.

Definition binary64_exposed : result (pi_t float * matrix float * rng) :=
  Eval vm_compute in
    exposure_loop binary64_lib binary64_globals ∅ binary64_sim binary64_model
                  1%float g0.

Definition binary64_pi : pi_t float :=
  Eval vm_compute in
    match binary64_exposed with
    | Ok (pi, _, _) => pi
    | Raise _ => {| pi_tilde := []; pi_exact := []; pi_tilde_var := [] |}
    end.

Definition binary64_dPD : matrix float :=
  Eval vm_compute in
    match binary64_exposed with
    | Ok (_, dPD, _) => dPD
    | Raise _ => []
    end.







(** * Properties *)

(** ** Exact arithmetic satisfies the laws *)

Lemma Q_fle (x y : Q) : (x <= y)%num <-> (x <= y)%Q.
Proof. unfold fle; simpl. apply Qle_bool_iff. Qed.

Lemma Q_flt (x y : Q) : (x < y)%num <-> (x < y)%Q.
Proof.
  unfold flt; simpl. rewrite negb_true_iff, <- not_true_iff_false, Qle_bool_iff.
  split; [apply Qnot_le_lt | apply Qlt_not_le].
Qed.

Lemma Q_feq (x y : Q) : (x == y)%num <-> (x == y)%Q.
Proof. unfold feq; simpl. apply Qeq_bool_iff. Qed.

Lemma Q_f0 : (f0 : Q) = 0%Q.
Proof. reflexivity. Qed.

Lemma Q_f1 : (f1 : Q) = 1%Q.
Proof. reflexivity. Qed.

#[export] Instance NumLaws_Q : NumLaws Q.
Proof.
  split; intros *; rewrite ?Q_fle, ?Q_flt, ?Q_feq, ?Q_f0, ?Q_f1; simpl.
  - lra.
  - lra.
  - lra.
  - reflexivity.
  - apply eq_true_iff_eq.
    rewrite andb_true_iff, Qeq_bool_iff, !Qle_bool_iff. lra.
  - lra.
  - lra.
  - lra.
  - lra.
  - lra.
  - intros Hn Hd. apply Qle_shift_div_l; lra.
  - intros Hn Hd. apply Qle_shift_div_r; lra.
  - intros Hn Hd. unfold Qdiv. rewrite Hn. lra.
  - intros Hn Hd. rewrite Hn. field. lra.
  - lra.
  - lra.
  - lra.
  - intros Hx Hy. apply Qmult_le_0_compat; assumption.
  - intros Hc Hxy. apply Qmult_le_compat_r; assumption.
  - intros Hz. change 0%Q with (inject_Z 0). rewrite <- Zle_Qle. exact Hz.
Qed.

(** ** Rounded arithmetic satisfies the laws *)

Section RoundingFacts.
Local Open Scope Q_scope.

Lemma pow2_pos (e : Z) : 0 < pow2 e.
Proof. apply Qpower_0_lt. reflexivity. Qed.

Lemma pow2_plus (a b : Z) : pow2 (a + b) == pow2 a * pow2 b.
Proof. apply Qpower_plus. discriminate. Qed.

Lemma pow2_le (a b : Z) : (a <= b)%Z -> pow2 a <= pow2 b.
Proof. intros Hab. apply Qpower_le_compat_l; [exact Hab|discriminate]. Qed.

Lemma pow2_lt (a b : Z) : (a < b)%Z -> pow2 a < pow2 b.
Proof. intros Hab. apply Qpower_lt_compat_l; [exact Hab|reflexivity]. Qed.

Lemma pow2_lt_inv (a b : Z) : pow2 a < pow2 b -> (a < b)%Z.
Proof. intros Hab. eapply Qpower_lt_compat_l_inv; [exact Hab|reflexivity]. Qed.

Lemma pow2_inject (k : Z) : (0 <= k)%Z -> inject_Z (2 ^ k) == pow2 k.
Proof. intros Hk. apply (Zpower_Qpower 2 k Hk). Qed.

Lemma Qnum_pos (x : Q) : 0 < x <-> (0 < Qnum x)%Z.
Proof. unfold Qlt. simpl. lia. Qed.

Lemma binade_spec (x : Q) :
  0 < x -> pow2 (binade x) <= x /\ x < pow2 (binade x + 1).
Proof.
  intros Hx. pose proof (proj1 (Qnum_pos x) Hx) as Hn.
  destruct x as [n d]. simpl in Hn.
  set (ln := Z.log2 n). set (ld := Z.log2 (Zpos d)).
  destruct (Z.log2_spec n Hn) as [Hn1 Hn2]. fold ln in Hn1, Hn2.
  destruct (Z.log2_spec (Zpos d) eq_refl) as [Hd1 Hd2]. fold ld in Hd1, Hd2.
  pose proof (Z.log2_nonneg n) as Lnn. fold ln in Lnn.
  pose proof (Z.log2_nonneg (Zpos d)) as Ldn. fold ld in Ldn.
  set (N := inject_Z n). set (D := inject_Z (Zpos d)).
  assert (HD : 0 < D) by (unfold D, Qlt; simpl; lia).
  assert (Ex : n # d == N / D) by apply Qmake_Qdiv.
  assert (EN : (n # d) * D == N) by (rewrite Ex; field; lra).
  assert (N1 : pow2 ln <= N).
  { rewrite <- pow2_inject by exact Lnn. unfold N. rewrite <- Zle_Qle. exact Hn1. }
  assert (N2 : N < pow2 (ln + 1)).
  { rewrite <- pow2_inject by lia. unfold N. rewrite <- Zlt_Qlt.
    rewrite <- Z.add_1_r in Hn2. exact Hn2. }
  assert (D1 : pow2 ld <= D).
  { rewrite <- pow2_inject by exact Ldn. unfold D. rewrite <- Zle_Qle. exact Hd1. }
  assert (D2 : D < pow2 (ld + 1)).
  { rewrite <- pow2_inject by lia. unfold D. rewrite <- Zlt_Qlt.
    rewrite <- Z.add_1_r in Hd2. exact Hd2. }
  assert (Up : (n # d) < pow2 (ln - ld + 1)).
  { apply Qmult_lt_r with D; [exact HD|]. rewrite EN.
    apply Qlt_le_trans with (pow2 (ln + 1)); [exact N2|].
    replace (ln + 1)%Z with ((ln - ld + 1) + ld)%Z by lia.
    rewrite pow2_plus. apply Qmult_le_l; [apply pow2_pos|exact D1]. }
  assert (Lo : pow2 (ln - ld - 1) <= (n # d)).
  { apply Qmult_le_r with D; [exact HD|]. rewrite EN.
    apply Qle_trans with (pow2 ln); [|exact N1].
    replace ln with ((ln - ld - 1) + (ld + 1))%Z at 2 by lia.
    rewrite pow2_plus. apply Qmult_le_l; [apply pow2_pos|].
    apply Qlt_le_weak, D2. }
  unfold binade. simpl Qnum. simpl Qden. fold ln ld.
  destruct (Qle_bool (pow2 (ln - ld)) (n # d)) eqn:E.
  - apply Qle_bool_iff in E. split; [exact E|exact Up].
  - split; [exact Lo|].
    replace (ln - ld - 1 + 1)%Z with (ln - ld)%Z by lia.
    apply Qnot_le_lt. intros Hle. apply Qle_bool_iff in Hle. congruence.
Qed.

Lemma binade_unique (x : Q) (e : Z) :
  0 < x -> pow2 e <= x -> x < pow2 (e + 1) -> binade x = e.
Proof.
  intros Hx H1 H2. destruct (binade_spec x Hx) as [B1 B2].
  assert (e < binade x + 1)%Z
    by (apply pow2_lt_inv; eapply Qle_lt_trans; eassumption).
  assert (binade x < e + 1)%Z
    by (apply pow2_lt_inv; eapply Qle_lt_trans; eassumption).
  lia.
Qed.

Lemma binade_comp (x y : Q) : x == y -> 0 < x -> binade x = binade y.
Proof.
  intros Exy Hx. symmetry. destruct (binade_spec x Hx) as [B1 B2].
  apply binade_unique; rewrite <- Exy; assumption.
Qed.

Lemma binade_mono (x y : Q) : 0 < x -> x <= y -> (binade x <= binade y)%Z.
Proof.
  intros Hx Hxy. destruct (binade_spec x Hx) as [B1 _].
  destruct (binade_spec y) as [_ B2]; [lra|].
  assert (binade x < binade y + 1)%Z; [|lia].
  apply pow2_lt_inv. lra.
Qed.

Lemma rne_comp (q q' : Q) : q == q' -> rne q = rne q'.
Proof.
  intros E. unfold rne. rewrite (Qfloor_comp _ _ E).
  assert (E' : q - inject_Z (Qfloor q') == q' - inject_Z (Qfloor q'))
    by (rewrite E; reflexivity).
  rewrite (Qcompare_comp _ _ E' _ _ (Qeq_refl (1 # 2))). reflexivity.
Qed.

Lemma rne_inject (z : Z) : rne (inject_Z z) = z.
Proof.
  unfold rne. rewrite Qfloor_Z.
  assert (L : inject_Z z - inject_Z z < 1 # 2) by lra.
  assert (E : Qcompare (inject_Z z - inject_Z z) (1 # 2) = Lt)
    by (apply Qlt_alt in L; exact L).
  rewrite E. reflexivity.
Qed.

Lemma rne_bounds (q : Q) : (Qfloor q <= rne q <= Qfloor q + 1)%Z.
Proof.
  unfold rne. destruct (Qcompare (q - inject_Z (Qfloor q)) (1 # 2));
    [destruct (Z.even (Qfloor q))|..]; lia.
Qed.

Lemma rne_mono (q q' : Q) : q <= q' -> (rne q <= rne q')%Z.
Proof.
  intros Hle. pose proof (Qfloor_resp_le _ _ Hle) as Hf.
  destruct (Z.eq_dec (Qfloor q) (Qfloor q')) as [E|NE].
  - unfold rne. rewrite <- E.
    destruct (Qcompare (q - inject_Z (Qfloor q)) (1 # 2)) eqn:C1;
      destruct (Qcompare (q' - inject_Z (Qfloor q)) (1 # 2)) eqn:C2;
      try (destruct (Z.even (Qfloor q))); try lia; exfalso;
      repeat match goal with
             | C : Qcompare _ _ = Eq |- _ => apply Qeq_alt in C
             | C : Qcompare _ _ = Lt |- _ => apply Qlt_alt in C
             | C : Qcompare _ _ = Gt |- _ => apply Qgt_alt in C
             end; lra.
  - pose proof (rne_bounds q). pose proof (rne_bounds q'). lia.
Qed.

Lemma rne_ge (z : Z) (q : Q) : inject_Z z <= q -> (z <= rne q)%Z.
Proof. intros H. rewrite <- (rne_inject z). apply rne_mono, H. Qed.

Lemma rne_le (z : Z) (q : Q) : q <= inject_Z z -> (rne q <= z)%Z.
Proof. intros H. rewrite <- (rne_inject z). apply rne_mono, H. Qed.

Lemma Qdiv_eq (a b c : Q) : 0 < c -> a == b * c -> a / c == b.
Proof. intros Hc E. rewrite E. field. lra. Qed.

Section Rounding.
Variable p : Z.
Hypothesis Hp : (1 <= p)%Z.

(** The scaled mantissa of a positive number lies in [2^(p-1), 2^p). *)
Lemma scaled_bounds (x : Q) :
  0 < x ->
  pow2 (p - 1) <= x / pow2 (binade x - (p - 1)) /\
  x / pow2 (binade x - (p - 1)) < pow2 p.
Proof.
  intros Hx. destruct (binade_spec x Hx) as [B1 B2].
  pose proof (pow2_pos (binade x - (p - 1))) as He.
  split.
  - apply Qle_shift_div_l; [exact He|].
    rewrite <- pow2_plus.
    replace (p - 1 + (binade x - (p - 1)))%Z with (binade x) by lia. exact B1.
  - apply Qlt_shift_div_r; [exact He|].
    rewrite <- pow2_plus.
    replace (p + (binade x - (p - 1)))%Z with (binade x + 1)%Z by lia. exact B2.
Qed.

Lemma mantissa_bounds (x : Q) :
  0 < x ->
  (2 ^ (p - 1) <= rne (x / pow2 (binade x - (p - 1))) <= 2 ^ p)%Z.
Proof.
  intros Hx. destruct (scaled_bounds x Hx) as [S1 S2]. split.
  - apply rne_ge. rewrite pow2_inject by lia. exact S1.
  - apply rne_le. rewrite pow2_inject by lia. apply Qlt_le_weak, S2.
Qed.

Lemma round_pos_bounds (x : Q) :
  0 < x ->
  pow2 (binade x) <= round_pos p x /\ round_pos p x <= pow2 (binade x + 1).
Proof.
  intros Hx. destruct (mantissa_bounds x Hx) as [M1 M2].
  unfold round_pos.
  pose proof (pow2_pos (binade x - (p - 1))) as He.
  split.
  - replace (binade x) with ((p - 1) + (binade x - (p - 1)))%Z at 1 by lia.
    rewrite pow2_plus. apply Qmult_le_compat_r; [|lra].
    rewrite <- (pow2_inject (p - 1)) by lia. rewrite <- Zle_Qle. exact M1.
  - replace (binade x + 1)%Z with (p + (binade x - (p - 1)))%Z by lia.
    rewrite pow2_plus. apply Qmult_le_compat_r; [|lra].
    rewrite <- (pow2_inject p) by lia. rewrite <- Zle_Qle. exact M2.
Qed.

Lemma round_pos_positive (x : Q) : 0 < x -> 0 < round_pos p x.
Proof.
  intros Hx. destruct (round_pos_bounds x Hx) as [B _].
  pose proof (pow2_pos (binade x)). lra.
Qed.

Lemma round_pos_comp (x y : Q) :
  x == y -> 0 < x -> round_pos p x == round_pos p y.
Proof.
  intros E Hx. unfold round_pos. rewrite <- (binade_comp x y E Hx).
  assert (Es : x / pow2 (binade x - (p - 1)) == y / pow2 (binade x - (p - 1)))
    by (apply Qdiv_comp; [exact E|reflexivity]).
  rewrite (rne_comp _ _ Es). reflexivity.
Qed.

Lemma round_pos_mono (x y : Q) :
  0 < x -> x <= y -> round_pos p x <= round_pos p y.
Proof.
  intros Hx Hxy. assert (Hy : 0 < y) by lra.
  pose proof (binade_mono x y Hx Hxy) as Hb.
  destruct (Z.eq_dec (binade x) (binade y)) as [E|NE].
  - unfold round_pos. rewrite <- E.
    pose proof (pow2_pos (binade x - (p - 1))) as He.
    apply Qmult_le_compat_r; [|lra].
    rewrite <- Zle_Qle. apply rne_mono.
    apply Qmult_le_compat_r; [exact Hxy|].
    apply Qlt_le_weak, Qinv_lt_0_compat, He.
  - destruct (round_pos_bounds x Hx) as [_ B1].
    destruct (round_pos_bounds y Hy) as [B2 _].
    apply Qle_trans with (pow2 (binade x + 1)); [exact B1|].
    apply Qle_trans with (pow2 (binade y)); [|exact B2].
    apply pow2_le. lia.
Qed.

Lemma round_pos_idem (x : Q) :
  0 < x -> round_pos p (round_pos p x) == round_pos p x.
Proof.
  intros Hx. pose proof (round_pos_positive x Hx) as Hy.
  destruct (mantissa_bounds x Hx) as [M1 M2].
  set (b := binade x) in *. set (e := (b - (p - 1))%Z) in *.
  set (m := rne (x / pow2 e)) in *.
  assert (Ey : round_pos p x == inject_Z m * pow2 e) by reflexivity.
  pose proof (pow2_pos e) as He.
  destruct (Z.eq_dec m (2 ^ p)%Z) as [Em|Nm].
  - assert (Ey' : round_pos p x == pow2 (b + 1)).
    { rewrite Ey, Em, pow2_inject by lia. rewrite <- pow2_plus.
      unfold e. replace (p + (b - (p - 1)))%Z with (b + 1)%Z by lia.
      reflexivity. }
    assert (Eb : binade (round_pos p x) = (b + 1)%Z).
    { apply binade_unique; [exact Hy|rewrite Ey'; lra|].
      rewrite Ey'. apply pow2_lt. lia. }
    unfold round_pos at 1. rewrite Eb.
    replace (b + 1 - (p - 1))%Z with (e + 1)%Z by (unfold e; lia).
    assert (Es : round_pos p x / pow2 (e + 1) == inject_Z (2 ^ (p - 1))).
    { rewrite Ey', pow2_inject by lia.
      apply Qdiv_eq.
      - apply pow2_pos.
      - rewrite <- pow2_plus. unfold e.
        replace (p - 1 + (b - (p - 1) + 1))%Z with (b + 1)%Z by lia.
        reflexivity. }
    rewrite (rne_comp _ _ Es), rne_inject, Ey'.
    rewrite pow2_inject by lia. rewrite <- pow2_plus. unfold e.
    replace (p - 1 + (b - (p - 1) + 1))%Z with (b + 1)%Z by lia.
    reflexivity.
  - assert (Hm : (m < 2 ^ p)%Z) by lia.
    assert (Eb : binade (round_pos p x) = b).
    { apply binade_unique; [exact Hy|apply round_pos_bounds, Hx|].
      rewrite Ey.
      replace (b + 1)%Z with (p + e)%Z by (unfold e; lia).
      rewrite pow2_plus. apply Qmult_lt_r; [exact He|].
      rewrite <- pow2_inject by lia. rewrite <- Zlt_Qlt. exact Hm. }
    unfold round_pos at 1. rewrite Eb. fold e.
    assert (Es : round_pos p x / pow2 e == inject_Z m).
    { rewrite Ey. field. lra. }
    rewrite (rne_comp _ _ Es), rne_inject. symmetry. exact Ey.
Qed.

Lemma round_comp (x y : Q) : x == y -> round_nearest p x == round_nearest p y.
Proof.
  intros E. unfold round_nearest.
  destruct x as [[|n|n] d], y as [[|n'|n'] d']; cbv beta iota delta [Qnum];
    try reflexivity; try (exfalso; unfold Qeq in E; simpl in E; lia).
  - rewrite !Qred_correct. apply round_pos_comp; [exact E|reflexivity].
  - rewrite !Qred_correct. apply Qopp_comp, round_pos_comp.
    + rewrite E. reflexivity.
    + reflexivity.
Qed.

Lemma round_0 : round_nearest p 0 == 0.
Proof. reflexivity. Qed.

Lemma round_of_pos (x : Q) : 0 < x -> round_nearest p x == round_pos p x.
Proof.
  intros Hx. apply Qnum_pos in Hx. unfold round_nearest.
  destruct (Qnum x); try lia. apply Qred_correct.
Qed.

Lemma round_of_neg (x : Q) : x < 0 -> round_nearest p x == - round_pos p (- x).
Proof.
  intros Hx. assert (Hn : (Qnum x < 0)%Z) by (unfold Qlt in Hx; simpl in Hx; lia).
  unfold round_nearest. destruct (Qnum x); try lia. apply Qred_correct.
Qed.

Lemma round_of_zero (x : Q) : x == 0 -> round_nearest p x == 0.
Proof. intros E. rewrite (round_comp _ _ E). reflexivity. Qed.

Lemma round_positive (x : Q) : 0 < x -> 0 < round_nearest p x.
Proof.
  intros Hx. rewrite round_of_pos by exact Hx. apply round_pos_positive, Hx.
Qed.

Lemma round_negative (x : Q) : x < 0 -> round_nearest p x < 0.
Proof.
  intros Hx. rewrite round_of_neg by exact Hx.
  assert (0 < round_pos p (- x)) by (apply round_pos_positive; lra). lra.
Qed.

Lemma round_mono (x y : Q) : x <= y -> round_nearest p x <= round_nearest p y.
Proof.
  intros Hxy.
  destruct (Q_dec x 0) as [[Hx|Hx]|Hx], (Q_dec y 0) as [[Hy|Hy]|Hy]; try lra.
  - rewrite (round_of_neg x), (round_of_neg y) by assumption.
    apply Qopp_le_compat. apply round_pos_mono; lra.
  - pose proof (round_negative x Hx). pose proof (round_positive y Hy). lra.
  - pose proof (round_negative x Hx). rewrite (round_of_zero y Hy). lra.
  - rewrite (round_of_pos x), (round_of_pos y) by assumption.
    apply round_pos_mono; assumption.
  - pose proof (round_positive y Hy). rewrite (round_of_zero x Hx). lra.
  - rewrite (round_of_zero x Hx), (round_of_zero y Hy). lra.
Qed.

Lemma round_idem (x : Q) : round_nearest p (round_nearest p x) == round_nearest p x.
Proof.
  destruct (Q_dec x 0) as [[Hx|Hx]|Hx].
  - assert (Hm : 0 < - x) by lra.
    pose proof (round_pos_positive (- x) Hm) as Hy.
    pose proof (round_of_neg x Hx) as E1.
    rewrite (round_comp _ _ E1).
    rewrite round_of_neg by lra.
    rewrite E1. apply Qopp_comp.
    rewrite (round_pos_comp (- - round_pos p (- x)) (round_pos p (- x)));
      [apply round_pos_idem, Hm | ring | lra].
  - pose proof (round_of_pos x Hx) as E1.
    rewrite (round_comp _ _ E1).
    rewrite round_of_pos by (apply round_pos_positive, Hx).
    rewrite E1. apply round_pos_idem, Hx.
  - rewrite (round_comp _ _ (round_of_zero x Hx)).
    rewrite (round_of_zero x Hx). reflexivity.
Qed.

Lemma round_1 : round_nearest p 1 == 1.
Proof.
  rewrite round_of_pos by reflexivity.
  assert (Eb : binade 1 = 0%Z).
  { apply binade_unique; [reflexivity|discriminate|reflexivity]. }
  unfold round_pos. rewrite Eb.
  assert (Es : 1 / pow2 (0 - (p - 1)) == inject_Z (2 ^ (p - 1))).
  { rewrite pow2_inject by lia.
    apply Qdiv_eq.
    - apply pow2_pos.
    - rewrite <- pow2_plus. replace (p - 1 + (0 - (p - 1)))%Z with 0%Z by lia.
      reflexivity. }
  rewrite (rne_comp _ _ Es), rne_inject, pow2_inject by lia.
  rewrite <- pow2_plus. replace (p - 1 + (0 - (p - 1)))%Z with 0%Z by lia.
  reflexivity.
Qed.

End Rounding.

End RoundingFacts.

Section R53Laws.
Local Open Scope Q_scope.

Lemma R53_fle (x y : R53) : (x <= y)%num <-> rd x <= rd y.
Proof. unfold fle; simpl. apply Qle_bool_iff. Qed.

Lemma R53_flt (x y : R53) : (x < y)%num <-> rd x < rd y.
Proof.
  unfold flt; simpl. rewrite negb_true_iff, <- not_true_iff_false, Qle_bool_iff.
  split; [apply Qnot_le_lt | apply Qlt_not_le].
Qed.

Lemma R53_feq (x y : R53) : (x == y)%num <-> rd x == rd y.
Proof. unfold feq; simpl. apply Qeq_bool_iff. Qed.

Lemma rd_round (q : Q) : rd (mkR53 (round_nearest 53 q)) == round_nearest 53 q.
Proof. apply round_idem. lia. Qed.

Lemma rd_op (f : Q -> Q -> Q) (x y : R53) :
  rd (R53_op f x y) == round_nearest 53 (f (rd x) (rd y)).
Proof. apply rd_round. Qed.

Lemma rd_fixed (x : R53) : round_nearest 53 (rd x) == rd x.
Proof. apply round_idem. lia. Qed.

Lemma rd_f0 : rd f0 == 0.
Proof. vm_compute. reflexivity. Qed.

Lemma rd_f1 : rd f1 == 1.
Proof. vm_compute. reflexivity. Qed.

Lemma rd_eps16 : 0 < rd eps16.
Proof. vm_compute. reflexivity. Qed.

Lemma round53_mono (x y : Q) : x <= y -> round_nearest 53 x <= round_nearest 53 y.
Proof. apply round_mono. lia. Qed.

Lemma round53_nonneg (x : Q) : 0 <= x -> 0 <= round_nearest 53 x.
Proof. intros Hx. apply (round53_mono 0 x Hx). Qed.

Lemma round53_pos (x : Q) : 0 < x -> 0 < round_nearest 53 x.
Proof. apply round_positive. lia. Qed.

Lemma round53_le_1 (x : Q) : x <= 1 -> round_nearest 53 x <= 1.
Proof.
  intros Hx. pose proof (round_1 53 ltac:(lia)) as E.
  pose proof (round53_mono x 1 Hx). lra.
Qed.

Lemma round53_below (m x : Q) :
  round_nearest 53 m == m -> x <= m -> round_nearest 53 x <= m.
Proof. intros Em Hx. pose proof (round53_mono x m Hx). lra. Qed.

Lemma round53_above (m x : Q) :
  round_nearest 53 m == m -> m <= x -> m <= round_nearest 53 x.
Proof. intros Em Hx. pose proof (round53_mono m x Hx). lra. Qed.

End R53Laws.

#[export] Instance NumLaws_R53 : NumLaws R53.
Proof.
  split; intros *;
    rewrite ?R53_fle, ?R53_flt, ?R53_feq;
    change (@fsub R53 _) with (R53_op Qminus);
    change (@fadd R53 _) with (R53_op Qplus);
    change (@fmul R53 _) with (R53_op Qmult);
    change (@fdiv R53 _) with (R53_op Qdiv);
    rewrite ?rd_op, ?rd_f0, ?rd_f1.
  - lra.
  - lra.
  - lra.
  - reflexivity.
  - apply eq_true_iff_eq. simpl.
    rewrite andb_true_iff, Qeq_bool_iff, !Qle_bool_iff. lra.
  - intros Hx. apply round53_mono. lra.
  - intros Hx. apply round_of_zero. rewrite Hx. ring.
  - intros Hx. apply round53_pos. lra.
  - apply round53_above; [apply rd_fixed|]. pose proof rd_eps16. lra.
  - intros Hd. apply round53_pos. pose proof rd_eps16. lra.
  - intros Hn Hd. apply round53_nonneg. apply Qle_shift_div_l; lra.
  - intros Hn Hd. apply round53_le_1. apply Qle_shift_div_r; lra.
  - intros Hn Hd. apply round_of_zero.
    unfold Qdiv. rewrite Hn. lra.
  - intros Hn Hd. pose proof (round_1 53 ltac:(lia)) as E1.
    rewrite <- E1. apply round_comp. rewrite Hn. field. lra.
  - intros Hx Hy. apply round53_mono. lra.
  - intros He. apply round53_above; [apply rd_fixed|]. lra.
  - intros He. apply round53_below; [apply rd_fixed|]. lra.
  - intros Hx Hy. apply round53_nonneg. apply Qmult_le_0_compat; assumption.
  - intros Hc Hxy. apply round53_mono. apply Qmult_le_compat_r; assumption.
  - intros Hz.
    change (0 <= round_nearest 53 (round_nearest 53 (inject_Z z)))%Q.
    apply round53_nonneg, round53_nonneg.
    change 0%Q with (inject_Z 0). rewrite <- Zle_Qle. exact Hz.
Qed.

(** ** The monads and the array primitives *)

Lemma rbind_Ok {X Y} (m : result X) (k : X -> result Y) (y : Y) :
  (x ← m; k x) = Ok y <-> exists x, m = Ok x /\ k x = Ok y.
Proof.
  unfold mbind, result_bind, rbind. destruct m as [x|e]; split.
  - intros Hk. exists x. auto.
  - intros (x' & [= <-] & Hk). exact Hk.
  - discriminate.
  - intros (x' & [=] & _).
Qed.

Lemma pbind_Ok {X Y} (m : py X) (k : X -> py Y) (g g' : rng) (y : Y) :
  (x ← m; k x) g = Ok (y, g') <->
  exists x g1, m g = Ok (x, g1) /\ k x g1 = Ok (y, g').
Proof.
  unfold mbind, py_bind, pbind. destruct (m g) as [[x g1]|e]; split.
  - intros Hk. exists x, g1. auto.
  - intros (x' & g1' & [= <- <-] & Hk). exact Hk.
  - discriminate.
  - intros (x' & g1' & [=] & _).
Qed.

Lemma lift_Ok {X} (m : result X) (g g' : rng) (x : X) :
  lift m g = Ok (x, g') <-> m = Ok x /\ g' = g.
Proof.
  unfold lift. destruct m as [x'|e]; split.
  - intros [= <- <-]. auto.
  - intros [[= <-] ->]. reflexivity.
  - discriminate.
  - intros [[=] _].
Qed.

Lemma mret_py_Ok {X} (x y : X) (g g' : rng) :
  (mret x : py X) g = Ok (y, g') <-> y = x /\ g' = g.
Proof.
  unfold mret, py_ret, pret. split.
  - intros [= <- <-]. auto.
  - intros [-> ->]. reflexivity.
Qed.

(** Inversion of a successful computation, one bind at a time. *)
Ltac inv_ok :=
  repeat match goal with
    | H : @mbind result _ _ _ _ _ = Ok _ |- _ =>
        apply rbind_Ok in H; destruct H as (? & ? & H)
    | H : @mbind py _ _ _ _ _ _ = Ok _ |- _ =>
        apply pbind_Ok in H; destruct H as (? & ? & ? & H)
    | H : lift _ _ = Ok _ |- _ =>
        apply lift_Ok in H; destruct H as [H ?]; subst
    | H : @mret py _ _ _ _ = Ok _ |- _ =>
        apply mret_py_Ok in H; destruct H as [? ?]; subst
    | H : Ok _ = Ok _ |- _ => injection H as H; subst
    | H : Raise _ = Ok _ |- _ => discriminate H
    end.

Lemma getitem_Ok {X} (a : list X) (i : nat) (x : X) :
  getitem a i = Ok x <-> a !! i = Some x.
Proof.
  unfold getitem. destruct (a !! i); split; intros [=]; subst; reflexivity.
Qed.

Lemma getitem_lt {X} (a : list X) (i : nat) :
  i < length a -> exists x, getitem a i = Ok x /\ a !! i = Some x.
Proof.
  intros Hi. destruct (lookup_lt_is_Some_2 a i Hi) as [x Hx].
  exists x. split; [apply getitem_Ok|]; exact Hx.
Qed.

Lemma dict_get_Ok {V} (d : gmap nat V) (k : nat) (v : V) :
  dict_get d k = Ok v <-> d !! k = Some v.
Proof.
  unfold dict_get. destruct (d !! k); split; intros [=]; subst; reflexivity.
Qed.

Lemma rmapM_Ok {X Y} (f : X -> result Y) (xs : list X) (ys : list Y) :
  rmapM f xs = Ok ys <-> Forall2 (fun x y => f x = Ok y) xs ys.
Proof.
  revert ys. induction xs as [|x xs IH]; intros ys; simpl.
  - split; [intros [= <-]; constructor | intros Hn; inversion Hn; reflexivity].
  - rewrite rbind_Ok. split.
    + intros (y & Hy & Hr). apply rbind_Ok in Hr as (ys' & Hys & [= <-]).
      constructor; [exact Hy | apply IH, Hys].
    + intros Hn. inversion Hn as [|? y ? ys' Hy Hys]; subst.
      exists y. split; [exact Hy|]. apply rbind_Ok. exists ys'.
      split; [apply IH, Hys | reflexivity].
Qed.

Lemma rmapM_total {X Y} (f : X -> result Y) (xs : list X) :
  Forall (fun x => exists y, f x = Ok y) xs -> exists ys, rmapM f xs = Ok ys.
Proof.
  induction 1 as [|x xs [y Hy] _ [ys Hys]]; simpl.
  - eexists; reflexivity.
  - exists (y :: ys). rewrite Hy; simpl. rewrite Hys; reflexivity.
Qed.

Lemma take_idx_Ok {X} (a : list X) (idx : list nat) (out : list X) :
  take_idx a idx = Ok out <-> Forall2 (fun i x => a !! i = Some x) idx out.
Proof.
  unfold take_idx. rewrite rmapM_Ok.
  split; intros Hall; (eapply Forall2_impl; [exact Hall|]);
    intros i x; apply getitem_Ok.
Qed.

Lemma column_Ok {A} (ar : matrix A) (c : nat) (col : list A) :
  column ar c = Ok col ->
  c < ncols ar /\ Forall2 (fun r x => r !! c = Some x) ar col.
Proof.
  unfold column. case_decide as Hc; [|discriminate].
  rewrite rmapM_Ok. intros Hall. split; [exact Hc|].
  eapply Forall2_impl; [exact Hall|]. intros r x. apply getitem_Ok.
Qed.

Lemma column_total {A} (ar : matrix A) (c : nat) :
  rect ar -> c < ncols ar -> exists col, column ar c = Ok col.
Proof.
  intros Hr Hc. unfold column. rewrite decide_True by exact Hc.
  apply rmapM_total. eapply Forall_impl; [exact Hr|]. intros r Hlen.
  simpl in Hlen. destruct (getitem_lt r c) as (x & Hx & _); [lia|]. exists x. exact Hx.
Qed.

(** ** Order facts that follow from the laws *)

Section Order.
Context {A : Type} `{NumLaws A}.
Local Open Scope num_scope.

Lemma flt_nle (x y : A) : x < y <-> ~ y <= x.
Proof.
  unfold flt, fle. rewrite fltb_fleb, negb_true_iff, not_true_iff_false.
  reflexivity.
Qed.

Lemma fltb_false (x y : A) : (x <? y) = false <-> y <= x.
Proof.
  unfold fle. rewrite fltb_fleb, negb_false_iff. reflexivity.
Qed.

Lemma flt_fle (x y : A) : x < y -> x <= y.
Proof.
  rewrite flt_nle. intros Hn. destruct (fle_total x y); [assumption|tauto].
Qed.

Lemma feq_fle (x y : A) : x == y <-> x <= y /\ y <= x.
Proof.
  unfold feq, fle. rewrite feqb_fleb, andb_true_iff. reflexivity.
Qed.

Lemma feq_refl (x : A) : x == x.
Proof. apply feq_fle. split; apply fle_refl. Qed.




Lemma fsub_nonneg (x y : A) : y <= x -> f0 <= x - y.
Proof.
  intros Hyx. apply fle_trans with (y - y).
  - apply feq_fle, fsub_diag, feq_refl.
  - apply fsub_mono, Hyx.
Qed.


Lemma min2_le_l (x y : A) : min2 x y <= x.
Proof.
  unfold min2. destruct (y <? x) eqn:E.
  - apply flt_fle, E.
  - apply fle_refl.
Qed.

Lemma min2_le_r (x y : A) : min2 x y <= y.
Proof.
  unfold min2. destruct (y <? x) eqn:E.
  - apply fle_refl.
  - apply fltb_false, E.
Qed.

Lemma max2_ge_l (x y : A) : x <= max2 x y.
Proof.
  unfold max2. destruct (x <? y) eqn:E.
  - apply flt_fle, E.
  - apply fle_refl.
Qed.

Lemma max2_ge_r (x y : A) : y <= max2 x y.
Proof.
  unfold max2. destruct (x <? y) eqn:E.
  - apply fle_refl.
  - apply fltb_false, E.
Qed.

Lemma foldl_min2 (a : list A) (x : A) :
  foldl min2 x a <= x /\ Forall (fun y => foldl min2 x a <= y) a /\
  (foldl min2 x a = x \/ foldl min2 x a ∈ a).
Proof.
  revert x. induction a as [|y a IH]; intros x; simpl.
  - split; [apply fle_refl|]. split; [constructor|left; reflexivity].
  - destruct (IH (min2 x y)) as (Hle & Hall & Hin). split; [|split].
    + eapply fle_trans; [exact Hle | apply min2_le_l].
    + constructor; [|exact Hall].
      eapply fle_trans; [exact Hle | apply min2_le_r].
    + destruct Hin as [Heq | Hin].
      * rewrite Heq. unfold min2. destruct (y <? x); [right; left | left];
          reflexivity.
      * right. right. exact Hin.
Qed.

Lemma foldl_max2 (a : list A) (x : A) :
  x <= foldl max2 x a /\ Forall (fun y => y <= foldl max2 x a) a /\
  (foldl max2 x a = x \/ foldl max2 x a ∈ a).
Proof.
  revert x. induction a as [|y a IH]; intros x; simpl.
  - split; [apply fle_refl|]. split; [constructor|left; reflexivity].
  - destruct (IH (max2 x y)) as (Hle & Hall & Hin). split; [|split].
    + eapply fle_trans; [apply max2_ge_l | exact Hle].
    + constructor; [|exact Hall].
      eapply fle_trans; [apply max2_ge_r | exact Hle].
    + destruct Hin as [Heq | Hin].
      * rewrite Heq. unfold max2. destruct (x <? y); [right; left | left];
          reflexivity.
      * right. right. exact Hin.
Qed.

Lemma np_min_spec (a : list A) (m : A) :
  np_min a = Ok m -> Forall (fun y => m <= y) a /\ m ∈ a.
Proof.
  destruct a as [|x a]; [discriminate|]. intros [= <-].
  destruct (foldl_min2 a x) as (Hle & Hall & Hin). split.
  - constructor; assumption.
  - destruct Hin as [-> | Hin]; [left | right; exact Hin].
Qed.

Lemma np_max_spec (a : list A) (m : A) :
  np_max a = Ok m -> Forall (fun y => y <= m) a /\ m ∈ a.
Proof.
  destruct a as [|x a]; [discriminate|]. intros [= <-].
  destruct (foldl_max2 a x) as (Hle & Hall & Hin). split.
  - constructor; assumption.
  - destruct Hin as [-> | Hin]; [left | right; exact Hin].
Qed.


Lemma np_min_le_max (a : list A) (mn mx : A) :
  np_min a = Ok mn -> np_max a = Ok mx -> mn <= mx.
Proof.
  intros Hmn Hmx. apply np_min_spec in Hmn as [Hall _].
  apply np_max_spec in Hmx as [_ Hin].
  rewrite Forall_forall in Hall. apply Hall, Hin.
Qed.

End Order.

(** ** Rescaling of the training data *)

Lemma axis0_Ok {A Y} `{Num A} (f : list A -> result Y) (ar : matrix A)
      (v : list Y) :
  axis0 f ar = Ok v ->
  ar <> [] /\
  Forall2 (fun c y => exists col, column ar c = Ok col /\ f col = Ok y)
          (seq 0 (ncols ar)) v.
Proof.
  unfold axis0. destruct ar as [|r ar]; [discriminate|].
  rewrite rmapM_Ok. intros Hall. split; [discriminate|].
  eapply Forall2_impl; [exact Hall|]. intros c y Hy. simpl in Hy.
  apply rbind_Ok in Hy as (col & Hcol & Hf). exists col. auto.
Qed.

Lemma axis0_lookup {A Y} `{Num A} (f : list A -> result Y) (ar : matrix A)
      (v : list Y) (c : nat) (y : Y) :
  axis0 f ar = Ok v -> v !! c = Some y ->
  exists col, column ar c = Ok col /\ f col = Ok y.
Proof.
  intros Hv Hy. apply axis0_Ok in Hv as [_ Hall].
  destruct (Forall2_lookup_r _ _ _ _ _ Hall Hy) as (c' & Hc' & Hcol).
  apply lookup_seq in Hc' as [-> _]. exact Hcol.
Qed.

Lemma axis0_length {A Y} `{Num A} (f : list A -> result Y) (ar : matrix A)
      (v : list Y) :
  axis0 f ar = Ok v -> length v = ncols ar.
Proof.
  intros Hv. apply axis0_Ok in Hv as [_ Hall].
  apply Forall2_length in Hall. rewrite length_seq in Hall. auto.
Qed.

Lemma axis0_total {A Y} `{Num A} (f : list A -> result Y) (ar : matrix A) :
  ar <> [] -> rect ar -> (forall col, col <> [] -> exists y, f col = Ok y) ->
  exists v, axis0 f ar = Ok v.
Proof.
  intros Hne Hrect Hf. unfold axis0. destruct ar as [|r ar]; [done|].
  apply rmapM_total. apply Forall_forall. intros c Hc.
  apply elem_of_seq in Hc as [_ Hc].
  destruct (column_total (r :: ar) c Hrect Hc) as [col Hcol].
  destruct (Hf col) as [y Hy].
  - apply column_Ok in Hcol as [_ Hall]. apply Forall2_length in Hall.
    destruct col; [discriminate|done].
  - exists y. simpl. rewrite Hcol. exact Hy.
Qed.


Section Rescale.
Context {A GP : Type} `{NumLaws A}.
Local Open Scope num_scope.




End Rescale.


Lemma np_min_total {A} `{Num A} (a : list A) :
  a <> [] -> exists m, np_min a = Ok m.
Proof. destruct a; [done|]. intros _. eexists; reflexivity. Qed.

Lemma np_max_total {A} `{Num A} (a : list A) :
  a <> [] -> exists m, np_max a = Ok m.
Proof. destruct a; [done|]. intros _. eexists; reflexivity. Qed.





Section RescaleArrays.
Context {A : Type} `{NumLaws A}.
Local Open Scope num_scope.




End RescaleArrays.

(** In exact arithmetic the rescaled inputs stay below 1. *)
Lemma rescale_entry_below_1_exact (lo hi x : Q) :
  (lo <= x)%Q -> (x <= hi)%Q ->
  ((x - lo) / (hi - lo + eps16) < 1)%Q.
Proof.
  intros Hlo Hhi. simpl.
  apply Qlt_shift_div_r; lra.
Qed.


(** In arithmetic rounded to 53 bits the same happens, with the same
    numbers as in binary64. *)
Lemma rescale_inputs_r53_reaches_1 :
  exists mn mx sc lo hi row y,
    axis0 np_min rates_r53 = Ok mn /\ axis0 np_max rates_r53 = Ok mx /\
    rescale_inputs rates_r53 = Ok sc /\
    mn !! 1 = Some lo /\ mx !! 1 = Some hi /\
    (hi - lo + eps16 == hi - lo)%num /\
    sc !! 1 = Some row /\ row !! 1 = Some y /\ (y == f1)%num /\
    (f1 <= y)%num.
Proof.
  eexists _, _, _, _, _, _, _.
  repeat (split; [vm_compute; reflexivity|]). vm_compute. reflexivity.
Qed.

Lemma rescale_inputs_r53_is_binary64 :
  lmap (lmap binary64_of) rates_r53 = rates_binary64 /\
  exists sc sc' : _,
    rescale_inputs rates_r53 = Ok sc /\
    rescale_inputs rates_binary64 = Ok sc' /\
    lmap (lmap binary64_of) sc = sc'.
Proof.
  split; [vm_compute; reflexivity|].
  eexists _, _. split; [vm_compute; reflexivity|].
  split; vm_compute; reflexivity.
Qed.



(** ** Shapes of the input arrays *)

Lemma pfold_invariant {X S} (P : S -> Prop) (body : S -> X -> py S)
      (xs : list X) :
  (forall s x g s' g', P s -> body s x g = Ok (s', g') -> P s') ->
  forall s g s' g', P s -> pfold body xs s g = Ok (s', g') -> P s'.
Proof.
  intros Hbody. induction xs as [|x xs IH]; intros s g s' g' Hs Hrun; simpl in Hrun.
  - apply mret_py_Ok in Hrun as [-> _]. exact Hs.
  - apply pbind_Ok in Hrun as (s1 & g1 & Hstep & Hrest).
    eapply IH; [|exact Hrest]. eapply Hbody; eassumption.
Qed.

Lemma rfold_invariant {X S} (P : S -> Prop) (body : S -> X -> result S)
      (xs : list X) :
  (forall s x s', x ∈ xs -> P s -> body s x = Ok s' -> P s') ->
  forall s s', P s -> rfold body xs s = Ok s' -> P s'.
Proof.
  induction xs as [|x xs IH]; intros Hbody s s' Hs Hrun; simpl in Hrun.
  - injection Hrun as <-. exact Hs.
  - apply rbind_Ok in Hrun as (s1 & Hstep & Hrest).
    eapply IH; [|eapply Hbody; [left|exact Hs|exact Hstep]|exact Hrest].
    intros s2 y s3 Hy. apply Hbody. right. exact Hy.
Qed.

Lemma columns_shape {A} (ar : matrix A) (cs : list nat) (m : matrix A) :
  columns ar cs = Ok m ->
  length m = length ar /\ Forall (fun r => length r = length cs) m.
Proof.
  unfold columns. rewrite rmapM_Ok. intros Hall. split.
  - symmetry. eapply Forall2_length, Hall.
  - apply Forall_forall. intros r Hr.
    apply list_elem_of_lookup in Hr as [k Hk].
    destruct (Forall2_lookup_r _ _ _ _ _ Hall Hk) as (r0 & _ & Hr0).
    apply rmapM_Ok, Forall2_length in Hr0. auto.
Qed.

Lemma take_idx_shape {X} (a : list X) (idx : list nat) (out : list X) :
  take_idx a idx = Ok out ->
  length out = length idx /\ Forall (fun x => x ∈ a) out /\
  Forall (fun i => i < length a) idx.
Proof.
  rewrite take_idx_Ok. intros Hall. split; [|split].
  - symmetry. eapply Forall2_length, Hall.
  - apply Forall_forall. intros x Hx.
    apply list_elem_of_lookup in Hx as [k Hk].
    destruct (Forall2_lookup_r _ _ _ _ _ Hall Hk) as (i & _ & Hi).
    eapply list_elem_of_lookup_2, Hi.
  - apply Forall_forall. intros i Hi.
    apply list_elem_of_lookup in Hi as [k Hk].
    destruct (Forall2_lookup_l _ _ _ _ _ Hall Hk) as (x & _ & Hx).
    eapply lookup_lt_Some, Hx.
Qed.

Lemma zip_with_cons_shape {A} (v : list A) (m : matrix A) (n : nat) :
  Forall (fun r => length r = n) m ->
  Forall (fun r => length r = S n) (zip_with cons v m).
Proof.
  intros Hm. revert v. induction Hm as [|r m Hr _ IH]; intros [|x v]; simpl;
    try constructor; [simpl; congruence | apply IH].
Qed.

Lemma fit_rows_Ok {X} (rows : nat) (xs out : list X) :
  fit_rows rows xs = Ok out ->
  length out = rows /\ Forall (fun x => x ∈ xs) out.
Proof.
  unfold fit_rows. case_decide as Hlen.
  - intros [= <-]. split; [exact Hlen|].
    apply Forall_forall. auto.
  - destruct xs as [|x [|y xs]]; try discriminate. intros [= <-].
    split; [apply length_replicate|].
    apply Forall_replicate. left.
Qed.

Lemma train_inputs_shape {A} `{Num A} (g : globals A) (i j : nat)
      (rates_ : matrix A) :
  train_inputs g i j = Ok rates_ ->
  exists key cols,
    port_idx g !! j = Some key /\ irs_map g !! key = Some cols /\
    Forall (fun r => length r = dim_of cols i) rates_.
Proof.
  unfold train_inputs, dim_of. intros Hrun.
  apply rbind_Ok in Hrun as (key & Hkey & Hrun).
  apply rbind_Ok in Hrun as (cols & Hcols & Hrun).
  exists key, cols. apply getitem_Ok in Hkey. apply dict_get_Ok in Hcols.
  split; [exact Hkey|]. split; [exact Hcols|].
  case_decide as Hi.
  - apply rbind_Ok in Hrun as (prev & _ & Hrun).
    apply rbind_Ok in Hrun as (c0 & _ & Hrun).
    apply rbind_Ok in Hrun as (v & _ & Hrun).
    apply rbind_Ok in Hrun as (v' & _ & Hrun).
    apply rbind_Ok in Hrun as (cur & _ & Hrun).
    apply rbind_Ok in Hrun as (m & Hm & Hrun).
    apply rbind_Ok in Hrun as (m' & Hm' & Hrun).
    injection Hrun as <-.
    apply columns_shape in Hm as [_ Hm].
    apply fit_rows_Ok in Hm' as [_ Hin].
    apply zip_with_cons_shape.
    rewrite Forall_forall in Hm, Hin |- *. auto.
  - inv_ok. apply columns_shape in Hrun as [_ Hm]. exact Hm.
Qed.


Lemma ncols_of_shape {A} (ar : matrix A) (d : nat) :
  ar <> [] -> Forall (fun r => length r = d) ar -> ncols ar = d.
Proof.
  destruct ar as [|r ar]; [done|]. intros _ Hall.
  inversion Hall; subst. reflexivity.
Qed.

(** ** The bounds stored by the training loop *)

Lemma setitem_Ok {X} (a : list X) (i : nat) (v : X) (a' : list X) :
  setitem a i v = Ok a' <-> i < length a /\ a' = <[i := v]> a.
Proof.
  unfold setitem. case_decide; split.
  - intros [= <-]. auto.
  - intros [_ ->]. reflexivity.
  - discriminate.
  - intros [? _]. lia.
Qed.

Lemma column_subarray {A} (ar sub : matrix A) (k : nat) (cr cs : list A) :
  Forall (fun r => r ∈ ar) sub ->
  column ar k = Ok cr -> column sub k = Ok cs ->
  Forall (fun x => x ∈ cr) cs.
Proof.
  intros Hsub Hcr Hcs. apply column_Ok in Hcr as [_ Hr].
  apply column_Ok in Hcs as [_ Hs]. apply Forall_forall. intros x Hx.
  apply list_elem_of_lookup in Hx as [p Hp].
  destruct (Forall2_lookup_r _ _ _ _ _ Hs Hp) as (row & Hrow & Hk).
  apply list_elem_of_lookup_2 in Hrow. rewrite Forall_forall in Hsub.
  apply Hsub, list_elem_of_lookup in Hrow as [q Hq].
  destruct (Forall2_lookup_l _ _ _ _ _ Hr Hq) as (x' & Hx' & Hk').
  assert (x' = x) by congruence. subst.
  eapply list_elem_of_lookup_2, Hx'.
Qed.

Section TrainingBounds.
Context {A GP : Type} `{NumLaws A} (lib : Lib A GP).
Local Open Scope num_scope.

Lemma subarray_bounds (rates_ sub : matrix A) (mn mx mnx mxx : list A)
      (d : nat) :
  Forall (fun r => length r = d) rates_ ->
  Forall (fun r => r ∈ rates_) sub ->
  axis0 np_min sub = Ok mn -> axis0 np_max sub = Ok mx ->
  axis0 np_min rates_ = Ok mnx -> axis0 np_max rates_ = Ok mxx ->
  bounds_nested mn mx mnx mxx d.
Proof.
  intros Hshape Hsub Hmn Hmx Hmnx Hmxx.
  assert (Hne : sub <> []) by (apply axis0_Ok in Hmn; tauto).
  assert (Hne' : rates_ <> []) by (apply axis0_Ok in Hmnx; tauto).
  assert (Hshape' : Forall (fun r => length r = d) sub).
  { rewrite Forall_forall in Hshape, Hsub |- *. auto. }
  pose proof (ncols_of_shape _ _ Hne Hshape') as Hd.
  pose proof (ncols_of_shape _ _ Hne' Hshape) as Hd'.
  unfold bounds_nested.
  rewrite (axis0_length _ _ _ Hmn), (axis0_length _ _ _ Hmx),
    (axis0_length _ _ _ Hmnx), (axis0_length _ _ _ Hmxx).
  do 4 (split; [assumption|]).
  intros k lo hi lo' hi' Hlo Hhi Hlo' Hhi'.
  destruct (axis0_lookup _ _ _ _ _ Hmn Hlo) as (cs & Hcs & Hmin).
  destruct (axis0_lookup _ _ _ _ _ Hmx Hhi) as (cs' & Hcs' & Hmax).
  destruct (axis0_lookup _ _ _ _ _ Hmnx Hlo') as (cr & Hcr & Hmin').
  destruct (axis0_lookup _ _ _ _ _ Hmxx Hhi') as (cr' & Hcr' & Hmax').
  assert (cs' = cs) by congruence. assert (cr' = cr) by congruence. subst.
  pose proof (column_subarray _ _ _ _ _ Hsub Hcr Hcs) as Hin.
  rewrite Forall_forall in Hin.
  pose proof (np_min_le_max _ _ _ Hmin Hmax) as Hmid.
  apply np_min_spec in Hmin as [_ Hlo_in].
  apply np_max_spec in Hmax as [_ Hhi_in].
  apply np_min_spec in Hmin' as [Hall _].
  apply np_max_spec in Hmax' as [Hall' _].
  rewrite Forall_forall in Hall, Hall'. auto.
Qed.

Lemma empty_portfolio_lookup (port_idx : list nat) (nt key : nat)
      (e : pf_entry A GP) :
  empty_portfolio port_idx nt !! key = Some e -> e = empty_entry nt.
Proof.
  unfold empty_portfolio.
  assert (Hgen : forall pf0 : gmap nat (pf_entry A GP),
             (forall k e0, pf0 !! k = Some e0 -> e0 = empty_entry nt) ->
             foldl (fun pf idx => <[idx := empty_entry nt]> pf) pf0 port_idx
               !! key = Some e -> e = empty_entry nt).
  { induction port_idx as [|p ps IH]; intros pf0 Hpf0; simpl.
    - apply Hpf0.
    - apply IH. intros k e0. rewrite lookup_insert.
      case_decide; [congruence | apply Hpf0]. }
  apply Hgen. intros k e0. rewrite lookup_empty. discriminate.
Qed.

Lemma pf_inv_empty (g : globals A) (port_idx : list nat) (nt : nat) :
  pf_inv (GP := GP) g (empty_portfolio port_idx nt).
Proof.
  intros key e He. apply empty_portfolio_lookup in He as ->.
  intros i mn Hi. simpl in Hi. apply lookup_replicate in Hi as [? _].
  discriminate.
Qed.

Lemma train_step_inv (g : globals A) (pf pf' : gmap nat (pf_entry A GP))
      (ij : nat * nat) (r r' : rng) :
  pf_inv g pf -> train_step lib g pf ij r = Ok (pf', r') -> pf_inv g pf'.
Proof.
  intros Hinv Hrun. destruct ij as [i j]. unfold train_step in Hrun.
  inv_ok.
  repeat match goal with
         | H : setitem _ _ _ = Ok _ |- _ =>
             apply setitem_Ok in H as [? ->]
         | H : getitem _ _ = Ok _ |- _ => apply getitem_Ok in H
         | H : dict_get _ _ = Ok _ |- _ => apply dict_get_Ok in H
         end.
  match goal with
  | H : train_inputs _ _ _ = Ok _ |- _ =>
      apply train_inputs_shape in H as (key & cols & Hkey & Hcols & Hshape)
  end.
  match goal with
  | H : port_idx g !! j = Some ?k |- _ =>
      assert (k = key) by congruence; subst k
  end.
  match goal with
  | H : take_idx ?a _ = Ok ?s, H1 : axis0 np_min ?s = Ok _ |- _ =>
      pose proof (take_idx_shape _ _ _ H) as (_ & Hsub & _)
  end.
  intros key' e'. rewrite lookup_insert. case_decide as Hk.
  - subst key'. intros [= <-]. intros i' mn'. simpl.
    destruct (decide (i' = i)) as [->|Hi].
    + rewrite !list_lookup_insert_eq by assumption. intros [= <-].
      do 3 eexists. exists cols. do 4 (split; [reflexivity || assumption|]).
      eapply subarray_bounds; eassumption.
    + rewrite !list_lookup_insert_ne by congruence.
      match goal with He : pf !! key = Some _ |- _ => apply (Hinv _ _ He) end.
  - apply Hinv.
Qed.

Lemma train_inv (g : globals A) (pf : gmap nat (pf_entry A GP)) (r r' : rng) :
  train lib g r = Ok (pf, r') -> pf_inv g pf.
Proof.
  unfold train. apply pfold_invariant.
  - intros s x g0 s' g' Hs Hstep. eapply train_step_inv; eassumption.
  - apply pf_inv_empty.
Qed.

End TrainingBounds.

(** ** Clipping and rescaling of the test inputs *)

Section Clipping.
Context {A GP : Type} `{NumLaws A} (lib : Lib A GP).
Local Open Scope num_scope.

Lemma clip_bounds (lo hi x : A) :
  lo <= hi -> lo <= clip lo hi x /\ clip lo hi x <= hi.
Proof.
  intros Hlh. unfold clip.
  destruct (hi <? x) eqn:Ea; [split; [exact Hlh | apply fle_refl]|].
  apply fltb_false in Ea.
  destruct (x <? lo) eqn:Eb; [split; [apply fle_refl | exact Hlh]|].
  apply fltb_false in Eb. auto.
Qed.

Lemma clip_column_Ok (e : pf_entry A GP) (i k : nat) (test test' : matrix A) :
  clip_column e i test k = Ok test' ->
  exists mn mx lo hi,
    pf_min e !! i = Some (Some mn) /\ pf_max e !! i = Some (Some mx) /\
    mn !! k = Some lo /\ mx !! k = Some hi /\
    test' = (fun row : list A =>
               match row !! k with
               | Some x => <[k := clip lo hi x]> row
               | None => row
               end) <$> test.
Proof.
  unfold clip_column, getslot. intros Hrun. inv_ok.
  repeat match goal with
         | H : getitem _ _ = Ok _ |- _ => apply getitem_Ok in H
         | H : match ?s with Some _ => _ | None => _ end = Ok _ |- _ =>
             destruct s eqn:?; [injection H as ->|discriminate H]
         end.
  do 4 eexists. repeat (split; [eassumption|]). reflexivity.
Qed.

Lemma clip_column_shape (e : pf_entry A GP) (i k d : nat)
      (test test' : matrix A) :
  clip_column e i test k = Ok test' ->
  Forall (fun r => length r = d) test -> Forall (fun r => length r = d) test'.
Proof.
  intros Hrun Hshape.
  apply clip_column_Ok in Hrun as (mn & mx & lo & hi & _ & _ & _ & _ & ->).
  apply Forall_fmap. eapply Forall_impl; [exact Hshape|].
  intros row Hlen. simpl. destruct (row !! k); [|exact Hlen].
  rewrite length_insert. exact Hlen.
Qed.

Lemma clip_column_within (e : pf_entry A GP) (i k k' : nat)
      (mn mx : list A) (test test' : matrix A) :
  pf_min e !! i = Some (Some mn) -> pf_max e !! i = Some (Some mx) ->
  (forall lo hi, mn !! k = Some lo -> mx !! k = Some hi -> lo <= hi) ->
  clip_column e i test k = Ok test' ->
  (k' = k \/ column_within mn mx k' test) -> column_within mn mx k' test'.
Proof.
  intros Hmn Hmx Hord Hrun Hpre.
  apply clip_column_Ok in Hrun
    as (mn' & mx' & lo & hi & Hmn' & Hmx' & Hlo & Hhi & ->).
  assert (mn' = mn) by congruence. assert (mx' = mx) by congruence. subst.
  intros row x Hrow Hx. apply list_elem_of_fmap in Hrow as (row0 & -> & Hrow0).
  destruct (row0 !! k) as [x0|] eqn:Ek.
  - destruct (decide (k' = k)) as [->|Hne].
    + exists lo, hi. split; [exact Hlo|]. split; [exact Hhi|].
      rewrite list_lookup_insert_eq in Hx
        by (eapply lookup_lt_Some; eassumption).
      injection Hx as <-. apply clip_bounds, (Hord _ _ Hlo Hhi).
    + rewrite list_lookup_insert_ne in Hx by congruence.
      destruct Hpre as [?|Hpre]; [congruence|]. eapply Hpre; eassumption.
  - destruct Hpre as [->|Hpre]; [congruence|]. eapply Hpre; eassumption.
Qed.

Lemma clip_loop_within (e : pf_entry A GP) (i : nat) (mn mx : list A)
      (ks : list nat) (test test' : matrix A) (k : nat) :
  pf_min e !! i = Some (Some mn) -> pf_max e !! i = Some (Some mx) ->
  (forall k lo hi, mn !! k = Some lo -> mx !! k = Some hi -> lo <= hi) ->
  rfold (clip_column e i) ks test = Ok test' ->
  (k ∈ ks \/ column_within mn mx k test) -> column_within mn mx k test'.
Proof.
  intros Hmn Hmx Hord. revert test.
  induction ks as [|k0 ks IH]; intros test Hrun Hpre; simpl in Hrun.
  - injection Hrun as <-. destruct Hpre as [Hin|Hpre]; [|exact Hpre].
    apply elem_of_nil in Hin. destruct Hin.
  - apply rbind_Ok in Hrun as (test1 & Hstep & Hrest).
    apply (IH test1 Hrest).
    destruct (decide (k = k0)) as [->|Hne].
    + right. eapply clip_column_within; eauto.
    + destruct Hpre as [Hin|Hpre].
      * left. apply elem_of_cons in Hin as [?|Hin]; [congruence|exact Hin].
      * right. eapply clip_column_within; eauto.
Qed.

Lemma clip_loop_shape (e : pf_entry A GP) (i d : nat) (ks : list nat)
      (test test' : matrix A) :
  rfold (clip_column e i) ks test = Ok test' ->
  Forall (fun r => length r = d) test -> Forall (fun r => length r = d) test'.
Proof.
  intros Hrun Hshape. revert Hshape Hrun. apply rfold_invariant.
  intros s k s' _ Hs Hstep. eapply clip_column_shape; eassumption.
Qed.




End Clipping.

Lemma test_inputs_Ok {A GP} `{Num A} (g : globals A)
      (pf : gmap nat (pf_entry A GP)) (i j : nat) (idx : list nat)
      (test : matrix A) :
  test_inputs g pf i j idx = Ok test ->
  exists key cols e test0,
    port_idx g !! j = Some key /\ irs_map g !! key = Some cols /\
    pf !! key = Some e /\ 0 < dim_of cols i /\
    length test0 = length idx /\
    Forall (fun r => length r = dim_of cols i) test0 /\
    rfold (clip_column e i) (seq 0 (dim_of cols i)) test0 = Ok test.
Proof.
  unfold test_inputs. intros Hrun. inv_ok.
  repeat match goal with
         | H : getitem _ _ = Ok _ |- _ => apply getitem_Ok in H
         | H : dict_get _ _ = Ok _ |- _ => apply dict_get_Ok in H
         end.
  match goal with
  | H : columns _ ?cols = Ok _ |- _ =>
      apply columns_shape in H as [_ Hrates]; rename cols into cs
  end.
  match goal with
  | H : (if decide (0 < i) then _ else _) = Ok ?p |- _ =>
      destruct p as [d test0]; simpl in *; rename H into Hsel
  end.
  assert (Hd : d = dim_of cs i /\ length test0 = length idx /\
               Forall (fun r => length r = d) test0).
  { unfold dim_of. case_decide; inv_ok.
    - repeat match goal with
             | H : take_idx _ _ = Ok _ |- _ =>
                 apply take_idx_shape in H as (? & ? & _)
             end.
      split; [reflexivity|]. split; [rewrite length_zip_with; lia|].
      apply zip_with_cons_shape.
      rewrite Forall_forall in Hrates |- *.
      match goal with Hin : Forall (fun x => x ∈ _) ?m |- forall x, x ∈ ?m -> _ =>
        rewrite Forall_forall in Hin; intros r Hr; apply Hrates, Hin, Hr end.
    - match goal with
      | H : take_idx _ _ = Ok _ |- _ =>
          apply take_idx_shape in H as (? & Hin & _)
      end.
      split; [reflexivity|]. split; [assumption|].
      rewrite Forall_forall in Hrates, Hin |- *.
      intros r Hr. apply Hrates, Hin, Hr. }
  destruct Hd as (-> & Hlen & Hshape).
  do 4 eexists. repeat (split; [eassumption|]).
  split; [|split; [exact Hlen|split; [exact Hshape|eassumption]]].
  unfold dim_of. case_decide; [lia|].
  match goal with H : cs !! 0 = Some _ |- _ => apply lookup_lt_Some in H; lia end.
Qed.

(** ** A data set on which the notebook runs *)

Lemma demo_globals_ok : demo_globals = Ok demo_g.
Proof. vm_compute. reflexivity. Qed.

Lemma demo_train_ok : train demo_lib demo_g g0 = Ok (demo_portfolio, demo_rng).
Proof. vm_compute. reflexivity. Qed.

Lemma demo_test_ok :
  test_inputs demo_g demo_portfolio 1 0 [0; 3; 5; 7] = Ok demo_test.
Proof. vm_compute. reflexivity. Qed.

(** ** Stratified sampling *)

Lemma where_from_bound (i : nat) (mask : list bool) :
  Forall (fun r => i <= r < i + length mask) (where_from i mask).
Proof.
  revert i. induction mask as [|b mask IH]; intros i; simpl; [constructor|].
  assert (Hrest : Forall (fun r => i <= r < i + S (length mask))
                         (where_from (S i) mask)).
  { eapply Forall_impl; [apply IH|]. intros r Hr. simpl in Hr. lia. }
  destruct b; [constructor; [lia|]|]; exact Hrest.
Qed.

Lemma np_where_bound (mask : list bool) :
  Forall (fun r => r < length mask) (np_where mask).
Proof.
  eapply Forall_impl; [apply (where_from_bound 0)|]. intros r Hr. simpl in Hr. lia.
Qed.

Lemma where_from_elem (i r : nat) (mask : list bool) :
  r ∈ where_from i mask <-> exists k, r = i + k /\ mask !! k = Some true.
Proof.
  revert i. induction mask as [|b mask IH]; intros i; simpl.
  - split; [intros Hin; apply elem_of_nil in Hin; destruct Hin|].
    intros (k & _ & Hk). discriminate.
  - assert (Hrest : r ∈ where_from (S i) mask <->
                    exists k, r = i + S k /\ mask !! k = Some true).
    { rewrite IH. split; intros (k & -> & Hk); exists k; split;
        (lia || exact Hk). }
    destruct b.
    + rewrite elem_of_cons, Hrest. split.
      * intros [->|(k & -> & Hk)]; [exists 0|exists (S k)]; split;
          (lia || exact Hk || reflexivity).
      * intros ([|k] & -> & Hk); [left; lia|right; exists k; auto].
    + rewrite Hrest. split.
      * intros (k & -> & Hk). exists (S k). auto.
      * intros ([|k] & -> & Hk); [discriminate|exists k; auto].
Qed.

Lemma where_from_NoDup (i : nat) (mask : list bool) :
  NoDup (where_from i mask).
Proof.
  revert i. induction mask as [|b mask IH]; intros i; simpl; [constructor|].
  destruct b; [|apply IH]. constructor; [|apply IH].
  intros Hin. apply where_from_elem in Hin as (k & Hk & _). lia.
Qed.

Lemma where_from_sorted (i : nat) (mask : list bool) :
  StronglySorted lt (where_from i mask).
Proof.
  revert i. induction mask as [|b mask IH]; intros i; simpl; [constructor|].
  destruct b; [|apply IH]. constructor; [apply IH|].
  apply Forall_forall. intros r Hr.
  apply where_from_elem in Hr as (k & -> & _). lia.
Qed.

Lemma random_choice_Ok {X} (a : list X) (n : nat) (g : rng) :
  a <> [] ->
  exists out,
    random_choice a n g = Ok (out, {| gen := gen g; pos := pos g + n |}) /\
    length out = n /\ Forall (fun x => x ∈ a) out.
Proof.
  intros Hne. destruct a as [|x0 a]; [done|]. unfold random_choice.
  eexists. split; [reflexivity|]. split.
  - rewrite length_fmap, length_seq. reflexivity.
  - apply Forall_fmap, Forall_forall. intros k _. cbv beta.
    apply list_elem_of_In, nth_In.
    apply Nat.mod_upper_bound. discriminate.
Qed.

Lemma slice_assign_length {X} (a v a' : list X) (start stop : nat) :
  slice_assign a start stop v = Ok a' -> length a' = length a.
Proof.
  unfold slice_assign.
  set (lo := Nat.min start (length a)).
  set (hi := Nat.max lo (Nat.min stop (length a))).
  assert (lo <= hi <= length a) by lia.
  case_decide as Hlen.
  - intros [= <-]. rewrite !length_app, length_take, length_drop. lia.
  - destruct v as [|x [|y v]]; try discriminate. intros [= <-].
    rewrite !length_app, length_take, length_replicate, length_drop. lia.
Qed.

Lemma slice_assign_fits {X} (a v : list X) (start : nat) :
  start + length v <= length a ->
  slice_assign a start (start + length v) v
  = Ok (take start a ++ v ++ drop (start + length v) a).
Proof.
  intros Hfit. unfold slice_assign.
  rewrite (Nat.min_l start), (Nat.min_l (start + length v)) by lia.
  rewrite Nat.max_r by lia.
  rewrite decide_True by lia. reflexivity.
Qed.

Section Sampling.
Context {A : Type} `{Num A}.

Lemma in_bucket_length (ar q : matrix A) (c k : nat) (m : list bool) :
  in_bucket ar q c k = Ok m -> length m = length ar.
Proof.
  unfold in_bucket. intros Hrun. inv_ok.
  match goal with Hc : column _ _ = Ok _ |- _ =>
    apply column_Ok in Hc as [_ Hc]; apply Forall2_length in Hc end.
  rewrite length_fmap. lia.
Qed.

Lemma cell_mask_length (ar q : matrix A) (c : nat) (ks : list nat)
      (m : list bool) :
  cell_mask ar q c ks = Ok m -> length m = length ar.
Proof.
  revert c m. induction ks as [|k ks IH]; intros c m; simpl.
  - intros [= <-]. apply length_fmap.
  - intros Hrun. inv_ok.
    match goal with Hb : in_bucket _ _ _ _ = Ok _ |- _ =>
      apply in_bucket_length in Hb end.
    match goal with Hm : cell_mask _ _ _ _ = Ok _ |- _ => apply IH in Hm end.
    rewrite length_zip_with. lia.
Qed.

Lemma cell_rows_bound (ar q : matrix A) (ks : list nat) (rows : list nat) :
  cell_rows ar q ks = Ok rows -> Forall (fun r => r < length ar) rows.
Proof.
  unfold cell_rows. intros Hrun. inv_ok.
  match goal with Hm : cell_mask _ _ _ _ = Ok _ |- _ =>
    apply cell_mask_length in Hm; rewrite <- Hm end.
  apply np_where_bound.
Qed.

(** The masks of the code select the rows between the quartiles. *)
Lemma in_bucket_lookup (ar q : matrix A) (c k : nat) (m : list bool) (r : nat) :
  in_bucket ar q c k = Ok m ->
  m !! r = Some true <->
  exists row, ar !! r = Some row /\ between_quartiles q row c k.
Proof.
  unfold in_bucket. intros Hrun.
  apply rbind_Ok in Hrun as (col & Hcol & Hrun).
  apply rbind_Ok in Hrun as (qlo & Hqlo & Hrun).
  apply rbind_Ok in Hrun as (lo & Hlo & Hrun).
  apply rbind_Ok in Hrun as (qhi & Hqhi & Hrun).
  apply rbind_Ok in Hrun as (hi & Hhi & Hrun).
  injection Hrun as <-.
  apply getitem_Ok in Hqlo, Hlo, Hqhi, Hhi.
  apply column_Ok in Hcol as [_ Hcol].
  rewrite list_lookup_fmap. split.
  - intros Hm. destruct (col !! r) as [x|] eqn:Ex; [|discriminate].
    injection Hm as Hm. apply andb_true_iff in Hm as [H1 H2].
    destruct (Forall2_lookup_r _ _ _ _ _ Hcol Ex) as (row & Hrow & Hx).
    exists row. split; [exact Hrow|]. exists x, qlo, qhi, lo, hi. auto 10.
  - intros (row & Hrow & x & qlo' & qhi' & lo' & hi' &
            Hx & Hqlo' & Hlo' & Hqhi' & Hhi' & H1 & H2).
    assert (qlo' = qlo) by congruence. assert (qhi' = qhi) by congruence.
    subst. assert (lo' = lo) by congruence. assert (hi' = hi) by congruence.
    subst.
    destruct (Forall2_lookup_l _ _ _ _ _ Hcol Hrow) as (x' & Ex & Hx').
    assert (x' = x) by congruence. subst. rewrite Ex. simpl.
    unfold fle in H1, H2. rewrite H1, H2. reflexivity.
Qed.

Lemma cell_mask_lookup (ar q : matrix A) (c0 : nat) (ks : list nat)
      (m : list bool) (r : nat) :
  cell_mask ar q c0 ks = Ok m ->
  m !! r = Some true <->
  exists row,
    ar !! r = Some row /\
    forall j k, ks !! j = Some k -> between_quartiles q row (c0 + j) k.
Proof.
  revert c0 m. induction ks as [|k0 ks IH]; intros c0 m; simpl.
  - intros [= <-]. rewrite list_lookup_fmap. split.
    + intros Hm. destruct (ar !! r) as [row|]; [|discriminate].
      exists row. split; [reflexivity|]. intros j k Hk. discriminate.
    + intros (row & -> & _). reflexivity.
  - intros Hrun. apply rbind_Ok in Hrun as (m1 & Hm1 & Hrun).
    apply rbind_Ok in Hrun as (ms & Hms & Hrun). injection Hrun as <-.
    pose proof (in_bucket_lookup _ _ _ _ _ r Hm1) as H1.
    pose proof (IH _ _ Hms) as H2.
    rewrite lookup_zip_with. split.
    + intros Hm. destruct (m1 !! r) as [b1|] eqn:E1; [|discriminate].
      destruct (ms !! r) as [b2|] eqn:E2; [|discriminate].
      simpl in Hm. injection Hm as Hm. apply andb_true_iff in Hm as [-> ->].
      destruct (proj1 H1 eq_refl) as (row & Hrow & Hb).
      destruct (proj1 H2 eq_refl) as (row' & Hrow' & Hbs).
      assert (row' = row) by congruence. subst.
      exists row. split; [exact Hrow|]. intros [|j] k Hk; simpl in Hk.
      * injection Hk as <-. rewrite Nat.add_0_r. exact Hb.
      * replace (c0 + S j) with (S c0 + j) by lia. apply Hbs, Hk.
    + intros (row & Hrow & Hall).
      rewrite (proj2 H1). 2:{ exists row. split; [exact Hrow|].
                              rewrite <- (Nat.add_0_r c0). apply (Hall 0). reflexivity. }
      simpl. rewrite (proj2 H2); [reflexivity|].
      exists row. split; [exact Hrow|]. intros j k Hk.
      replace (S c0 + j) with (c0 + S j) by lia. apply (Hall (S j)), Hk.
Qed.

Lemma cell_rows_members (ar q : matrix A) (ks rows : list nat) :
  cell_rows ar q ks = Ok rows -> cell_members ar q ks rows.
Proof.
  unfold cell_rows. intros Hrun.
  apply rbind_Ok in Hrun as (m & Hm & Hrun). injection Hrun as <-.
  split; [apply where_from_sorted|]. intros r.
  unfold np_where. rewrite where_from_elem.
  rewrite <- (cell_mask_lookup _ _ _ _ _ r Hm). split.
  - intros (k & -> & Hk). exact Hk.
  - intros Hr. exists r. auto.
Qed.

Lemma cell_rows_witness (ar q : matrix A) (ks rows : list nat) (r : nat) :
  cell_rows ar q ks = Ok (r :: rows) -> in_cell ar q ks r.
Proof.
  intros Hrun. apply cell_rows_members in Hrun as [_ Hmem].
  apply Hmem. left.
Qed.

Lemma in_cell_bound (ar q : matrix A) (ks : list nat) (r : nat) :
  in_cell ar q ks r -> r < length ar.
Proof. intros (row & Hrow & _). eapply lookup_lt_Some, Hrow. Qed.

Lemma step2_loop (ar q : matrix A) (num_samples : nat) (cells : list (list nat)) :
  Forall (fun ks => exists rows, cell_rows ar q ks = Ok rows /\ rows <> [])
         cells ->
  forall (idx0 : list nat) (g : rng),
  exists chunks g',
    pfold (step2 ar q num_samples) cells idx0 g = Ok (idx0 ++ concat chunks, g') /\
    Forall2 (drawn_from ar q num_samples) cells chunks.
Proof.
  induction 1 as [|ks cells (rows & Hrows & Hne) _ IH]; intros idx0 g; simpl.
  - exists [], g. simpl. rewrite app_nil_r. split; [reflexivity|constructor].
  - assert (Hstep : exists chunk g1,
               step2 ar q num_samples idx0 ks g = Ok (idx0 ++ chunk, g1) /\
               drawn_from ar q num_samples ks chunk).
    { unfold step2, drawn_from.
      destruct (decide (num_samples < length rows)%nat) as [Hlt|Hge].
      - exists (take num_samples rows), g. split.
        + apply pbind_Ok. exists rows, g. split; [apply lift_Ok; auto|].
          rewrite decide_True by exact Hlt.
          apply pbind_Ok. do 2 eexists. split; reflexivity.
        + exists rows. split; [apply cell_rows_members, Hrows|].
          split; [rewrite length_take; lia|].
          split; [|reflexivity].
          apply Forall_forall. intros r Hr.
          apply elem_of_take in Hr as (p & Hp & _).
          eapply list_elem_of_lookup_2, Hp.
      - destruct (random_choice_Ok rows num_samples g Hne)
          as (out & Hout & Hlen & Hin).
        exists out. eexists. split.
        + apply pbind_Ok. exists rows, g. split; [apply lift_Ok; auto|].
          rewrite decide_False by exact Hge.
          apply pbind_Ok. do 2 eexists. split; [exact Hout|reflexivity].
        + exists rows. split; [apply cell_rows_members, Hrows|].
          split; [exact Hlen|].
          split; [exact Hin|]. intros Hlt. lia. }
    destruct Hstep as (chunk & g1 & Hstep & Hdrawn).
    destruct (IH (idx0 ++ chunk) g1) as (chunks & g' & Hloop & Hall).
    exists (chunk :: chunks), g'. split.
    + apply pbind_Ok. exists (idx0 ++ chunk), g1. split; [exact Hstep|].
      rewrite Hloop. simpl. rewrite app_assoc. reflexivity.
    + constructor; assumption.
Qed.

Lemma drawn_chunks_length (ar q : matrix A) (num_samples : nat)
      (cells chunks : list (list nat)) :
  Forall2 (drawn_from ar q num_samples) cells chunks ->
  length (concat chunks) = length cells * num_samples /\
  Forall (fun r => r < length ar) (concat chunks).
Proof.
  induction 1 as [|ks chunk cells chunks (rows & [_ Hmem] & Hlen & Hin & _) _ IH];
    simpl; [split; [reflexivity|constructor]|].
  destruct IH as [IHlen IHin]. split.
  - rewrite length_app. lia.
  - apply Forall_app. split; [|exact IHin].
    rewrite Forall_forall in Hin |- *. intros r Hr.
    eapply in_cell_bound, Hmem, Hin, Hr.
Qed.

Lemma drawn_cells_counted (ar q : matrix A) (num_samples : nat)
      (cells chunks : list (list nat)) :
  1 <= num_samples ->
  Forall2 (drawn_from ar q num_samples) cells chunks ->
  counts (fun ks => exists r, in_cell ar q ks r) cells (length cells).
Proof.
  intros Hn.
  induction 1 as [|ks chunk cells chunks (rows & [_ Hmem] & Hlen & Hin & _) _ IH];
    simpl; [constructor|].
  apply counts_yes; [|exact IH].
  destruct chunk as [|r chunk]; [simpl in Hlen; lia|].
  exists r. apply Hmem. inversion Hin; assumption.
Qed.

End Sampling.

Section ArgExtremes.
Context {A : Type} `{Num A}.

Lemma argmin_from_lt (bi : nat) (b : A) (i : nat) (a : list A) :
  bi < i -> argmin_from bi b i a < i + length a.
Proof.
  revert bi b i. induction a as [|x a IH]; intros bi b i Hbi; simpl; [lia|].
  destruct (fltb x b).
  - specialize (IH i x (S i)). lia.
  - specialize (IH bi b (S i)). lia.
Qed.

Lemma argmax_from_lt (bi : nat) (b : A) (i : nat) (a : list A) :
  bi < i -> argmax_from bi b i a < i + length a.
Proof.
  revert bi b i. induction a as [|x a IH]; intros bi b i Hbi; simpl; [lia|].
  destruct (fltb b x).
  - specialize (IH i x (S i)). lia.
  - specialize (IH bi b (S i)). lia.
Qed.

Lemma np_argmin_lt (a : list A) (r : nat) :
  np_argmin a = Ok r -> r < length a.
Proof.
  destruct a as [|x a]; [discriminate|]. intros [= <-].
  pose proof (argmin_from_lt 0 x 1 a). simpl. lia.
Qed.

Lemma np_argmax_lt (a : list A) (r : nat) :
  np_argmax a = Ok r -> r < length a.
Proof.
  destruct a as [|x a]; [discriminate|]. intros [= <-].
  pose proof (argmax_from_lt 0 x 1 a). simpl. lia.
Qed.

Lemma np_argmin_total (a : list A) : a <> [] -> exists r, np_argmin a = Ok r.
Proof. destruct a; [done|]. intros _. eexists; reflexivity. Qed.

Lemma np_argmax_total (a : list A) : a <> [] -> exists r, np_argmax a = Ok r.
Proof. destruct a; [done|]. intros _. eexists; reflexivity. Qed.

(** An index per column, each of them a row of the array. *)
Lemma axis0_arg_bound (f : list A -> result nat) (ar : matrix A)
      (v : list nat) :
  (forall a r, f a = Ok r -> r < length a) ->
  axis0 f ar = Ok v -> Forall (fun r => r < length ar) v.
Proof.
  intros Hf Hv. apply Forall_forall. intros r Hr.
  apply list_elem_of_lookup in Hr as [c Hc].
  destruct (axis0_lookup _ _ _ _ _ Hv Hc) as (col & Hcol & Hfr).
  apply Hf in Hfr. apply column_Ok in Hcol as [_ Hcol].
  apply Forall2_length in Hcol. lia.
Qed.

End ArgExtremes.

Lemma grid_sample_ok :
  stratified_sampling grid_exact 32 g0 = Ok (grid_sample, grid_rng).
Proof. vm_compute. reflexivity. Qed.

Section Extremes.
Context {A : Type} `{NumLaws A}.
Local Open Scope num_scope.

Lemma argmin_from_spec (L a : list A) (i bi : nat) (b : A) :
  drop i L = a -> L !! bi = Some b ->
  (forall x, x ∈ take i L -> b <= x) ->
  exists m, L !! argmin_from bi b i a = Some m /\ forall x, x ∈ L -> m <= x.
Proof.
  revert i bi b. induction a as [|x a IH]; intros i bi b Hdrop Hb Hpre; simpl.
  - exists b. split; [exact Hb|]. intros y Hy. apply Hpre.
    rewrite take_ge; [exact Hy|].
    apply (f_equal length) in Hdrop. rewrite length_drop in Hdrop.
    simpl in Hdrop. lia.
  - assert (Hi : L !! i = Some x).
    { pose proof (lookup_drop L i 0) as Hl. rewrite Hdrop in Hl.
      rewrite Nat.add_0_r in Hl. symmetry. exact Hl. }
    assert (Hdrop' : drop (S i) L = a).
    { rewrite (drop_S _ _ _ Hi) in Hdrop. congruence. }
    destruct (x <? b) eqn:E.
    + apply (IH (S i) i x Hdrop' Hi). intros y Hy.
      rewrite (take_S_r _ _ _ Hi) in Hy. apply elem_of_app in Hy as [Hy|Hy].
      * eapply fle_trans; [apply flt_fle, E | apply Hpre, Hy].
      * apply list_elem_of_singleton in Hy as ->. apply fle_refl.
    + apply (IH (S i) bi b Hdrop' Hb). intros y Hy.
      rewrite (take_S_r _ _ _ Hi) in Hy. apply elem_of_app in Hy as [Hy|Hy].
      * apply Hpre, Hy.
      * apply list_elem_of_singleton in Hy as ->. apply fltb_false, E.
Qed.

Lemma argmax_from_spec (L a : list A) (i bi : nat) (b : A) :
  drop i L = a -> L !! bi = Some b ->
  (forall x, x ∈ take i L -> x <= b) ->
  exists m, L !! argmax_from bi b i a = Some m /\ forall x, x ∈ L -> x <= m.
Proof.
  revert i bi b. induction a as [|x a IH]; intros i bi b Hdrop Hb Hpre; simpl.
  - exists b. split; [exact Hb|]. intros y Hy. apply Hpre.
    rewrite take_ge; [exact Hy|].
    apply (f_equal length) in Hdrop. rewrite length_drop in Hdrop.
    simpl in Hdrop. lia.
  - assert (Hi : L !! i = Some x).
    { pose proof (lookup_drop L i 0) as Hl. rewrite Hdrop in Hl.
      rewrite Nat.add_0_r in Hl. symmetry. exact Hl. }
    assert (Hdrop' : drop (S i) L = a).
    { rewrite (drop_S _ _ _ Hi) in Hdrop. congruence. }
    destruct (b <? x) eqn:E.
    + apply (IH (S i) i x Hdrop' Hi). intros y Hy.
      rewrite (take_S_r _ _ _ Hi) in Hy. apply elem_of_app in Hy as [Hy|Hy].
      * eapply fle_trans; [apply Hpre, Hy | apply flt_fle, E].
      * apply list_elem_of_singleton in Hy as ->. apply fle_refl.
    + apply (IH (S i) bi b Hdrop' Hb). intros y Hy.
      rewrite (take_S_r _ _ _ Hi) in Hy. apply elem_of_app in Hy as [Hy|Hy].
      * apply Hpre, Hy.
      * apply list_elem_of_singleton in Hy as ->. apply fltb_false, E.
Qed.

Lemma np_argmin_spec (a : list A) (r : nat) :
  np_argmin a = Ok r ->
  exists m, a !! r = Some m /\ forall x, x ∈ a -> m <= x.
Proof.
  destruct a as [|x0 a]; [discriminate|]. intros [= <-].
  apply (argmin_from_spec (x0 :: a) a 1 0 x0); [reflexivity..|].
  intros y Hy. simpl in Hy. rewrite take_0 in Hy.
  apply list_elem_of_singleton in Hy as ->. apply fle_refl.
Qed.

Lemma np_argmax_spec (a : list A) (r : nat) :
  np_argmax a = Ok r ->
  exists m, a !! r = Some m /\ forall x, x ∈ a -> x <= m.
Proof.
  destruct a as [|x0 a]; [discriminate|]. intros [= <-].
  apply (argmax_from_spec (x0 :: a) a 1 0 x0); [reflexivity..|].
  intros y Hy. simpl in Hy. rewrite take_0 in Hy.
  apply list_elem_of_singleton in Hy as ->. apply fle_refl.
Qed.

End Extremes.

(** C9: when [stratified_sampling] returns at least [2 * dim] indices, the
    first [dim] of them are the positions of the column minima and the next
    [dim] the positions of the column maxima: for every column the
    returned indices contain a row that attains its minimum and a row that
    attains its maximum. *)
Theorem stratified_sampling_keeps_extremes {A : Type} `{NumLaws A}
        (ar : matrix A) (M : nat) (g g' : rng) (idx : list nat) :
  stratified_sampling ar M g = Ok (idx, g') ->
  2 * ncols ar <= length idx ->
  exists idx_min idx_max rest,
    axis0 np_argmin ar = Ok idx_min /\ axis0 np_argmax ar = Ok idx_max /\
    idx = idx_min ++ idx_max ++ rest /\
    forall k,
      k < ncols ar ->
      exists col rmin rmax vmin vmax,
        column ar k = Ok col /\
        idx !! k = Some rmin /\ idx !! (ncols ar + k) = Some rmax /\
        col !! rmin = Some vmin /\ col !! rmax = Some vmax /\
        forall x, x ∈ col -> (vmin <= x)%num /\ (x <= vmax)%num.
Proof.
  intros Hrun Hlen. unfold stratified_sampling in Hrun.
  apply pbind_Ok in Hrun as (q & g1 & _ & Hrun).
  apply pbind_Ok in Hrun as (idx1 & g2 & _ & Hrun).
  apply pbind_Ok in Hrun as (idx_min & g3 & Himin & Hrun).
  apply pbind_Ok in Hrun as (idx_max & g4 & Himax & Hrun).
  apply pbind_Ok in Hrun as (idx2 & g5 & Hs1 & Hrun).
  apply pbind_Ok in Hrun as (idx3 & g6 & Hs2 & Hrun).
  apply mret_py_Ok in Hrun as [-> _].
  apply lift_Ok in Himin as [Himin _]. apply lift_Ok in Himax as [Himax _].
  apply lift_Ok in Hs1 as [Hs1 _]. apply lift_Ok in Hs2 as [Hs2 _].
  pose proof (axis0_length _ _ _ Himin) as Lmin.
  pose proof (axis0_length _ _ _ Himax) as Lmax.
  pose proof (slice_assign_length _ _ _ _ _ Hs1) as L1.
  pose proof (slice_assign_length _ _ _ _ _ Hs2) as L2.
  pose proof (slice_assign_fits idx1 idx_min 0) as Hf1.
  rewrite Lmin in Hf1. simpl in Hf1. rewrite Hf1 in Hs1 by lia.
  injection Hs1 as <-.
  pose proof (slice_assign_fits (idx_min ++ drop (ncols ar) idx1) idx_max
                                (ncols ar)) as Hf2.
  rewrite Lmax in Hf2.
  replace (2 * ncols ar) with (ncols ar + ncols ar) in Hs2 by lia.
  rewrite Hf2 in Hs2 by (rewrite length_app, length_drop; lia).
  injection Hs2 as <-.
  rewrite take_app_length' by (symmetry; exact Lmin).
  exists idx_min, idx_max. eexists.
  split; [exact Himin|]. split; [exact Himax|]. split; [reflexivity|].
  intros k Hk.
  destruct (lookup_lt_is_Some_2 idx_min k) as [rmin Hrmin]; [lia|].
  destruct (lookup_lt_is_Some_2 idx_max k) as [rmax Hrmax]; [lia|].
  destruct (axis0_lookup _ _ _ _ _ Himin Hrmin) as (col & Hcol & Hamin).
  destruct (axis0_lookup _ _ _ _ _ Himax Hrmax) as (col' & Hcol' & Hamax).
  assert (col' = col) by congruence. subst col'.
  apply np_argmin_spec in Hamin as (vmin & Hvmin & Hall).
  apply np_argmax_spec in Hamax as (vmax & Hvmax & Hall').
  exists col, rmin, rmax, vmin, vmax.
  split; [exact Hcol|].
  split; [rewrite lookup_app_l by lia; exact Hrmin|].
  split.
  { rewrite lookup_app_r by lia. rewrite Lmin.
    replace (ncols ar + k - ncols ar) with k by lia.
    rewrite lookup_app_l by lia. exact Hrmax. }
  split; [exact Hvmin|]. split; [exact Hvmax|]. auto.
Qed.

Lemma stratified_sampling_keeps_extremes_witness :
  exists idx_min idx_max rest,
    axis0 np_argmin grid_exact = Ok idx_min /\
    axis0 np_argmax grid_exact = Ok idx_max /\
    grid_sample = idx_min ++ idx_max ++ rest /\
    forall k,
      k < ncols grid_exact ->
      exists col rmin rmax vmin vmax,
        column grid_exact k = Ok col /\
        grid_sample !! k = Some rmin /\
        grid_sample !! (ncols grid_exact + k) = Some rmax /\
        col !! rmin = Some vmin /\ col !! rmax = Some vmax /\
        forall x, x ∈ col -> (vmin <= x)%num /\ (x <= vmax)%num.
Proof.
  apply (stratified_sampling_keeps_extremes grid_exact 32 g0 grid_rng).
  - exact grid_sample_ok.
  - vm_compute. lia.
Defined.

(** ** The exposure loop and the default probabilities *)

Section Exposure.
Context {A GP : Type} `{Num A} (lib : Lib A GP).
Local Open Scope num_scope.

Lemma exposure_step_Ok (g : globals A) (pf : gmap nat (pf_entry A GP))
      (M n : nat) (haz_rate dt : A) (pi pi' : pi_t A) (dPD dPD' : matrix A)
      (i : nat) (r r' : rng) :
  exposure_step lib g pf M n haz_rate dt (pi, dPD) i r = Ok ((pi', dPD'), r') ->
  exists pred_ var_ obs_,
    pfold (instrument_step lib g pf M i) (seq 0 n)
          (replicate M f0, replicate M f0, replicate M f0) r
    = Ok ((pred_, var_, obs_), r') /\
    (i < length (pi_tilde pi))%nat /\ (i < length (pi_exact pi))%nat /\
    (i < length dPD)%nat /\
    pi_tilde pi' = <[i := lmap float32 pred_]> (pi_tilde pi) /\
    pi_exact pi' = <[i := lmap float32 obs_]> (pi_exact pi) /\
    pi_tilde_var pi' = <[i := lmap float32 var_]> (pi_tilde_var pi) /\
    dPD' = <[i := replicate M (dPD_value lib haz_rate dt)]> dPD.
Proof.
  unfold exposure_step. intros Hrun.
  apply pbind_Ok in Hrun as ([[pred_ var_] obs_] & r1 & Hloop & Hrun).
  apply lift_Ok in Hrun as [Hrun ->].
  apply rbind_Ok in Hrun as (t & Ht & Hrun).
  apply rbind_Ok in Hrun as (x & Hx & Hrun).
  apply rbind_Ok in Hrun as (v & Hv & Hrun).
  apply rbind_Ok in Hrun as (d & Hd & Hrun).
  injection Hrun as <- <-.
  apply setitem_Ok in Ht as [? ->]. apply setitem_Ok in Hx as [? ->].
  apply setitem_Ok in Hv as [? ->]. apply setitem_Ok in Hd as [? ->].
  exists pred_, var_, obs_. simpl. auto 10.
Qed.

(** After the dates [s, s+1, ..., s+n-1] the rows of [dPD] at these dates
    hold the constant, and the arrays keep their number of rows. *)
Lemma exposure_dates (g : globals A) (pf : gmap nat (pf_entry A GP))
      (M k : nat) (haz_rate dt : A) (n s : nat) (pi pi' : pi_t A)
      (dPD dPD' : matrix A) (r r' : rng) :
  pfold (exposure_step lib g pf M k haz_rate dt) (seq s n) (pi, dPD) r
  = Ok ((pi', dPD'), r') ->
  length dPD = (s + n)%nat ->
  dPD' = take s dPD ++ replicate n (replicate M (dPD_value lib haz_rate dt)) /\
  length (pi_tilde pi') = length (pi_tilde pi) /\
  length (pi_exact pi') = length (pi_exact pi).
Proof.
  revert s pi dPD r. induction n as [|n IH]; intros s pi dPD r Hrun Hlen;
    simpl in Hrun.
  - apply mret_py_Ok in Hrun as [[= <- <-] _].
    rewrite take_ge by lia. rewrite app_nil_r. auto.
  - apply pbind_Ok in Hrun as ([pi1 dPD1] & r1 & Hstep & Hrest).
    apply exposure_step_Ok in Hstep
      as (pred_ & var_ & obs_ & _ & _ & _ & Hs & Ht & Hx & _ & ->).
    apply IH in Hrest as (-> & L1 & L2); [|rewrite length_insert; lia].
    rewrite L1, L2, Ht, Hx, !length_insert.
    split; [|split; reflexivity].
    rewrite (take_S_r _ _ (replicate M (dPD_value lib haz_rate dt)))
      by (apply list_lookup_insert_eq; lia).
    rewrite take_insert_ge by lia.
    rewrite <- app_assoc. reflexivity.
Qed.

Lemma exposure_loop_Ok (g : globals A) (pf : gmap nat (pf_entry A GP))
      (sp : sim_params) (mp : model_params A) (dt : A) (pi : pi_t A)
      (dPD : matrix A) (r r' : rng) :
  exposure_loop lib g pf sp mp dt r = Ok ((pi, dPD), r') ->
  dPD = replicate (sp_nt sp)
                  (replicate (sp_M sp) (dPD_value lib (mp_lambda mp) dt)) /\
  length (pi_tilde pi) = sp_nt sp /\ length (pi_exact pi) = sp_nt sp.
Proof.
  unfold exposure_loop. intros Hrun.
  apply exposure_dates in Hrun as (-> & L1 & L2).
  - simpl in L1, L2. unfold zeros in L1, L2. rewrite length_replicate in L1, L2.
    auto.
  - unfold zeros. rewrite length_replicate. reflexivity.
Qed.

(** The second loop stops at its first date when [sqrt] is not bound. *)
Lemma cva_step_name_error (ns : gmap string (A -> result A)) (M : nat)
      (r t0 dt : A) (pi : pi_t A) (dPD : matrix A) (CVA : CVA_t A) (i : nat) :
  ns !! "sqrt"%string = None ->
  (i < length dPD)%nat -> (i < length (pi_tilde pi))%nat ->
  cva_step lib ns M r t0 dt pi dPD CVA i = Raise (NameError "sqrt").
Proof.
  intros Hns Hd Ht. unfold cva_step.
  destruct (getitem_lt dPD i Hd) as (d0 & -> & _).
  destruct (getitem_lt (pi_tilde pi) i Ht) as (x0 & -> & _).
  simpl. unfold call_name. rewrite Hns. reflexivity.
Qed.

Lemma cva_loop_name_error (ns : gmap string (A -> result A))
      (sp : sim_params) (mp : model_params A) (dm : def_model A) (dt : A)
      (pi : pi_t A) (dPD : matrix A) :
  ns !! "sqrt"%string = None ->
  (1 <= sp_nt sp)%nat ->
  length dPD = sp_nt sp -> length (pi_tilde pi) = sp_nt sp ->
  cva_loop lib ns sp mp dm dt pi dPD = Raise (NameError "sqrt").
Proof.
  intros Hns Hnt Ld Lt. unfold cva_loop.
  destruct (sp_nt sp) as [|n]; [lia|]. simpl seq. simpl rfold.
  rewrite cva_step_name_error by (auto; lia). reflexivity.
Qed.

Lemma CVA_simulation_name_error (ns : gmap string (A -> result A))
      (g : globals A) (pf : gmap nat (pf_entry A GP)) (sp : sim_params)
      (mp : model_params A) (dm : def_model A) (r : rng) :
  ns !! "sqrt"%string = None ->
  (1 <= sp_nt sp)%nat ->
  (forall res, CVA_simulation lib ns g pf sp mp dm r <> Ok res) /\
  (forall dt st r',
      time_step mp (sp_nt sp) = Ok dt ->
      exposure_loop lib g pf sp mp dt r = Ok (st, r') ->
      CVA_simulation lib ns g pf sp mp dm r = Raise (NameError "sqrt")).
Proof.
  intros Hns Hnt.
  assert (Hcore : forall dt pi dPD r',
             exposure_loop lib g pf sp mp dt r = Ok ((pi, dPD), r') ->
             cva_loop lib ns sp mp dm dt pi dPD = Raise (NameError "sqrt")).
  { intros dt pi dPD r' Hloop.
    apply exposure_loop_Ok in Hloop as (-> & Lt & _).
    apply cva_loop_name_error; auto. rewrite length_replicate. reflexivity. }
  split.
  - intros [[CVA pi] r'] Hrun. unfold CVA_simulation in Hrun.
    apply pbind_Ok in Hrun as (dt & r1 & Hdt & Hrun).
    apply lift_Ok in Hdt as [Hdt ->].
    apply pbind_Ok in Hrun as ([pi' dPD] & r2 & Hloop & Hrun).
    apply pbind_Ok in Hrun as (CVA' & r3 & Hcva & _).
    apply lift_Ok in Hcva as [Hcva _].
    rewrite (Hcore _ _ _ _ Hloop) in Hcva. discriminate.
  - intros dt [pi dPD] r' Hdt Hloop. unfold CVA_simulation.
    unfold mbind, py_bind, pbind, lift. rewrite Hdt, Hloop.
    rewrite (Hcore _ _ _ _ Hloop). reflexivity.
Qed.

End Exposure.

Lemma notebook_ns_sqrt {A} (call : string -> A -> result A) :
  notebook_ns call !! "sqrt"%string = None.
Proof. reflexivity. Qed.

(** C3: with at least one exposure date, in the namespace of the notebook
    (whatever the objects bound in it do when called), [CVA_simulation]
    returns no result, and once the first loop has run it raises
    [NameError] for the name [sqrt], at the first error bar. *)
Theorem CVA_simulation_raises_NameError {A GP : Type} `{Num A}
        (lib : Lib A GP) (call : string -> A -> result A) (g : globals A)
        (pf : gmap nat (pf_entry A GP)) (sp : sim_params)
        (mp : model_params A) (dm : def_model A) (r : rng) :
  1 <= sp_nt sp ->
  (forall res, CVA_simulation lib (notebook_ns call) g pf sp mp dm r <> Ok res) /\
  (forall dt st r',
      time_step mp (sp_nt sp) = Ok dt ->
      exposure_loop lib g pf sp mp dt r = Ok (st, r') ->
      CVA_simulation lib (notebook_ns call) g pf sp mp dm r
      = Raise (NameError "sqrt")).
Proof.
  intros Hnt. apply CVA_simulation_name_error; [apply notebook_ns_sqrt|exact Hnt].
Qed.

Lemma demo_exposed_ok :
  exposure_loop demo_lib demo_g demo_portfolio demo_sim demo_model demo_dt g0
  = Ok (demo_pi, demo_dPD, demo_rng').
Proof. vm_compute. reflexivity. Qed.

Lemma demo_time_step : time_step demo_model (sp_nt demo_sim) = Ok demo_dt.
Proof. reflexivity. Qed.

Lemma CVA_simulation_raises_NameError_witness :
  (forall res,
      CVA_simulation demo_lib (notebook_ns (fun _ _ => Raise TypeError))
                     demo_g demo_portfolio demo_sim demo_model demo_def g0
      <> Ok res) /\
  CVA_simulation demo_lib (notebook_ns (fun _ _ => Raise TypeError))
                 demo_g demo_portfolio demo_sim demo_model demo_def g0
  = Raise (NameError "sqrt").
Proof.
  destruct (CVA_simulation_raises_NameError
              demo_lib (fun _ _ => Raise TypeError) demo_g demo_portfolio
              demo_sim demo_model demo_def g0) as [Hno Hraise].
  - simpl. lia.
  - split; [exact Hno|].
    exact (Hraise demo_dt _ _ demo_time_step demo_exposed_ok).
Defined.

(** C2 (what the code does): at the notebook's own call, with ten dates
    and recovery 0.4, whatever the data, the portfolio and the library
    code, no [CVA] dictionary is returned, so none with ordered bounds. *)
Theorem CVA_simulation_returns_no_bounds {A GP : Type} `{Num A}
        (lib : Lib A GP) (call : string -> A -> result A) (g : globals A)
        (pf : gmap nat (pf_entry A GP)) (r : rng)
        (res : CVA_t A * pi_t A * rng) :
  CVA_simulation lib (notebook_ns call) g pf notebook_sim notebook_model
                 notebook_def r <> Ok res.
Proof.
  apply CVA_simulation_name_error; [apply notebook_ns_sqrt|].
  simpl. lia.
Qed.

(** C10, as stated, fails in the arithmetic of the notebook: [dPD] is an
    array of dtype float32, and with the notebook's [lambda = 0.05],
    [T = 10.0] and [nt = 10] the double [lambda * exp(-lambda * T/nt)] is
    not a float32 number; every entry of [dPD] is the float32 number
    nearest to it. *)
Lemma dPD_binary64_is_rounded :
  time_step binary64_model (sp_nt binary64_sim) = Ok 1%float /\
  exposure_loop binary64_lib binary64_globals ∅ binary64_sim binary64_model
                1%float g0
  = Ok (binary64_pi, binary64_dPD, g0) /\
  length binary64_dPD = 10 /\
  Forall (Forall (fun x => x = 0x1.859fa2p-5%float)) binary64_dPD /\
  (mp_lambda binary64_model *
   np_exp binary64_lib (- mp_lambda binary64_model *
                          (mp_T binary64_model / of_int 10)))%num
  = 0x1.859fa26ec1eecp-5%float /\
  (0x1.859fa2p-5 =? 0x1.859fa26ec1eecp-5)%float = false.
Proof.
  split; [vm_compute; reflexivity|]. split; [vm_compute; reflexivity|].
  split; [reflexivity|]. split; [repeat constructor|].
  split; vm_compute; reflexivity.
Qed.

(** C10 (amended): every entry of [dPD] is the float32 number nearest to
    [lambda * exp(-lambda * dt)] with [dt = T / nt]: [dPD] is the array of
    [nt] rows of [M] copies of this one value, which depends neither on
    the date, nor on the path, nor on the market data. *)
Theorem default_probabilities_constant {A GP : Type} `{Num A}
        (lib : Lib A GP) (g : globals A) (pf : gmap nat (pf_entry A GP))
        (sp : sim_params) (mp : model_params A) (dt : A) (r r' : rng)
        (pi : pi_t A) (dPD : matrix A) :
  time_step mp (sp_nt sp) = Ok dt ->
  exposure_loop lib g pf sp mp dt r = Ok ((pi, dPD), r') ->
  dt = (mp_T mp / of_int (Z.of_nat (sp_nt sp)))%num /\
  dPD = replicate (sp_nt sp)
          (replicate (sp_M sp)
             (float32 (mp_lambda mp * np_exp lib (- mp_lambda mp * dt))%num)) /\
  forall i m row x,
    dPD !! i = Some row -> row !! m = Some x ->
    i < sp_nt sp /\ m < sp_M sp /\
    x = float32 (mp_lambda mp *
                 np_exp lib (- mp_lambda mp *
                               (mp_T mp / of_int (Z.of_nat (sp_nt sp)))))%num.
Proof.
  intros Hdt Hloop.
  assert (Edt : dt = (mp_T mp / of_int (Z.of_nat (sp_nt sp)))%num).
  { unfold time_step in Hdt. case_decide; [discriminate|]. congruence. }
  apply exposure_loop_Ok in Hloop as (-> & _ & _).
  split; [exact Edt|]. split; [reflexivity|].
  intros i m row x Hrow Hx.
  apply lookup_replicate in Hrow as [-> Hi].
  apply lookup_replicate in Hx as [-> Hm].
  unfold dPD_value. rewrite <- Edt. auto.
Qed.

Lemma binary64_time_step :
  time_step binary64_model (sp_nt binary64_sim) = Ok 1%float.
Proof. vm_compute. reflexivity. Qed.

Lemma binary64_exposed_ok :
  exposure_loop binary64_lib binary64_globals ∅ binary64_sim binary64_model
                1%float g0
  = Ok (binary64_pi, binary64_dPD, g0).
Proof. vm_compute. reflexivity. Qed.

Lemma default_probabilities_constant_witness :
  1%float = (mp_T binary64_model / of_int (Z.of_nat (sp_nt binary64_sim)))%num /\
  binary64_dPD
  = replicate (sp_nt binary64_sim)
      (replicate (sp_M binary64_sim)
         (float32 (mp_lambda binary64_model *
                   np_exp binary64_lib (- mp_lambda binary64_model * 1%float))%num)) /\
  forall i m row x,
    binary64_dPD !! i = Some row -> row !! m = Some x ->
    i < sp_nt binary64_sim /\ m < sp_M binary64_sim /\
    x = float32 (mp_lambda binary64_model *
                 np_exp binary64_lib
                        (- mp_lambda binary64_model *
                           (mp_T binary64_model /
                            of_int (Z.of_nat (sp_nt binary64_sim)))))%num.
Proof.
  exact (default_probabilities_constant
           binary64_lib binary64_globals ∅ binary64_sim binary64_model
           1%float g0 g0 binary64_pi binary64_dPD
           binary64_time_step binary64_exposed_ok).
Defined.

(** ** Expected exposure *)

(** C1 (what the code does): on the data set above, where every swap has
    a negative value in every scenario, the first loop returns portfolio
    values whose row means, the values that the notebook plots as EPE, are
    negative for both the surrogate and the analytical prices, while the
    mean positive part is 0 at both dates. *)
Theorem epe_cell_is_mean_exposure :
  exposure_loop demo_lib demo_g demo_portfolio demo_sim demo_model demo_dt g0
  = Ok (demo_pi, demo_dPD, demo_rng') /\
  epe_obs demo_pi = [(-161 # 4)%Q; (-160 # 4)%Q] /\
  Forall (fun x => (x < 0)%Q) (epe_gp demo_pi) /\
  Forall (fun x => (x < 0)%Q) (epe_obs demo_pi) /\
  Forall (fun x => (x == 0)%Q) (epe_positive_part (pi_tilde demo_pi)) /\
  Forall (fun x => (x == 0)%Q) (epe_positive_part (pi_exact demo_pi)).
Proof.
  split; [exact demo_exposed_ok|].
  split; [vm_compute; reflexivity|].
  repeat split; repeat constructor; vm_compute; reflexivity.
Qed.

(** ** Training on a domestic swap *)

Lemma pfold_raises {X S} (body : S -> X -> py S) (xs : list X) (x : X) :
  x ∈ xs -> (forall s g, exists e, body s x g = Raise e) ->
  forall s g, exists e, pfold body xs s g = Raise e.
Proof.
  intros Hin Hx. induction xs as [|y xs IH]; intros s g.
  - apply elem_of_nil in Hin. destruct Hin.
  - simpl. unfold mbind, py_bind, pbind.
    destruct (body s y g) as [[s1 g1]|e] eqn:E; [|eauto].
    apply elem_of_cons in Hin as [->|Hin].
    + destruct (Hx s g) as [e He]. congruence.
    + apply IH, Hin.
Qed.

Section Domestic.
Context {A GP : Type} `{Num A} (lib : Lib A GP).

Lemma insert_sorted_length (x : A) (s : list A) :
  length (insert_sorted x s) = S (length s).
Proof.
  induction s as [|y s IH]; simpl; [reflexivity|].
  destruct (fleb x y); simpl; [reflexivity|]. rewrite IH. reflexivity.
Qed.

Lemma np_sort_length (a : list A) : length (np_sort a) = length a.
Proof.
  unfold np_sort. induction a as [|x a IH]; simpl; [reflexivity|].
  rewrite insert_sorted_length, IH. reflexivity.
Qed.

Lemma quartile_total (a : list A) (k : nat) :
  a <> [] -> k <= 4 -> exists v, quartile a k = Ok v.
Proof.
  intros Hne Hk. unfold quartile.
  pose proof (np_sort_length a) as Hlen.
  assert (0 < length a) by (destruct a; [done|simpl; lia]).
  set (s := np_sort a) in *. set (n := length s) in *.
  assert (Hq : (n - 1) * k / 4 <= n - 1).
  { apply Nat.Div0.div_le_upper_bound. nia. }
  destruct (getitem_lt s ((n - 1) * k / 4)) as (lo & -> & _); [lia|].
  destruct (getitem_lt s (((n - 1) * k / 4 + 1) `min` (n - 1)))
    as (hi & -> & _); [lia|].
  eexists. reflexivity.
Qed.

(** The quartiles of an array of one column: five rows of one entry. *)
Lemma np_quantile_one_column (ar : matrix A) :
  ar <> [] -> rect ar -> ncols ar = 1 ->
  exists q0 q1 q2 q3 q4, np_quantile ar = Ok [[q0]; [q1]; [q2]; [q3]; [q4]].
Proof.
  intros Hne Hrect Hcols. unfold np_quantile. rewrite Hcols.
  destruct (column_total ar 0 Hrect) as [col Hcol]; [lia|].
  assert (Hcne : col <> []).
  { apply column_Ok in Hcol as [_ Hall]. apply Forall2_length in Hall.
    destruct ar; [done|]. destruct col; [discriminate|done]. }
  destruct (quartile_total col 0 Hcne) as [q0 H0]; [lia|].
  destruct (quartile_total col 1 Hcne) as [q1 H1]; [lia|].
  destruct (quartile_total col 2 Hcne) as [q2 H2]; [lia|].
  destruct (quartile_total col 3 Hcne) as [q3 H3]; [lia|].
  destruct (quartile_total col 4 Hcne) as [q4 H4]; [lia|].
  exists q0, q1, q2, q3, q4. simpl.
  rewrite Hcol. simpl. rewrite H0, H1, H2, H3, H4. reflexivity.
Qed.

Lemma pbind_raises {X Y} (m : py X) (k : X -> py Y) (g : rng) (e : exn) :
  m g = Raise e -> (x ← m; k x) g = Raise e.
Proof. intros Hm. unfold mbind, py_bind, pbind. rewrite Hm. reflexivity. Qed.

Lemma pbind_returns {X Y} (m : py X) (k : X -> py Y) (g g1 : rng) (x : X) :
  m g = Ok (x, g1) -> (x ← m; k x) g = k x g1.
Proof. intros Hm. unfold mbind, py_bind, pbind. rewrite Hm. reflexivity. Qed.

Lemma getitem_exn {X} (a : list X) (i : nat) (e : exn) :
  getitem a i = Raise e -> e = IndexError.
Proof. unfold getitem. destruct (a !! i); [discriminate|congruence]. Qed.

Lemma rmapM_exn {X Y} (f : X -> result Y) (xs : list X) (e e0 : exn) :
  (forall x e', f x = Raise e' -> e' = e0) ->
  rmapM f xs = Raise e -> e = e0.
Proof.
  intros Hf. induction xs as [|x xs IH]; simpl; [discriminate|].
  destruct (f x) as [y|e'] eqn:E; simpl.
  - destruct (rmapM f xs); simpl; [discriminate|].
    intros [= <-]. apply IH. reflexivity.
  - intros [= <-]. eapply Hf, E.
Qed.

Lemma in_bucket_exn (ar q : matrix A) (c k : nat) (e : exn) :
  in_bucket ar q c k = Raise e -> e = IndexError.
Proof.
  unfold in_bucket.
  destruct (column ar c) as [col|e1] eqn:E0; simpl.
  - destruct (getitem q k) as [qlo|e1] eqn:E1; simpl;
      [|intros [= <-]; eapply getitem_exn, E1].
    destruct (getitem qlo c) as [lo|e1] eqn:E2; simpl;
      [|intros [= <-]; eapply getitem_exn, E2].
    destruct (getitem q (S k)) as [qhi|e1] eqn:E3; simpl;
      [|intros [= <-]; eapply getitem_exn, E3].
    destruct (getitem qhi c) as [hi|e1] eqn:E4; simpl;
      [discriminate|intros [= <-]; eapply getitem_exn, E4].
  - intros [= <-]. unfold column in E0. case_decide; [|congruence].
    eapply rmapM_exn; [|exact E0]. intros r e'. apply getitem_exn.
Qed.

(** The cell of the three-column loop cannot be read off an array with
    fewer than two columns. *)
Lemma cell_rows_missing_column (ar q : matrix A) (ks : list nat) :
  ncols ar <= 1 -> length ks = 3 -> cell_rows ar q ks = Raise IndexError.
Proof.
  intros Hcols Hks. destruct ks as [|k0 [|k1 [|k2 [|]]]]; try discriminate.
  assert (Hb : in_bucket ar q 1 k1 = Raise IndexError).
  { unfold in_bucket, column. rewrite decide_False by lia. reflexivity. }
  unfold cell_rows. simpl cell_mask. rewrite Hb.
  destruct (in_bucket ar q 0 k0) as [m|e] eqn:E; [reflexivity|].
  apply in_bucket_exn in E as ->. reflexivity.
Qed.

(** On an array with fewer than two columns the function takes the
    branch that reads three columns and fails on the second. *)
Lemma stratified_sampling_missing_column (ar : matrix A) (M : nat) (g : rng) :
  ncols ar <= 1 ->
  exists e, stratified_sampling ar M g = Raise e /\
            (forall q, np_quantile ar = Ok q -> e = IndexError).
Proof.
  intros Hcols. unfold stratified_sampling.
  destruct (np_quantile ar) as [q|e] eqn:Hq.
  - exists IndexError. split; [|reflexivity].
    rewrite (pbind_returns _ _ g g q) by reflexivity.
    rewrite decide_False by lia.
    apply pbind_raises.
    change cells3 with ([0; 0; 0] :: tail cells3). simpl pfold.
    apply pbind_raises. unfold step3. apply pbind_raises.
    rewrite cell_rows_missing_column by (auto; lia). reflexivity.
  - exists e. split; [apply pbind_raises; reflexivity|discriminate].
Qed.

Lemma stratified_sampling_one_column (ar : matrix A) (M : nat) (g : rng) :
  ar <> [] -> rect ar -> ncols ar = 1 ->
  stratified_sampling ar M g = Raise IndexError.
Proof.
  intros Hne Hrect Hcols.
  destruct (np_quantile_one_column ar Hne Hrect Hcols)
    as (q0 & q1 & q2 & q3 & q4 & Hq).
  destruct (stratified_sampling_missing_column ar M g) as (e & -> & He);
    [lia|].
  rewrite (He _ Hq). reflexivity.
Qed.

(** The training step of a swap mapped to the single process 0 fails at
    the first time step. *)
Lemma train_step_domestic (g : globals A) (pf : gmap nat (pf_entry A GP))
      (j key : nat) (r : rng) :
  port_idx g !! j = Some key -> irs_map g !! key = Some [0] ->
  exists e, train_step lib g pf (0, j) r = Raise e.
Proof.
  intros Hkey Hcols. unfold train_step, mbind, py_bind, pbind.
  destruct (train_inputs g 0 j) as [rates_|e] eqn:E; [|simpl; eauto].
  simpl lift.
  pose proof (train_inputs_shape _ _ _ _ E)
    as (key' & cols & Hkey' & Hcols' & Hshape).
  assert (key' = key) by congruence. subst key'.
  assert (cols = [0]) by congruence. subst cols.
  unfold dim_of in Hshape. rewrite decide_False in Hshape by lia.
  simpl in Hshape.
  destruct (stratified_sampling_missing_column rates_ (M g) r) as (e & He & _).
  - destruct rates_ as [|row rates_]; simpl; [lia|].
    inversion Hshape; subst. lia.
  - rewrite He. eauto.
Qed.

Lemma train_domestic (g : globals A) (j key : nat) (r : rng) :
  1 <= nt g -> j < 20 ->
  port_idx g !! j = Some key -> irs_map g !! key = Some [0] ->
  exists e, train lib g r = Raise e.
Proof.
  intros Hnt Hj Hkey Hcols. unfold train.
  apply pfold_raises with (x := (0, j)).
  - apply list_elem_of_bind. exists 0. split; [|apply elem_of_seq; lia].
    apply list_elem_of_bind. exists j. split; [|apply elem_of_seq; lia].
    apply list_elem_of_singleton. reflexivity.
  - intros pf g1. eapply train_step_domestic; eassumption.
Qed.

End Domestic.

Lemma make_irs_map_fold (irs_params : list irs_param) (idxs : list nat)
      (m0 m : gmap nat (list nat)) (key : nat) :
  rfold (fun irs_map i =>
           p ← getitem irs_params i;
           if decide (ccy p = 0)
           then Ok (<[i := [0]]> irs_map)
           else Ok (<[i := [ccy p; ccy p + 10]]> irs_map))
        idxs m0 = Ok m ->
  (key ∈ idxs ->
   exists p, irs_params !! key = Some p /\ m !! key = Some (mapped_processes p)) /\
  (key ∉ idxs -> m !! key = m0 !! key).
Proof.
  revert m0. induction idxs as [|i idxs IH]; intros m0 Hrun; simpl in Hrun.
  - injection Hrun as <-. split; [|reflexivity].
    intros Hin. apply elem_of_nil in Hin. destruct Hin.
  - apply rbind_Ok in Hrun as (m1 & Hstep & Hrest).
    apply rbind_Ok in Hstep as (p & Hp & Hm1). apply getitem_Ok in Hp.
    assert (Em1 : m1 = <[i := mapped_processes p]> m0).
    { unfold mapped_processes. destruct (decide (ccy p = 0)); congruence. }
    clear Hm1. subst m1.
    destruct (IH _ Hrest) as [IHin IHout]. split.
    + intros Hin. destruct (decide (key ∈ idxs)) as [Hin'|Hout]; [auto|].
      apply elem_of_cons in Hin as [->|Hin]; [|tauto].
      exists p. split; [exact Hp|].
      rewrite (IHout Hout). apply lookup_insert_eq.
    + intros Hout. apply not_elem_of_cons in Hout as [Hne Hout].
      rewrite (IHout Hout). apply lookup_insert_ne. congruence.
Qed.

Lemma data_cells_Ok {A} (irs_params : list irs_param)
      (mtm_irs rates_and_fx : list (matrix A)) (M0 : nat) (g : globals A) :
  data_cells irs_params mtm_irs rates_and_fx M0 = Ok g ->
  port_idx g = make_port_idx irs_params /\
  make_irs_map irs_params (make_port_idx irs_params) = Ok (irs_map g) /\
  nt g = length (arange10 1 (length mtm_irs)) /\ M g = M0.
Proof.
  unfold data_cells. intros Hrun.
  apply rbind_Ok in Hrun as (m & Hm & Hrun).
  apply rbind_Ok in Hrun as ([[a b] c] & _ & Hrun).
  injection Hrun as <-. simpl. auto.
Qed.

(** C7 (what the code does): when one of the first 20 swaps of the
    counterparty has currency code 0, the training loop raises at its
    first time step, where the inputs of that swap have one column: the
    loop does not fit a regressor for every instrument and time step. *)
Theorem training_fails_on_domestic_swap {A GP : Type} `{Num A}
        (lib : Lib A GP) (irs_params : list irs_param)
        (mtm_irs rates_and_fx : list (matrix A)) (M0 : nat) (g : globals A)
        (j key : nat) (r : rng) :
  data_cells irs_params mtm_irs rates_and_fx M0 = Ok g ->
  2 <= length mtm_irs -> j < 20 ->
  port_idx g !! j = Some key ->
  irs_params !! key = Some {| cpty := 0; ccy := 0 |} ->
  irs_map g !! key = Some [0] /\
  (forall pf r0, exists e, train_step lib g pf (0, j) r0 = Raise e) /\
  exists e, train lib g r = Raise e.
Proof.
  intros Hdata HT Hj Hkey Hp.
  apply data_cells_Ok in Hdata as (Hport & Hmap & Hnt & _).
  assert (Hcols : irs_map g !! key = Some [0]).
  { unfold make_irs_map in Hmap.
    destruct (make_irs_map_fold _ _ _ _ key Hmap) as [Hin _].
    destruct Hin as (p & Hp' & Hm).
    - rewrite <- Hport. eapply list_elem_of_lookup_2, Hkey.
    - assert (p = {| cpty := 0; ccy := 0 |}) by congruence. subst p.
      exact Hm. }
  split; [exact Hcols|]. split.
  - intros pf r0. eapply train_step_domestic; eassumption.
  - eapply train_domestic; try eassumption.
    rewrite Hnt. unfold arange10. rewrite length_fmap, length_seq.
    apply Nat.div_le_lower_bound; lia.
Qed.

Lemma domestic_g_ok :
  data_cells domestic_irs_params (demo_cube demo_price 21)
             (demo_cube demo_rate 12) 64 = Ok domestic_g.
Proof. vm_compute. reflexivity. Qed.

(** The loop fits the first three swaps and stops at the fourth. *)
Lemma domestic_training_IndexError :
  train demo_lib domestic_g g0 = Raise IndexError.
Proof. vm_compute. reflexivity. Qed.

Lemma training_fails_on_domestic_swap_witness :
  irs_map domestic_g !! 3 = Some [0] /\
  (forall pf r0, exists e, train_step demo_lib domestic_g pf (0, 3) r0 = Raise e) /\
  exists e, train demo_lib domestic_g g0 = Raise e.
Proof.
  apply (training_fails_on_domestic_swap
           demo_lib domestic_irs_params (demo_cube demo_price 21)
           (demo_cube demo_rate 12) 64 domestic_g 3 3 g0 domestic_g_ok).
  - vm_compute. lia.
  - lia.
  - reflexivity.
  - reflexivity.
Defined.

(** ** The scenarios behind the two portfolio values *)

Section SharedScenarios.
Context {A GP : Type} `{Num A} (lib : Lib A GP).
Local Open Scope num_scope.

Lemma clip_loop_rows (e : pf_entry A GP) (i : nat) (mn mx : list A)
      (ks : list nat) (test0 test : matrix A) :
  pf_min e !! i = Some (Some mn) -> pf_max e !! i = Some (Some mx) ->
  rfold (clip_column e i) ks test0 = Ok test ->
  test = (fun row => foldl (clip_row mn mx) row ks) <$> test0.
Proof.
  intros Hmn Hmx. revert test0. induction ks as [|k ks IH]; intros test0 Hrun;
    simpl in Hrun.
  - injection Hrun as <-. simpl. symmetry. apply list_fmap_id.
  - apply rbind_Ok in Hrun as (test1 & Hstep & Hrest).
    apply clip_column_Ok in Hstep
      as (mn' & mx' & lo & hi & Hmn' & Hmx' & Hlo & Hhi & ->).
    assert (mn' = mn) by congruence. assert (mx' = mx) by congruence. subst.
    rewrite (IH _ Hrest), <- list_fmap_compose.
    apply list_fmap_ext. intros _ row _. simpl. f_equal.
    unfold clip_row. rewrite Hlo, Hhi. reflexivity.
Qed.

Lemma columns_lookup (ar : matrix A) (cs : list nat) (m : matrix A) (s : nat)
      (out : list A) :
  columns ar cs = Ok m -> m !! s = Some out ->
  exists row, ar !! s = Some row /\ rmapM (getitem row) cs = Ok out.
Proof.
  unfold columns. rewrite rmapM_Ok. intros Hall Hs.
  destruct (Forall2_lookup_r _ _ _ _ _ Hall Hs) as (row & Hrow & Hout).
  eauto.
Qed.

Lemma take_idx_lookup {X} (a : list X) (idx : list nat) (out : list X)
      (m s : nat) :
  take_idx a idx = Ok out -> idx !! m = Some s ->
  exists x, a !! s = Some x /\ out !! m = Some x.
Proof.
  rewrite take_idx_Ok. intros Hall Hm.
  destruct (Forall2_lookup_l _ _ _ _ _ Hall Hm) as (x & Hx & Hs). eauto.
Qed.

(** Row [m] of the clipped test inputs is made of the factors of the
    scenario [idx[m]]. *)
Lemma test_inputs_rows (g : globals A) (pf : gmap nat (pf_entry A GP))
      (i j : nat) (idx : list nat) (test : matrix A) :
  test_inputs g pf i j idx = Ok test ->
  exists key cols e mn mx,
    port_idx g !! j = Some key /\ irs_map g !! key = Some cols /\
    pf !! key = Some e /\
    pf_min e !! i = Some (Some mn) /\ pf_max e !! i = Some (Some mx) /\
    length test = length idx /\
    forall m s,
      idx !! m = Some s ->
      exists factors,
        scenario_factors g i cols s = Ok factors /\
        test !! m =
        Some (foldl (clip_row mn mx) factors (seq 0 (dim_of cols i))).
Proof.
  intros Hrun. unfold test_inputs in Hrun.
  apply rbind_Ok in Hrun as (cur & Hcur & Hrun).
  apply rbind_Ok in Hrun as (key & Hkey & Hrun).
  apply rbind_Ok in Hrun as (cols & Hcols & Hrun).
  apply rbind_Ok in Hrun as (rates & Hrates & Hrun).
  apply rbind_Ok in Hrun as (prev & Hprev & Hrun).
  apply rbind_Ok in Hrun as (c0 & Hc0 & Hrun).
  apply rbind_Ok in Hrun as (prev_rates & Hpr & Hrun).
  apply rbind_Ok in Hrun as ([d test0] & Hsel & Hrun).
  apply rbind_Ok in Hrun as (e & He & Hloop). simpl in Hloop.
  assert (Hd : d = dim_of cols i /\ length test0 = length idx /\
               forall m s, idx !! m = Some s ->
                 exists factors, scenario_factors g i cols s = Ok factors /\
                                 test0 !! m = Some factors).
  { unfold dim_of, scenario_factors. rewrite Hcur, Hprev, Hc0. simpl.
    apply column_Ok in Hpr as [_ Hpr].
    case_decide as Hi.
    - apply rbind_Ok in Hsel as (v & Hv & Hsel).
      apply rbind_Ok in Hsel as (m0 & Hm0 & Hsel). injection Hsel as <- <-.
      pose proof (take_idx_shape _ _ _ Hv) as (Lv & _ & _).
      pose proof (take_idx_shape _ _ _ Hm0) as (Lm & _ & _).
      split; [reflexivity|]. split; [rewrite length_zip_with; lia|].
      intros m s Hs.
      destruct (take_idx_lookup _ _ _ _ _ Hv Hs) as (x & Hx & Hvm).
      destruct (take_idx_lookup _ _ _ _ _ Hm0 Hs) as (out & Hout & Hmm).
      destruct (columns_lookup _ _ _ _ _ Hrates Hout) as (row & Hrow & Hr).
      destruct (Forall2_lookup_r _ _ _ _ _ Hpr Hx) as (prow & Hprow & Hpx).
      exists (x :: out). split.
      + rewrite (proj2 (getitem_Ok _ _ _) Hrow). simpl. rewrite Hr. simpl.
        rewrite (proj2 (getitem_Ok _ _ _) Hprow). simpl.
        rewrite (proj2 (getitem_Ok _ _ _) Hpx). reflexivity.
      + rewrite lookup_zip_with, Hvm. simpl. rewrite Hmm. reflexivity.
    - apply rbind_Ok in Hsel as (m0 & Hm0 & Hsel). injection Hsel as <- <-.
      pose proof (take_idx_shape _ _ _ Hm0) as (Lm & _ & _).
      split; [reflexivity|]. split; [exact Lm|].
      intros m s Hs.
      destruct (take_idx_lookup _ _ _ _ _ Hm0 Hs) as (out & Hout & Hmm).
      destruct (columns_lookup _ _ _ _ _ Hrates Hout) as (row & Hrow & Hr).
      exists out. split; [|exact Hmm].
      rewrite (proj2 (getitem_Ok _ _ _) Hrow). simpl. rewrite Hr. reflexivity. }
  destruct Hd as (-> & Hlen & Hrows).
  apply getitem_Ok in Hkey, Hc0. apply dict_get_Ok in Hcols, He.
  assert (Hdim : (0 < dim_of cols i)%nat).
  { unfold dim_of. case_decide; [lia|]. apply lookup_lt_Some in Hc0. lia. }
  assert (Hslots : exists mn mx, pf_min e !! i = Some (Some mn) /\
                                 pf_max e !! i = Some (Some mx)).
  { destruct (dim_of cols i) as [|d] eqn:Ed; [lia|].
    simpl in Hloop. apply rbind_Ok in Hloop as (t1 & Hstep & _).
    apply clip_column_Ok in Hstep as (mn & mx & ? & ? & Hmn & Hmx & _). eauto. }
  destruct Hslots as (mn & mx & Hmn & Hmx).
  pose proof (clip_loop_rows _ _ _ _ _ _ _ Hmn Hmx Hloop) as ->.
  exists key, cols, e, mn, mx.
  do 5 (split; [assumption|]). split; [rewrite length_fmap; exact Hlen|].
  intros m s Hs. destruct (Hrows m s Hs) as (factors & Hf & Hm).
  exists factors. split; [exact Hf|].
  rewrite list_lookup_fmap, Hm. reflexivity.
Qed.





End SharedScenarios.




(** ** What a training step fits *)

Section Fit.
Context {A GP : Type} `{Num A} (lib : Lib A GP).

Lemma fit_rows_same {X} (rows : nat) (xs out : list X) :
  fit_rows rows xs = Ok out -> length xs <> 1 -> out = xs.
Proof.
  unfold fit_rows. case_decide; [congruence|].
  destruct xs as [|x [|y xs]]; try discriminate. simpl. lia.
Qed.

(** With more than one scenario in the arrays of the step, row [s] of the
    training inputs is made of the factors of scenario [s]. *)
Lemma train_inputs_rows (g : globals A) (i j : nat) (rates_ : matrix A) :
  (forall m, rates_fx g !! i = Some m -> length m <> 1) ->
  (forall m, prev_rates_fx g !! i = Some m -> length m <> 1) ->
  train_inputs g i j = Ok rates_ ->
  exists key cols,
    port_idx g !! j = Some key /\ irs_map g !! key = Some cols /\
    forall s row,
      rates_ !! s = Some row -> scenario_factors g i cols s = Ok row.
Proof.
  unfold train_inputs. intros Hcur1 Hprev1 Hrun.
  apply rbind_Ok in Hrun as (key & Hkey & Hrun).
  apply rbind_Ok in Hrun as (cols & Hcols & Hrun).
  exists key, cols. apply getitem_Ok in Hkey. apply dict_get_Ok in Hcols.
  split; [exact Hkey|]. split; [exact Hcols|].
  intros s row Hrow. unfold scenario_factors.
  case_decide as Hi.
  - apply rbind_Ok in Hrun as (prev & Hprev & Hrun).
    apply rbind_Ok in Hrun as (c0 & Hc0 & Hrun).
    apply rbind_Ok in Hrun as (v & Hv & Hrun).
    apply rbind_Ok in Hrun as (v' & Hv' & Hrun).
    apply rbind_Ok in Hrun as (cur & Hcur & Hrun).
    apply rbind_Ok in Hrun as (m & Hm & Hrun).
    apply rbind_Ok in Hrun as (m' & Hm' & Hrun).
    injection Hrun as <-.
    pose proof (columns_shape _ _ _ Hm) as [Lm _].
    apply column_Ok in Hv as [_ Hv].
    pose proof (Forall2_length _ _ _ Hv) as Lv.
    apply fit_rows_same in Hv' as ->;
      [|rewrite <- Lv; apply Hprev1, getitem_Ok, Hprev].
    apply fit_rows_same in Hm' as ->;
      [|rewrite Lm; apply Hcur1, getitem_Ok, Hcur].
    rewrite lookup_zip_with in Hrow.
    destruct (v !! s) as [x|] eqn:Ex; [|discriminate]. simpl in Hrow.
    destruct (m !! s) as [out|] eqn:Eo; [|discriminate].
    injection Hrow as <-.
    destruct (columns_lookup _ _ _ _ _ Hm Eo) as (crow & Hcrow & Hr).
    destruct (Forall2_lookup_r _ _ _ _ _ Hv Ex) as (prow & Hprow & Hpx).
    rewrite Hcur. simpl. rewrite (proj2 (getitem_Ok _ _ _) Hcrow). simpl.
    rewrite Hr. simpl. rewrite Hprev. simpl. rewrite Hc0. simpl.
    rewrite (proj2 (getitem_Ok _ _ _) Hprow). simpl.
    rewrite (proj2 (getitem_Ok _ _ _) Hpx). reflexivity.
  - apply rbind_Ok in Hrun as (cur & Hcur & Hm).
    destruct (columns_lookup _ _ _ _ _ Hm Hrow) as (crow & Hcrow & Hr).
    rewrite Hcur. simpl. rewrite (proj2 (getitem_Ok _ _ _) Hcrow). simpl.
    rewrite Hr. reflexivity.
Qed.

(** A training step that returns has fitted one regressor for its
    instrument and time step: on the rescaled factors and the rescaled
    prices of that instrument at that step, both read at the indices that
    [stratified_sampling] returned, and has stored it in the slot of the
    step. *)
Lemma train_step_fits (g : globals A) (pf pf' : gmap nat (pf_entry A GP))
      (i j : nat) (r r' : rng) :
  (forall m, rates_fx g !! i = Some m -> length m <> 1) ->
  (forall m, prev_rates_fx g !! i = Some m -> length m <> 1) ->
  train_step lib g pf (i, j) r = Ok (pf', r') ->
  exists key cols rates_ idx rates_sc_ mtm_i irs_prices irs_prices_sc_ X y gp e',
    port_idx g !! j = Some key /\ irs_map g !! key = Some cols /\
    train_inputs g i j = Ok rates_ /\
    (forall s row,
        rates_ !! s = Some row -> scenario_factors g i cols s = Ok row) /\
    stratified_sampling rates_ (M g) r = Ok (idx, r') /\
    rescale_inputs rates_ = Ok rates_sc_ /\
    mtm g !! i = Some mtm_i /\ mtm_i !! j = Some irs_prices /\
    rescale_prices irs_prices = Ok irs_prices_sc_ /\
    take_idx rates_sc_ idx = Ok X /\ take_idx irs_prices_sc_ idx = Ok y /\
    gp_fit lib X y = Ok gp /\
    pf' !! key = Some e' /\ GPs e' !! i = Some (Some gp).
Proof.
  unfold train_step. intros Hcur1 Hprev1 Hrun.
  apply pbind_Ok in Hrun as (rates_ & r0 & Hrates & Hrun).
  apply lift_Ok in Hrates as [Hrates ->].
  apply pbind_Ok in Hrun as (idx & r1 & Hidx & Hrun).
  apply lift_Ok in Hrun as [Hrun ->].
  apply rbind_Ok in Hrun as (rates_sc_ & Hsc & Hrun).
  apply rbind_Ok in Hrun as (mtm_i & Hmtm & Hrun).
  apply rbind_Ok in Hrun as (irs_prices & Hprices & Hrun).
  apply rbind_Ok in Hrun as (irs_prices_sc_ & Hpsc & Hrun).
  apply rbind_Ok in Hrun as (X & HX & Hrun).
  apply rbind_Ok in Hrun as (y & Hy & Hrun).
  apply rbind_Ok in Hrun as (gp & Hgp & Hrun).
  apply rbind_Ok in Hrun as (key & Hkey & Hrun).
  apply rbind_Ok in Hrun as (e & He & Hrun).
  apply rbind_Ok in Hrun as (gps & Hgps & Hrun).
  repeat (apply rbind_Ok in Hrun as (? & _ & Hrun)).
  injection Hrun as <-.
  destruct (train_inputs_rows _ _ _ _ Hcur1 Hprev1 Hrates)
    as (key' & cols & Hkey' & Hcols & Hrows).
  apply getitem_Ok in Hkey, Hmtm, Hprices.
  assert (key' = key) by congruence. subst key'.
  apply setitem_Ok in Hgps as [Hi ->].
  exists key, cols, rates_, idx, rates_sc_, mtm_i, irs_prices, irs_prices_sc_,
    X, y, gp. eexists.
  do 12 (split; [eassumption|]).
  split; [apply lookup_insert_eq|]. simpl.
  apply list_lookup_insert_eq. exact Hi.
Qed.

End Fit.

(** ** The error bars with [sqrt] bound *)

Section Bounds.
Context {A GP : Type} `{NumLaws A} (lib : Lib A GP).
Local Open Scope num_scope.

Lemma error_bar_ordered (lo mid hi mu num s : A) :
  lo <= mid -> mid <= hi -> f0 <= num -> f0 < s ->
  lo + (mu - of_int 2 * (num / s)) <= mid + mu /\
  mid + mu <= hi + (mu + of_int 2 * (num / s)).
Proof.
  intros Hlo Hhi Hnum Hs.
  assert (He : f0 <= of_int 2 * (num / s)).
  { apply fmul_nonneg; [apply of_int_nonneg; lia | apply fdiv_nonneg; auto]. }
  split; apply fadd_mono; auto using fsub_nonneg_le, fadd_nonneg.
Qed.

Lemma cva_step_ordered_with_sqrt (ns : gmap string (A -> result A))
      (sqrt : A -> A) (M : nat) (r t0 dt : A) (pi : pi_t A) (dPD : matrix A)
      (CVA0 : CVA_t A) (i : nat) :
  ns !! "sqrt"%string = Some (fun x => Ok (sqrt x)) ->
  f0 < sqrt (of_int (Z.of_nat M)) ->
  (forall a, f0 <= np_std lib a) -> (forall x, f0 <= np_exp lib x) ->
  f0 <= dt ->
  (i < length dPD)%nat -> (i < length (pi_tilde pi))%nat ->
  (i < length (pi_exact pi))%nat ->
  bounds_ordered CVA0 ->
  exists CVA, cva_step lib ns M r t0 dt pi dPD CVA0 i = Ok CVA /\
              bounds_ordered CVA.
Proof.
  intros Hns Hs Hstd Hexp Hdt Ld Lt Lx (H1 & H2 & H3 & H4).
  destruct (getitem_lt dPD i Ld) as (d & Hd & _).
  destruct (getitem_lt (pi_tilde pi) i Lt) as (t & Ht & _).
  destruct (getitem_lt (pi_exact pi) i Lx) as (x & Hx & _).
  unfold cva_step. rewrite Hd. simpl. rewrite Ht. simpl.
  unfold call_name. rewrite Hns. simpl. rewrite Hx. simpl.
  eexists. split; [reflexivity|].
  assert (Hnum : forall a, f0 <= np_std lib a *
                        np_exp lib (- r * (of_int (Z.of_nat i) * dt - t0)) * dt).
  { intros a. repeat apply fmul_nonneg; auto. }
  unfold bounds_ordered. simpl.
  destruct (error_bar_ordered _ _ _
              (np_mean32 (mul32 d t) *
               np_exp lib (- r * (of_int (Z.of_nat i) * dt - t0)) * dt)
              _ _ H1 H2 (Hnum (mul32 d t)) Hs) as [Ha Hb].
  destruct (error_bar_ordered _ _ _
              (np_mean32 (mul32 d x) *
               np_exp lib (- r * (of_int (Z.of_nat i) * dt - t0)) * dt)
              _ _ H3 H4 (Hnum (mul32 d x)) Hs) as [Hc Hd'].
  auto.
Qed.

(** Were [sqrt] bound to a function with positive values, the second loop
    would return, and for a time step that is not negative, deviations
    and discount factors that are not negative and a recovery of at most
    1, the bounds would be in order. *)
Lemma cva_loop_ordered_with_sqrt (ns : gmap string (A -> result A))
      (sqrt : A -> A) (sp : sim_params) (mp : model_params A)
      (dm : def_model A) (dt : A) (pi : pi_t A) (dPD : matrix A) :
  ns !! "sqrt"%string = Some (fun x => Ok (sqrt x)) ->
  f0 < sqrt (of_int (Z.of_nat (sp_M sp))) ->
  (forall a, f0 <= np_std lib a) -> (forall x, f0 <= np_exp lib x) ->
  f0 <= dt -> recovery dm <= f1 ->
  length dPD = sp_nt sp -> length (pi_tilde pi) = sp_nt sp ->
  length (pi_exact pi) = sp_nt sp ->
  exists CVA, cva_loop lib ns sp mp dm dt pi dPD = Ok CVA /\ bounds_ordered CVA.
Proof.
  intros Hns Hs Hstd Hexp Hdt Hrec Ld Lt Lx. unfold cva_loop.
  assert (Hloop : forall (ks : list nat) (CVA0 : CVA_t A),
             Forall (fun i => (i < sp_nt sp)%nat) ks -> bounds_ordered CVA0 ->
             exists CVA,
               rfold (cva_step lib ns (sp_M sp) (mp_r mp) (mp_t0 mp) dt pi dPD)
                     ks CVA0 = Ok CVA /\ bounds_ordered CVA).
  { induction ks as [|i ks IH]; intros CVA0 Hks Hord; simpl.
    - eauto.
    - inversion Hks as [|? ? Hi Hks']; subst.
      destruct (cva_step_ordered_with_sqrt
                  ns sqrt (sp_M sp) (mp_r mp) (mp_t0 mp) dt pi dPD CVA0 i)
        as (CVA1 & Hstep & Hord1); auto; try lia.
      rewrite Hstep. simpl. apply IH; assumption. }
  destruct (Hloop (seq 0 (sp_nt sp))
                  {| cva_tilde := f0; cva_exact := f0; cva_exact_up := f0;
                     cva_exact_down := f0; cva_tilde_up := f0;
                     cva_tilde_down := f0 |}) as (CVA & Hrun & Hord).
  - apply Forall_forall. intros i Hi. apply elem_of_seq in Hi. lia.
  - unfold bounds_ordered. simpl. auto using fle_refl.
  - rewrite Hrun. simpl. eexists. split; [reflexivity|].
    assert (Hc : f0 <= f1 - recovery dm) by apply fsub_nonneg, Hrec.
    destruct Hord as (H1 & H2 & H3 & H4).
    unfold bounds_ordered, scale_cva. simpl.
    auto using fmul_mono.
Qed.

End Bounds.

(** ** Stratified sampling: what a call that returns has done *)

Lemma random_choice_inv {X} (a : list X) (n : nat) (g g' : rng) (out : list X) :
  random_choice a n g = Ok (out, g') ->
  length out = n /\ Forall (fun x => x ∈ a) out /\ (a = [] -> n = 0).
Proof.
  destruct a as [|x0 a].
  - unfold random_choice. case_decide; [|discriminate].
    intros [= <- <-]. subst n. repeat split. constructor.
  - intros Hrun.
    destruct (random_choice_Ok (x0 :: a) n g) as (out' & Hout & Hlen & Hin);
      [discriminate|].
    rewrite Hout in Hrun. injection Hrun as <- <-.
    repeat split; [exact Hlen|exact Hin|discriminate].
Qed.

Lemma slice_assign_Forall {X} (P : X -> Prop) (a v a' : list X)
      (start stop : nat) :
  slice_assign a start stop v = Ok a' -> Forall P a -> Forall P v ->
  Forall P a'.
Proof.
  unfold slice_assign. intros Hrun Ha Hv. case_decide.
  - injection Hrun as <-.
    repeat (apply Forall_app; split);
      [apply Forall_take, Ha|exact Hv|apply Forall_drop, Ha].
  - destruct v as [|x [|y v]]; try discriminate. injection Hrun as <-.
    repeat (apply Forall_app; split);
      [apply Forall_take, Ha| |apply Forall_drop, Ha].
    apply Forall_replicate. inversion Hv; assumption.
Qed.

(** An assignment of two or more values to a slice succeeds only when the
    whole slice lies inside the array. *)
Lemma slice_assign_long {X} (a v a' : list X) (start stop : nat) :
  2 <= length v -> stop = start + length v ->
  slice_assign a start stop v = Ok a' ->
  stop <= length a /\ a' = take start a ++ v ++ drop stop a.
Proof.
  intros Hv -> Hrun.
  assert (Hfit : start + length v <= length a).
  { unfold slice_assign in Hrun. case_decide as Hlen; [lia|].
    destruct v as [|x [|y v]]; try discriminate. simpl in Hv. lia. }
  split; [exact Hfit|].
  rewrite slice_assign_fits in Hrun by exact Hfit. congruence.
Qed.

Lemma slice_assign_short {X} (a v : list X) (start stop : nat) :
  2 <= length v -> stop = start + length v -> length a < stop ->
  slice_assign a start stop v = Raise ValueError.
Proof.
  intros Hv -> Hshort. unfold slice_assign.
  rewrite decide_False by lia.
  destruct v as [|x [|y v]]; simpl in Hv; try lia. reflexivity.
Qed.

Section SamplingLoops.
Context {A : Type} `{Num A}.

Lemma step2_loop_inv (ar q : matrix A) (num_samples : nat)
      (cells : list (list nat)) (idx0 idx : list nat) (g g' : rng) :
  pfold (step2 ar q num_samples) cells idx0 g = Ok (idx, g') ->
  exists chunks,
    idx = idx0 ++ concat chunks /\
    Forall2 (drawn_from ar q num_samples) cells chunks.
Proof.
  revert idx0 g. induction cells as [|ks cells IH]; intros idx0 g; simpl.
  - intros [= <- <-]. exists []. simpl. rewrite app_nil_r.
    split; [reflexivity|constructor].
  - intros Hrun. apply pbind_Ok in Hrun as (idx1 & g1 & Hstep & Hrest).
    apply IH in Hrest as (chunks & -> & Hall).
    unfold step2 in Hstep.
    apply pbind_Ok in Hstep as (rows & g2 & Hrows & Hstep).
    apply lift_Ok in Hrows as [Hrows ->].
    apply pbind_Ok in Hstep as (chunk & g3 & Hchunk & Hstep).
    apply mret_py_Ok in Hstep as [-> ->].
    exists (chunk :: chunks). simpl. rewrite app_assoc.
    split; [reflexivity|]. constructor; [|exact Hall].
    exists rows. split; [apply cell_rows_members, Hrows|].
    case_decide as Hlt.
    + apply mret_py_Ok in Hchunk as [-> _].
      split; [rewrite length_take; lia|]. split; [|reflexivity].
      apply Forall_forall. intros r Hr.
      apply elem_of_take in Hr as (p & Hp & _).
      eapply list_elem_of_lookup_2, Hp.
    + apply random_choice_inv in Hchunk as (Hlen & Hin & _).
      split; [exact Hlen|]. split; [exact Hin|]. lia.
Qed.

Lemma step3_loop_inv (ar q : matrix A) (num_samples : nat)
      (cells : list (list nat)) (idx0 idx : list nat) (g g' : rng) :
  pfold (step3 ar q num_samples) cells idx0 g = Ok (idx, g') ->
  exists chunks,
    idx = idx0 ++ concat chunks /\
    Forall2 (drawn_or_skipped ar q num_samples) cells chunks.
Proof.
  revert idx0 g. induction cells as [|ks cells IH]; intros idx0 g; simpl.
  - intros [= <- <-]. exists []. simpl. rewrite app_nil_r.
    split; [reflexivity|constructor].
  - intros Hrun. apply pbind_Ok in Hrun as (idx1 & g1 & Hstep & Hrest).
    apply IH in Hrest as (chunks & -> & Hall).
    unfold step3 in Hstep.
    apply pbind_Ok in Hstep as (rows & g2 & Hrows & Hstep).
    apply lift_Ok in Hrows as [Hrows ->].
    assert (Hchunk : exists chunk,
               idx1 = idx0 ++ chunk /\
               drawn_or_skipped ar q num_samples ks chunk).
    { case_decide as Hlt; [|case_decide as Hpos].
      - apply mret_py_Ok in Hstep as [-> _].
        exists (take num_samples rows). split; [reflexivity|].
        exists rows. split; [apply cell_rows_members, Hrows|].
        split; [|split; [|split]].
        + apply Forall_forall. intros r Hr.
          apply elem_of_take in Hr as (p & Hp & _).
          eapply list_elem_of_lookup_2, Hp.
        + intros ->. simpl in Hlt. lia.
        + intros _. rewrite length_take. lia.
        + reflexivity.
      - apply pbind_Ok in Hstep as (chunk & g3 & Hchunk & Hstep).
        apply mret_py_Ok in Hstep as [-> _].
        apply random_choice_inv in Hchunk as (Hlen & Hin & _).
        exists chunk. split; [reflexivity|].
        exists rows. split; [apply cell_rows_members, Hrows|]. split; [exact Hin|].
        split; [intros ->; simpl in Hpos; lia|].
        split; [intros _; exact Hlen|lia].
      - apply mret_py_Ok in Hstep as [-> _].
        exists []. split; [rewrite app_nil_r; reflexivity|].
        exists rows. split; [apply cell_rows_members, Hrows|]. split; [constructor|].
        split; [reflexivity|].
        split; [destruct rows; [done|simpl in Hpos; lia]|lia]. }
    destruct Hchunk as (chunk & -> & Hdrawn).
    exists (chunk :: chunks). simpl. rewrite app_assoc.
    split; [reflexivity|]. constructor; assumption.
Qed.

Lemma skipped_chunks_length (ar q : matrix A) (num_samples : nat)
      (cells chunks : list (list nat)) :
  Forall2 (drawn_or_skipped ar q num_samples) cells chunks ->
  (exists k, counts (fun ks => exists r, in_cell ar q ks r) cells k /\
             k <= length cells /\
             length (concat chunks) = k * num_samples) /\
  Forall (fun r => r < length ar) (concat chunks).
Proof.
  induction 1 as [|ks chunk cells chunks
                    (rows & [_ Hmem] & Hin & Hnil & Hlen & _) _ IH];
    simpl; [split; [exists 0; split; [constructor|split; [lia|reflexivity]]
                   |constructor]|].
  destruct IH as [(k & Hc & Hk & IHlen) IHin]. split.
  - rewrite length_app, IHlen.
    destruct rows as [|r rows].
    + rewrite Hnil by reflexivity. exists k. simpl.
      split; [|split; lia]. apply counts_no; [|exact Hc].
      intros [r Hr]. apply Hmem in Hr. apply elem_of_nil in Hr. exact Hr.
    + rewrite Hlen by discriminate. exists (S k). simpl.
      split; [|split; lia]. apply counts_yes; [|exact Hc].
      exists r. apply Hmem. left.
  - apply Forall_app. split; [|exact IHin].
    rewrite Forall_forall in Hin |- *. intros r Hr.
    eapply in_cell_bound, Hmem, Hin, Hr.
Qed.

End SamplingLoops.

Lemma stratified_sampling_returns_rows {A : Type} `{Num A}
      (ar : matrix A) (M : nat) (g g' : rng) (idx : list nat) :
  stratified_sampling ar M g = Ok (idx, g') ->
  2 <= ncols ar /\ 4 ^ ncols ar <= M /\
  2 * ncols ar <= length idx /\ length idx <= M /\
  Forall (fun r => r < length ar) idx /\
  (ncols ar = 2 -> length idx = 16 * (M / 16)) /\
  exists q k,
    np_quantile ar = Ok q /\
    counts (fun ks => exists r, in_cell ar q ks r)
           (if decide (ncols ar = 2) then cells2 else cells3) k /\
    k <= 64 /\ (ncols ar = 2 -> k = 16) /\
    length idx = k * (M / 4 ^ ncols ar).
Proof.
  intros Hrun.
  assert (Hdim : 2 <= ncols ar).
  { destruct (decide (2 <= ncols ar)) as [|Hsmall]; [assumption|].
    destruct (stratified_sampling_missing_column ar M g) as (e & He & _);
      [lia|congruence]. }
  unfold stratified_sampling in Hrun.
  apply pbind_Ok in Hrun as (q & g1 & Hq & Hrun).
  apply lift_Ok in Hq as [Hq ->].
  apply pbind_Ok in Hrun as (idx1 & g2 & Hloop & Hrun).
  apply pbind_Ok in Hrun as (idx_min & g3 & Himin & Hrun).
  apply pbind_Ok in Hrun as (idx_max & g4 & Himax & Hrun).
  apply pbind_Ok in Hrun as (idx2 & g5 & Hs1 & Hrun).
  apply pbind_Ok in Hrun as (idx3 & g6 & Hs2 & Hrun).
  apply mret_py_Ok in Hrun as [-> _].
  apply lift_Ok in Himin as [Himin _]. apply lift_Ok in Himax as [Himax _].
  apply lift_Ok in Hs1 as [Hs1 _]. apply lift_Ok in Hs2 as [Hs2 _].
  pose proof (axis0_length _ _ _ Himin) as Lmin.
  pose proof (axis0_length _ _ _ Himax) as Lmax.
  pose proof (axis0_arg_bound _ _ _ np_argmin_lt Himin) as Bmin.
  pose proof (axis0_arg_bound _ _ _ np_argmax_lt Himax) as Bmax.
  pose proof (slice_assign_length _ _ _ _ _ Hs1) as L1.
  pose proof (slice_assign_length _ _ _ _ _ Hs2) as L2.
  destruct (slice_assign_long idx2 idx_max idx3 (ncols ar) (2 * ncols ar))
    as [Hfit _]; [lia|lia|exact Hs2|].
  rewrite L1 in Hfit.
  assert (Hshape : (ncols ar = 2 -> length idx1 = 16 * (M / 16)) /\
                   (exists k,
                       counts (fun ks => exists r, in_cell ar q ks r)
                              (if decide (ncols ar = 2) then cells2 else cells3)
                              k /\
                       k <= 64 /\ (ncols ar = 2 -> k = 16) /\
                       length idx1 = k * (M / 4 ^ ncols ar)) /\
                   Forall (fun r => r < length ar) idx1).
  { revert Hloop. destruct (decide (ncols ar = 2)) as [Hd|Hd]; intros Hloop.
    - apply step2_loop_inv in Hloop as (chunks & -> & Hall).
      pose proof (drawn_chunks_length _ _ _ _ _ Hall) as [Hlen Hin].
      change (length cells2) with 16 in Hlen.
      simpl app in *. rewrite Hd in *. change (4 ^ 2) with 16 in *.
      assert (Hns : 1 <= M / 16) by lia.
      apply (drawn_cells_counted _ _ _ _ _ Hns) in Hall.
      change (length cells2) with 16 in Hall.
      split; [lia|]. split; [|exact Hin].
      exists 16. split; [exact Hall|]. split; [lia|]. split; [reflexivity|lia].
    - apply step3_loop_inv in Hloop as (chunks & -> & Hall).
      apply skipped_chunks_length in Hall as [(k & Hc & Hk & Hlen) Hin].
      change (length cells3) with 64 in Hk.
      simpl app. split; [tauto|]. split; [|exact Hin].
      exists k. split; [exact Hc|]. split; [exact Hk|]. split; [tauto|exact Hlen]. }
  destruct Hshape as (H2 & (k & Hc & Hk & Hk2 & Hlen) & Hin).
  split; [exact Hdim|].
  assert (Hpos : 0 < M / 4 ^ ncols ar) by nia.
  split.
  { destruct (decide (4 ^ ncols ar <= M)) as [|Hsmall]; [assumption|].
    rewrite Nat.div_small in Hpos by lia. lia. }
  split; [lia|]. split.
  { rewrite L2, L1. destruct (decide (ncols ar = 2)) as [Hd|Hd].
    - rewrite (H2 Hd). apply Nat.Div0.mul_div_le.
    - rewrite Hlen.
      assert (H64 : M / 4 ^ ncols ar <= M / 64).
      { apply Nat.div_le_compat_l. split; [lia|].
        change 64 with (4 ^ 3). apply Nat.pow_le_mono_r; lia. }
      pose proof (Nat.Div0.mul_div_le M 64). nia. }
  split.
  - eapply slice_assign_Forall; [exact Hs2| |exact Bmax].
    eapply slice_assign_Forall; [exact Hs1|exact Hin|exact Bmin].
  - split; [intros Hd; rewrite L2, L1; auto|].
    exists q, k. split; [exact Hq|]. split; [exact Hc|]. split; [exact Hk|].
    split; [exact Hk2|]. rewrite L2, L1. exact Hlen.
Qed.

(** X1: a call of [stratified_sampling] that returns was made on an array
    of at least two columns with [M >= 4 ** dim]; the index array it
    returns holds at least [2 * dim] and at most [M] entries, every one of
    them a row of the array; it has [k * (M // 4 ** dim)] entries, where
    [k] is the number of cells of the loop (16 cells on two columns, 64
    otherwise) in which a row of the array lies between the quartiles:
    all 16 on two columns. *)
Theorem stratified_sampling_returns_valid_rows {A : Type} `{Num A}
        (ar : matrix A) (M : nat) (g g' : rng) (idx : list nat) :
  stratified_sampling ar M g = Ok (idx, g') ->
  2 <= ncols ar /\ 4 ^ ncols ar <= M /\
  2 * ncols ar <= length idx /\ length idx <= M /\
  Forall (fun r => r < length ar) idx /\
  (ncols ar = 2 -> length idx = 16 * (M / 16)) /\
  exists q k,
    np_quantile ar = Ok q /\
    counts (fun ks => exists r, in_cell ar q ks r)
           (if decide (ncols ar = 2) then cells2 else cells3) k /\
    k <= 64 /\ (ncols ar = 2 -> k = 16) /\
    length idx = k * (M / 4 ^ ncols ar).
Proof. apply stratified_sampling_returns_rows. Qed.

Lemma stratified_sampling_returns_valid_rows_witness :
  2 <= ncols grid_exact /\ 4 ^ ncols grid_exact <= 32 /\
  2 * ncols grid_exact <= length grid_sample /\ length grid_sample <= 32 /\
  Forall (fun r => r < length grid_exact) grid_sample /\
  (ncols grid_exact = 2 -> length grid_sample = 16 * (32 / 16)) /\
  exists q k,
    np_quantile grid_exact = Ok q /\
    counts (fun ks => exists r, in_cell grid_exact q ks r)
           (if decide (ncols grid_exact = 2) then cells2 else cells3) k /\
    k <= 64 /\ (ncols grid_exact = 2 -> k = 16) /\
    length grid_sample = k * (32 / 4 ^ ncols grid_exact).
Proof.
  exact (stratified_sampling_returns_valid_rows grid_exact 32 g0 grid_rng
           grid_sample grid_sample_ok).
Defined.

(** ** Stratified sampling: when it returns and when it raises *)

Lemma rmapM_length {X Y} (f : X -> result Y) (xs : list X) (ys : list Y) :
  rmapM f xs = Ok ys -> length ys = length xs.
Proof.
  intros Hrun. apply rmapM_Ok, Forall2_length in Hrun. congruence.
Qed.

Lemma cells2_shape :
  Forall (fun ks => length ks = 2 /\ Forall (fun k => k < 4) ks) cells2.
Proof. unfold cells2. simpl. repeat constructor. Qed.

Lemma cells3_shape :
  Forall (fun ks => length ks = 3 /\ Forall (fun k => k < 4) ks) cells3.
Proof. unfold cells3. simpl. repeat constructor. Qed.

Section SamplingTotal.
Context {A : Type} `{Num A}.

Lemma column_nonempty (ar : matrix A) (c : nat) (col : list A) :
  ar <> [] -> column ar c = Ok col -> col <> [].
Proof.
  intros Hne Hcol. apply column_Ok in Hcol as [_ Hall].
  apply Forall2_length in Hall.
  destruct ar; [done|]. destruct col; [discriminate|done].
Qed.

Lemma np_quantile_shape (ar q : matrix A) :
  np_quantile ar = Ok q ->
  length q = 5 /\ Forall (fun r => length r = ncols ar) q.
Proof.
  unfold np_quantile. intros Hrun. split.
  - apply rmapM_length in Hrun. rewrite Hrun. reflexivity.
  - apply rmapM_Ok in Hrun.
    induction Hrun as [|k row ks rows Hrow _ IH]; constructor; [|exact IH].
    apply rmapM_length in Hrow. rewrite Hrow, length_seq. reflexivity.
Qed.

Lemma np_quantile_total (ar : matrix A) :
  ar <> [] -> rect ar -> exists q, np_quantile ar = Ok q.
Proof.
  intros Hne Hrect. unfold np_quantile.
  apply rmapM_total, Forall_forall. intros k Hk.
  apply elem_of_seq in Hk.
  apply rmapM_total, Forall_forall. intros c Hc.
  apply elem_of_seq in Hc.
  destruct (column_total ar c Hrect) as [col Hcol]; [lia|].
  rewrite Hcol. simpl.
  apply quartile_total; [eapply column_nonempty; eassumption|lia].
Qed.

Lemma in_bucket_total (ar q : matrix A) (c k : nat) :
  rect ar -> length q = 5 -> Forall (fun r => length r = ncols ar) q ->
  c < ncols ar -> k < 4 -> exists m, in_bucket ar q c k = Ok m.
Proof.
  intros Hrect Hq Hrows Hc Hk. unfold in_bucket.
  destruct (column_total ar c Hrect Hc) as [col ->]. simpl.
  destruct (getitem_lt q k) as (qlo & -> & Hlo); [lia|]. simpl.
  destruct (getitem_lt q (S k)) as (qhi & Ehi & Hhi); [lia|].
  rewrite Forall_forall in Hrows.
  destruct (getitem_lt qlo c) as (lo & -> & _).
  { rewrite (Hrows qlo); [exact Hc|]. eapply list_elem_of_lookup_2, Hlo. }
  simpl. rewrite Ehi. simpl.
  destruct (getitem_lt qhi c) as (hi & -> & _).
  { rewrite (Hrows qhi); [exact Hc|]. eapply list_elem_of_lookup_2, Hhi. }
  simpl. eauto.
Qed.

Lemma cell_mask_total (ar q : matrix A) (c : nat) (ks : list nat) :
  rect ar -> length q = 5 -> Forall (fun r => length r = ncols ar) q ->
  Forall (fun k => k < 4) ks -> c + length ks <= ncols ar ->
  exists m, cell_mask ar q c ks = Ok m.
Proof.
  intros Hrect Hq Hrows Hks. revert c.
  induction Hks as [|k ks Hk _ IH]; intros c Hc; simpl in *; [eauto|].
  destruct (in_bucket_total ar q c k Hrect Hq Hrows) as [m ->]; [lia|exact Hk|].
  destruct (IH (S c)) as [ms ->]; [lia|]. simpl. eauto.
Qed.

Lemma cell_rows_total (ar q : matrix A) (cells : list (list nat)) (d : nat) :
  rect ar -> np_quantile ar = Ok q -> d <= ncols ar ->
  Forall (fun ks => length ks = d /\ Forall (fun k => k < 4) ks) cells ->
  Forall (fun ks => exists rows, cell_rows ar q ks = Ok rows) cells.
Proof.
  intros Hrect Hq Hd Hcells.
  apply np_quantile_shape in Hq as [Hlen Hrows].
  eapply Forall_impl; [exact Hcells|]. intros ks [Hl Hks]. unfold cell_rows.
  destruct (cell_mask_total ar q 0 ks Hrect Hlen Hrows Hks) as [m ->]; [lia|].
  simpl. eauto.
Qed.

Lemma step3_total (ar q : matrix A) (num_samples : nat) (idx0 : list nat)
      (ks rows : list nat) (g : rng) :
  cell_rows ar q ks = Ok rows ->
  exists idx1 g1, step3 ar q num_samples idx0 ks g = Ok (idx1, g1).
Proof.
  intros Hrows. unfold step3.
  rewrite (pbind_returns _ _ g g rows) by (rewrite Hrows; reflexivity).
  case_decide; [eexists _, _; reflexivity|].
  case_decide as Hpos; [|eexists _, _; reflexivity].
  destruct (random_choice_Ok rows num_samples g) as (out & Hout & _).
  { intros ->. simpl in Hpos. lia. }
  erewrite pbind_returns by exact Hout. eexists _, _. reflexivity.
Qed.

Lemma step3_loop (ar q : matrix A) (num_samples : nat)
      (cells : list (list nat)) :
  Forall (fun ks => exists rows, cell_rows ar q ks = Ok rows) cells ->
  forall (idx0 : list nat) (g : rng),
  exists chunks g',
    pfold (step3 ar q num_samples) cells idx0 g = Ok (idx0 ++ concat chunks, g') /\
    Forall2 (drawn_or_skipped ar q num_samples) cells chunks.
Proof.
  intros Hcells idx0 g.
  assert (Hret : exists idx g',
             pfold (step3 ar q num_samples) cells idx0 g = Ok (idx, g')).
  { revert idx0 g. induction Hcells as [|ks cells [rows Hrows] _ IH];
      intros idx0 g; simpl; [eexists _, _; reflexivity|].
    destruct (step3_total ar q num_samples idx0 ks rows g Hrows)
      as (idx1 & g1 & Hstep).
    erewrite pbind_returns by exact Hstep. apply IH. }
  destruct Hret as (idx & g' & Hret).
  destruct (step3_loop_inv _ _ _ _ _ _ _ _ Hret) as (chunks & -> & Hall).
  eauto.
Qed.

(** The two-column loop stops with [ValueError] at the first cell that has
    no row, when a sample is asked of every cell. *)
Lemma step2_loop_empty (ar q : matrix A) (num_samples : nat)
      (cells : list (list nat)) :
  1 <= num_samples ->
  Forall (fun ks => exists rows, cell_rows ar q ks = Ok rows) cells ->
  Exists (fun ks => cell_rows ar q ks = Ok []) cells ->
  forall (idx0 : list nat) (g : rng),
    pfold (step2 ar q num_samples) cells idx0 g = Raise ValueError.
Proof.
  intros Hns Hcells. induction Hcells as [|ks cells [rows Hrows] _ IH];
    intros Hex idx0 g; [inversion Hex|].
  simpl. destruct rows as [|r rows].
  - apply pbind_raises. unfold step2.
    rewrite (pbind_returns _ _ g g []) by (rewrite Hrows; reflexivity).
    apply pbind_raises. rewrite decide_False by (simpl; lia).
    unfold random_choice. rewrite decide_False by lia. reflexivity.
  - apply Exists_cons in Hex as [Hex|Hex]; [congruence|].
    assert (Hstep : exists idx1 g1,
               step2 ar q num_samples idx0 ks g = Ok (idx1, g1)).
    { unfold step2.
      rewrite (pbind_returns _ _ g g (r :: rows))
        by (rewrite Hrows; reflexivity).
      case_decide.
      - eexists _, _. reflexivity.
      - destruct (random_choice_Ok (r :: rows) num_samples g)
          as (out & Hout & _); [discriminate|].
        erewrite pbind_returns by exact Hout. eexists _, _. reflexivity. }
    destruct Hstep as (idx1 & g1 & Hstep).
    erewrite pbind_returns by exact Hstep. apply IH, Hex.
Qed.

(** Without a sample to take from a cell, the two-column loop returns no
    index. *)
Lemma step2_loop_no_sample (ar q : matrix A) (cells : list (list nat)) :
  Forall (fun ks => exists rows, cell_rows ar q ks = Ok rows) cells ->
  forall (idx0 : list nat) (g : rng),
    pfold (step2 ar q 0) cells idx0 g = Ok (idx0, g).
Proof.
  induction 1 as [|ks cells [rows Hrows] _ IH]; intros idx0 g; simpl;
    [reflexivity|].
  assert (Hstep : step2 ar q 0 idx0 ks g = Ok (idx0, g)).
  { unfold step2.
    rewrite (pbind_returns _ _ g g rows) by (rewrite Hrows; reflexivity).
    case_decide as Hpos.
    - rewrite (pbind_returns _ _ g g []) by reflexivity.
      rewrite app_nil_r. reflexivity.
    - destruct rows as [|r rows]; [|simpl in Hpos; lia].
      rewrite (pbind_returns _ _ g g []) by reflexivity.
      rewrite app_nil_r. reflexivity. }
  erewrite pbind_returns by exact Hstep. apply IH.
Qed.

(** What follows the loop: the positions of the column minima and maxima
    are written over the first [2 * dim] indices, which must exist. *)
Lemma stratified_sampling_tail (ar : matrix A) (M : nat) (g g1 : rng)
      (q : matrix A) (idx1 : list nat) :
  ar <> [] -> rect ar -> 2 <= ncols ar ->
  np_quantile ar = Ok q ->
  (if decide (ncols ar = 2)
   then pfold (step2 ar q (M / 4 ^ ncols ar)) cells2 []
   else pfold (step3 ar q (M / 4 ^ ncols ar)) cells3 []) g = Ok (idx1, g1) ->
  exists idx_min idx_max,
    axis0 np_argmin ar = Ok idx_min /\ axis0 np_argmax ar = Ok idx_max /\
    stratified_sampling ar M g =
    if decide (2 * ncols ar <= length idx1)
    then Ok (idx_min ++ idx_max ++ drop (2 * ncols ar) idx1, g1)
    else Raise ValueError.
Proof.
  intros Hne Hrect Hdim Hq Hloop.
  destruct (axis0_total np_argmin ar Hne Hrect np_argmin_total) as [imin Himin].
  destruct (axis0_total np_argmax ar Hne Hrect np_argmax_total) as [imax Himax].
  pose proof (axis0_length _ _ _ Himin) as Lmin.
  pose proof (axis0_length _ _ _ Himax) as Lmax.
  exists imin, imax. split; [exact Himin|]. split; [exact Himax|].
  unfold stratified_sampling.
  rewrite (pbind_returns _ _ g g q) by (rewrite Hq; reflexivity).
  cbv zeta.
  rewrite (pbind_returns _ _ g g1 idx1) by exact Hloop.
  rewrite (pbind_returns _ _ g1 g1 imin) by (rewrite Himin; reflexivity).
  rewrite (pbind_returns _ _ g1 g1 imax) by (rewrite Himax; reflexivity).
  set (d := ncols ar) in *.
  destruct (decide (d <= length idx1)) as [Hfit1|Hshort1].
  - assert (Hs1 : slice_assign idx1 0 d imin = Ok (imin ++ drop d idx1)).
    { pose proof (slice_assign_fits idx1 imin 0) as Hf.
      rewrite Lmin in Hf. apply Hf. lia. }
    rewrite (pbind_returns _ _ g1 g1 (imin ++ drop d idx1))
      by (rewrite Hs1; reflexivity).
    destruct (decide (2 * d <= length idx1)) as [Hfit2|Hshort2].
    + assert (Hs2 : slice_assign (imin ++ drop d idx1) d (2 * d) imax
                    = Ok (imin ++ imax ++ drop (2 * d) idx1)).
      { pose proof (slice_assign_fits (imin ++ drop d idx1) imax d) as Hf.
        rewrite Lmax in Hf. replace (2 * d) with (d + d) by lia.
        rewrite Hf by (rewrite length_app, length_drop; lia).
        f_equal. rewrite take_app_length' by (symmetry; exact Lmin).
        rewrite drop_app_ge by lia. rewrite Lmin, drop_drop.
        replace (d + d - d) with d by lia. reflexivity. }
      rewrite (pbind_returns _ _ g1 g1 (imin ++ imax ++ drop (2 * d) idx1))
        by (rewrite Hs2; reflexivity).
      reflexivity.
    + apply pbind_raises.
      rewrite (slice_assign_short (imin ++ drop d idx1) imax d (2 * d));
        [reflexivity|lia|lia|].
      rewrite length_app, length_drop. lia.
  - rewrite decide_False by lia. apply pbind_raises.
    rewrite (slice_assign_short idx1 imin 0 d); [reflexivity|lia|lia|lia].
Qed.

End SamplingTotal.

(** C6: on an array of two columns each of whose 16 quartile cells holds
    a row, with [M >= 16], [stratified_sampling] returns; every cell
    contributes [M // 16] of the rows that lie between its quartiles in
    both columns (the first ones when it has more, draws with replacement
    otherwise), which makes [16 * (M // 16)] indices, all of them rows of
    the array; the first four are then replaced by the positions of the
    column minima and maxima. *)
Theorem stratified_sampling_two_columns {A : Type} `{Num A}
        (ar : matrix A) (M : nat) (g : rng) :
  rect ar -> ncols ar = 2 -> 16 <= M -> buckets_nonempty ar ->
  exists q chunks idx_min idx_max idx g',
    np_quantile ar = Ok q /\
    Forall2 (drawn_from ar q (M / 16)) cells2 chunks /\
    axis0 np_argmin ar = Ok idx_min /\ axis0 np_argmax ar = Ok idx_max /\
    stratified_sampling ar M g = Ok (idx, g') /\
    idx = idx_min ++ idx_max ++ drop 4 (concat chunks) /\
    length idx = 16 * (M / 16) /\
    Forall (fun r => r < length ar) idx.
Proof.
  intros Hrect Hcols HM (q & Hq & Hspec).
  assert (Hcells : Forall (fun ks => exists rows,
                              cell_rows ar q ks = Ok rows /\ rows <> [])
                          cells2).
  { pose proof (cell_rows_total ar q cells2 2 Hrect Hq) as Htot.
    rewrite Hcols in Htot. specialize (Htot (le_n 2) cells2_shape).
    rewrite Forall_forall in Hspec, Htot |- *. intros ks Hks.
    destruct (Htot ks Hks) as [rows Hrows]. destruct (Hspec ks Hks) as [r Hr].
    exists rows. split; [exact Hrows|]. intros ->.
    apply cell_rows_members in Hrows as [_ Hmem].
    apply Hmem in Hr. apply elem_of_nil in Hr. exact Hr. }
  destruct (step2_loop ar q (M / 16) cells2 Hcells [] g)
    as (chunks & g' & Hloop & Hdrawn).
  destruct (drawn_chunks_length _ _ _ _ _ Hdrawn) as [Hlen Hbound].
  change (length cells2) with 16 in Hlen.
  assert (Hns : 1 <= M / 16) by (apply Nat.div_le_lower_bound; lia).
  assert (Hne : ar <> []).
  { intros ->. inversion Hspec as [|ks ? (r & row & Hrow & _) _]; subst.
    discriminate. }
  destruct (axis0_total np_argmin ar Hne Hrect np_argmin_total) as [imin Himin].
  destruct (axis0_total np_argmax ar Hne Hrect np_argmax_total) as [imax Himax].
  pose proof (axis0_length _ _ _ Himin) as Lmin.
  pose proof (axis0_length _ _ _ Himax) as Lmax.
  rewrite Hcols in Lmin, Lmax.
  pose proof (axis0_arg_bound _ _ _ np_argmin_lt Himin) as Bmin.
  pose proof (axis0_arg_bound _ _ _ np_argmax_lt Himax) as Bmax.
  set (idx1 := concat chunks) in *.
  assert (Hs1 : slice_assign idx1 0 2 imin = Ok (imin ++ drop 2 idx1)).
  { pose proof (slice_assign_fits idx1 imin 0) as Hf.
    rewrite Lmin in Hf. apply Hf. lia. }
  assert (Hs2 : slice_assign (imin ++ drop 2 idx1) 2 (2 * 2) imax
                = Ok (imin ++ imax ++ drop 4 idx1)).
  { pose proof (slice_assign_fits (imin ++ drop 2 idx1) imax 2) as Hf.
    rewrite Lmax in Hf. change (2 * 2) with (2 + 2). rewrite Hf
      by (rewrite length_app, length_drop; lia).
    f_equal. rewrite take_app_length' by (symmetry; exact Lmin).
    rewrite drop_app_ge by lia. rewrite Lmin, drop_drop. reflexivity. }
  exists q, chunks, imin, imax, (imin ++ imax ++ drop 4 idx1), g'.
  split; [exact Hq|]. split; [exact Hdrawn|].
  split; [exact Himin|]. split; [exact Himax|]. split.
  { unfold stratified_sampling. apply pbind_Ok. exists q, g.
    split; [apply lift_Ok; auto|]. rewrite Hcols. simpl Nat.pow.
    rewrite decide_True by reflexivity.
    apply pbind_Ok. exists idx1, g'. split; [exact Hloop|].
    apply pbind_Ok. exists imin, g'. split; [apply lift_Ok; auto|].
    apply pbind_Ok. exists imax, g'. split; [apply lift_Ok; auto|].
    apply pbind_Ok. exists (imin ++ drop 2 idx1), g'.
    split; [apply lift_Ok; auto|].
    apply pbind_Ok. exists (imin ++ imax ++ drop 4 idx1), g'.
    split; [apply lift_Ok; auto|]. reflexivity. }
  split; [reflexivity|]. split.
  - rewrite !length_app, length_drop. lia.
  - apply Forall_app. split; [exact Bmin|].
    apply Forall_app. split; [exact Bmax|]. apply Forall_drop, Hbound.
Qed.

Lemma grid_binary64_buckets : buckets_nonempty grid_binary64.
Proof.
  eexists. split; [vm_compute; reflexivity|].
  repeat constructor;
    (eexists; eapply cell_rows_witness; vm_compute; reflexivity).
Qed.

Lemma grid_binary64_rect : rect grid_binary64.
Proof. repeat constructor. Qed.

Lemma stratified_sampling_two_columns_witness :
  exists q chunks idx_min idx_max idx g',
    np_quantile grid_binary64 = Ok q /\
    Forall2 (drawn_from grid_binary64 q (32 / 16)) cells2 chunks /\
    axis0 np_argmin grid_binary64 = Ok idx_min /\
    axis0 np_argmax grid_binary64 = Ok idx_max /\
    stratified_sampling grid_binary64 32 g0 = Ok (idx, g') /\
    idx = idx_min ++ idx_max ++ drop 4 (concat chunks) /\
    length idx = 16 * (32 / 16) /\
    Forall (fun r => r < length grid_binary64) idx.
Proof.
  apply (stratified_sampling_two_columns grid_binary64 32 g0).
  - exact grid_binary64_rect.
  - reflexivity.
  - lia.
  - exact grid_binary64_buckets.
Defined.

(** X2: on an array of two columns, with [M >= 16], a quartile cell
    without rows makes [stratified_sampling] raise [ValueError]: the
    two-column loop asks [np.random.choice] for a sample of an empty
    array, where the three-column loop skips such a cell. *)
Theorem stratified_sampling_empty_cell {A : Type} `{Num A}
        (ar : matrix A) (M : nat) (g : rng) :
  rect ar -> ncols ar = 2 -> 16 <= M ->
  (exists q ks,
      np_quantile ar = Ok q /\ ks ∈ cells2 /\ cell_rows ar q ks = Ok []) ->
  stratified_sampling ar M g = Raise ValueError.
Proof.
  intros Hrect Hcols HM (q & ks & Hq & Hks & Hempty).
  unfold stratified_sampling.
  rewrite (pbind_returns _ _ g g q) by (rewrite Hq; reflexivity).
  cbv zeta. rewrite decide_True by exact Hcols.
  apply pbind_raises. apply step2_loop_empty.
  - rewrite Hcols. change (4 ^ 2) with 16.
    apply Nat.div_le_lower_bound; lia.
  - apply (cell_rows_total ar q cells2 2 Hrect Hq); [lia|exact cells2_shape].
  - apply Exists_exists. exists ks. split; [exact Hks|exact Hempty].
Qed.

Lemma stratified_sampling_empty_cell_witness :
  stratified_sampling diag_exact 16 g0 = Raise ValueError.
Proof.
  apply (stratified_sampling_empty_cell diag_exact 16 g0).
  - repeat constructor.
  - reflexivity.
  - lia.
  - eexists _, [0; 3]. split; [vm_compute; reflexivity|].
    split; [vm_compute; set_solver|vm_compute; reflexivity].
Defined.

(** X3: with [M < 4 ** dim] no sample is taken from any cell, the index
    array is empty, and the assignment of the positions of the minima to
    [idx[0:dim]] raises [ValueError]. *)
Theorem stratified_sampling_too_few_samples {A : Type} `{Num A}
        (ar : matrix A) (M : nat) (g : rng) :
  ar <> [] -> rect ar -> 2 <= ncols ar -> M < 4 ^ ncols ar ->
  stratified_sampling ar M g = Raise ValueError.
Proof.
  intros Hne Hrect Hdim HM.
  destruct (np_quantile_total ar Hne Hrect) as [q Hq].
  assert (Hns : M / 4 ^ ncols ar = 0) by (apply Nat.div_small; exact HM).
  assert (Hloop : exists idx1 g1,
             (if decide (ncols ar = 2)
              then pfold (step2 ar q (M / 4 ^ ncols ar)) cells2 []
              else pfold (step3 ar q (M / 4 ^ ncols ar)) cells3 []) g
             = Ok (idx1, g1) /\ length idx1 = 0).
  { rewrite Hns. case_decide as Hd.
    - exists [], g. split; [|reflexivity].
      apply step2_loop_no_sample.
      apply (cell_rows_total ar q cells2 2 Hrect Hq); [lia|exact cells2_shape].
    - destruct (step3_loop ar q 0 cells3) with (idx0 := @nil nat) (g := g)
        as (chunks & g1 & Hrun & Hall).
      { apply (cell_rows_total ar q cells3 3 Hrect Hq);
          [lia|exact cells3_shape]. }
      exists (concat chunks), g1. split; [exact Hrun|].
      apply skipped_chunks_length in Hall as [(k & _ & _ & Hlen) _]. lia. }
  destruct Hloop as (idx1 & g1 & Hloop & Hlen).
  destruct (stratified_sampling_tail ar M g g1 q idx1 Hne Hrect Hdim Hq Hloop)
    as (idx_min & idx_max & _ & _ & ->).
  rewrite decide_False by lia. reflexivity.
Qed.

Lemma stratified_sampling_too_few_samples_witness :
  stratified_sampling grid_exact 15 g0 = Raise ValueError.
Proof.
  apply (stratified_sampling_too_few_samples grid_exact 15 g0).
  - discriminate.
  - repeat constructor.
  - simpl. lia.
  - simpl. lia.
Defined.

(** X4: on an array of three or more columns [stratified_sampling]
    stratifies by the quartiles of the first three columns: the rows of a
    cell are those that lie between its two quartiles in each of the three
    columns; a cell without such a row is skipped, every other one of the
    64 cells contributes [M // 4 ** dim] of its rows (its first ones when
    it has more, draws with replacement otherwise); the call returns these
    indices, the first [2 * dim] replaced by the positions of the column
    minima and maxima, when there are at least [2 * dim] of them, and
    raises [ValueError] otherwise. *)
Theorem stratified_sampling_three_columns {A : Type} `{Num A}
        (ar : matrix A) (M : nat) (g : rng) :
  ar <> [] -> rect ar -> 3 <= ncols ar ->
  exists q chunks idx_min idx_max g',
    np_quantile ar = Ok q /\
    Forall2 (drawn_or_skipped ar q (M / 4 ^ ncols ar)) cells3 chunks /\
    axis0 np_argmin ar = Ok idx_min /\ axis0 np_argmax ar = Ok idx_max /\
    stratified_sampling ar M g =
    if decide (2 * ncols ar <= length (concat chunks))
    then Ok (idx_min ++ idx_max ++ drop (2 * ncols ar) (concat chunks), g')
    else Raise ValueError.
Proof.
  intros Hne Hrect Hdim.
  destruct (np_quantile_total ar Hne Hrect) as [q Hq].
  destruct (step3_loop ar q (M / 4 ^ ncols ar) cells3)
    with (idx0 := @nil nat) (g := g) as (chunks & g1 & Hrun & Hall).
  { apply (cell_rows_total ar q cells3 3 Hrect Hq); [lia|exact cells3_shape]. }
  simpl app in Hrun.
  destruct (stratified_sampling_tail ar M g g1 q (concat chunks) Hne Hrect)
    as (idx_min & idx_max & Hmin & Hmax & Hret); [lia|exact Hq| |].
  { rewrite decide_False by lia. exact Hrun. }
  exists q, chunks, idx_min, idx_max, g1. auto.
Qed.

Lemma stratified_sampling_three_columns_witness :
  exists q chunks idx_min idx_max g',
    np_quantile diag3_exact = Ok q /\
    Forall2 (drawn_or_skipped diag3_exact q (128 / 4 ^ ncols diag3_exact))
            cells3 chunks /\
    axis0 np_argmin diag3_exact = Ok idx_min /\
    axis0 np_argmax diag3_exact = Ok idx_max /\
    stratified_sampling diag3_exact 128 g0 =
    if decide (2 * ncols diag3_exact <= length (concat chunks))
    then Ok (idx_min ++ idx_max ++ drop (2 * ncols diag3_exact) (concat chunks),
             g')
    else Raise ValueError.
Proof.
  apply (stratified_sampling_three_columns diag3_exact 128 g0).
  - discriminate.
  - repeat constructor.
  - simpl. lia.
Defined.

(** ** The training loop: which slots it fills *)

Lemma pfold_invariant_in {X S} (P : S -> Prop) (body : S -> X -> py S)
      (xs : list X) :
  (forall s x g s' g', x ∈ xs -> P s -> body s x g = Ok (s', g') -> P s') ->
  forall s g s' g', P s -> pfold body xs s g = Ok (s', g') -> P s'.
Proof.
  induction xs as [|x xs IH]; intros Hstep s g s' g' Hs; simpl.
  - intros [= <- <-]. exact Hs.
  - intros Hrun. apply pbind_Ok in Hrun as (s1 & g1 & Hx & Hrest).
    eapply IH; [|eapply Hstep; [left|exact Hs|exact Hx]|exact Hrest].
    intros s0 y g2 s2 g3 Hy. apply Hstep. right. exact Hy.
Qed.

Lemma pfold_establishes {X S} (Q : X -> S -> Prop) (body : S -> X -> py S)
      (xs : list X) :
  (forall s x g s' g', body s x g = Ok (s', g') -> Q x s') ->
  (forall s x y g s' g', body s x g = Ok (s', g') -> Q y s -> Q y s') ->
  forall s g s' g',
    pfold body xs s g = Ok (s', g') -> forall x, x ∈ xs -> Q x s'.
Proof.
  intros Hnew Hkeep. induction xs as [|y xs IH]; intros s g s' g' Hrun x Hin.
  - apply elem_of_nil in Hin. destruct Hin.
  - simpl in Hrun. apply pbind_Ok in Hrun as (s1 & g1 & Hy & Hrest).
    apply elem_of_cons in Hin as [->|Hin].
    + revert Hrest. apply pfold_invariant; [|eapply Hnew, Hy].
      intros s0 z g2 s2 g3 Hs0 Hz. eapply Hkeep; eassumption.
    + eapply IH; eassumption.
Qed.

Lemma train_pairs_elem (nt i j : nat) :
  (i, j) ∈ train_pairs nt <-> i < nt /\ j < 20.
Proof.
  unfold train_pairs. rewrite list_elem_of_bind. split.
  - intros (i' & Hin & Hi). apply elem_of_seq in Hi.
    apply list_elem_of_bind in Hin as (j' & Hin & Hj).
    apply elem_of_seq in Hj. apply list_elem_of_singleton in Hin.
    injection Hin as -> ->. lia.
  - intros [Hi Hj]. exists i. split; [|apply elem_of_seq; lia].
    apply list_elem_of_bind. exists j. split; [|apply elem_of_seq; lia].
    apply list_elem_of_singleton. reflexivity.
Qed.

Section TrainingSlots.
Context {A GP : Type} `{Num A} (lib : Lib A GP).

(** What one pass of the body changes in [portfolio]. *)
Lemma train_step_effect (g : globals A) (pf pf' : gmap nat (pf_entry A GP))
      (i j : nat) (r r' : rng) :
  train_step lib g pf (i, j) r = Ok (pf', r') ->
  exists key e gp mn mx mnx mxx mny mxy,
    port_idx g !! j = Some key /\ pf !! key = Some e /\
    i < length (GPs e) /\ i < length (pf_min e) /\ i < length (pf_max e) /\
    i < length (min_sc_x e) /\ i < length (max_sc_x e) /\
    i < length (min_sc_y e) /\ i < length (max_sc_y e) /\
    pf' = <[key := {| GPs := <[i := Some gp]> (GPs e); weight := weight e;
                      pf_min := <[i := Some mn]> (pf_min e);
                      pf_max := <[i := Some mx]> (pf_max e);
                      min_sc_x := <[i := Some mnx]> (min_sc_x e);
                      max_sc_x := <[i := Some mxx]> (max_sc_x e);
                      min_sc_y := <[i := Some mny]> (min_sc_y e);
                      max_sc_y := <[i := Some mxy]> (max_sc_y e) |}]> pf.
Proof.
  unfold train_step. intros Hrun.
  apply pbind_Ok in Hrun as (rates_ & r0 & _ & Hrun).
  apply pbind_Ok in Hrun as (idx & r1 & _ & Hrun).
  apply lift_Ok in Hrun as [Hrun _].
  apply rbind_Ok in Hrun as (rates_sc_ & _ & Hrun).
  apply rbind_Ok in Hrun as (mtm_i & _ & Hrun).
  apply rbind_Ok in Hrun as (irs_prices & _ & Hrun).
  apply rbind_Ok in Hrun as (irs_prices_sc_ & _ & Hrun).
  apply rbind_Ok in Hrun as (X & _ & Hrun).
  apply rbind_Ok in Hrun as (y & _ & Hrun).
  apply rbind_Ok in Hrun as (gp & _ & Hrun).
  apply rbind_Ok in Hrun as (key & Hkey & Hrun).
  apply rbind_Ok in Hrun as (e & He & Hrun).
  apply rbind_Ok in Hrun as (gps & Hgps & Hrun).
  apply rbind_Ok in Hrun as (sub & _ & Hrun).
  apply rbind_Ok in Hrun as (mn & _ & Hrun).
  apply rbind_Ok in Hrun as (pmin & Hpmin & Hrun).
  apply rbind_Ok in Hrun as (mx & _ & Hrun).
  apply rbind_Ok in Hrun as (pmax & Hpmax & Hrun).
  apply rbind_Ok in Hrun as (mnx & _ & Hrun).
  apply rbind_Ok in Hrun as (minx & Hminx & Hrun).
  apply rbind_Ok in Hrun as (mxx & _ & Hrun).
  apply rbind_Ok in Hrun as (maxx & Hmaxx & Hrun).
  apply rbind_Ok in Hrun as (mny & _ & Hrun).
  apply rbind_Ok in Hrun as (miny & Hminy & Hrun).
  apply rbind_Ok in Hrun as (mxy & _ & Hrun).
  apply rbind_Ok in Hrun as (maxy & Hmaxy & Hrun).
  injection Hrun as <-.
  apply getitem_Ok in Hkey. apply dict_get_Ok in He.
  apply setitem_Ok in Hgps as [? ->]. apply setitem_Ok in Hpmin as [? ->].
  apply setitem_Ok in Hpmax as [? ->]. apply setitem_Ok in Hminx as [? ->].
  apply setitem_Ok in Hmaxx as [? ->]. apply setitem_Ok in Hminy as [? ->].
  apply setitem_Ok in Hmaxy as [? ->].
  exists key, e, gp, mn, mx, mnx, mxx, mny, mxy. repeat split; assumption.
Qed.

Lemma train_step_trains (g : globals A) (pf pf' : gmap nat (pf_entry A GP))
      (i j : nat) (r r' : rng) :
  train_step lib g pf (i, j) r = Ok (pf', r') ->
  exists key, port_idx g !! j = Some key /\ slot_trained pf' key i.
Proof.
  intros Hrun. apply train_step_effect in Hrun
    as (key & e & gp & mn & mx & mnx & mxx & mny & mxy & Hkey & He &
        ? & ? & ? & ? & ? & ? & ? & ->).
  exists key. split; [exact Hkey|].
  eexists _, gp, mn, mx, mnx, mxx, mny, mxy.
  split; [apply lookup_insert_eq|]. simpl.
  repeat split; apply list_lookup_insert_eq; assumption.
Qed.

Lemma train_step_keeps (g : globals A) (pf pf' : gmap nat (pf_entry A GP))
      (i j key0 i0 : nat) (r r' : rng) :
  train_step lib g pf (i, j) r = Ok (pf', r') ->
  slot_trained pf key0 i0 -> slot_trained pf' key0 i0.
Proof.
  intros Hrun (e0 & gp0 & mn0 & mx0 & mnx0 & mxx0 & mny0 & mxy0 &
               He0 & H1 & H2 & H3 & H4 & H5 & H6 & H7).
  apply train_step_effect in Hrun
    as (key & e & gp & mn & mx & mnx & mxx & mny & mxy & Hkey & He &
        ? & ? & ? & ? & ? & ? & ? & ->).
  destruct (decide (key = key0)) as [->|Hk].
  - assert (e0 = e) by congruence. subst e0.
    destruct (decide (i = i0)) as [->|Hi].
    + eexists _, gp, mn, mx, mnx, mxx, mny, mxy.
      split; [apply lookup_insert_eq|]. simpl.
      repeat split; apply list_lookup_insert_eq; assumption.
    + eexists _, gp0, mn0, mx0, mnx0, mxx0, mny0, mxy0.
      split; [apply lookup_insert_eq|]. simpl.
      rewrite !list_lookup_insert_ne by exact Hi. auto 10.
  - exists e0, gp0, mn0, mx0, mnx0, mxx0, mny0, mxy0.
    split; [rewrite lookup_insert_ne by exact Hk; exact He0|]. auto 10.
Qed.

Lemma empty_portfolio_dom (idxs : list nat) (nt key : nat) :
  empty_portfolio (A := A) (GP := GP) idxs nt !! key
  = if decide (key ∈ idxs) then Some (empty_entry nt) else None.
Proof.
  unfold empty_portfolio.
  assert (Hgen : forall pf0 : gmap nat (pf_entry A GP),
             foldl (fun pf idx => <[idx := empty_entry nt]> pf) pf0 idxs !! key
             = if decide (key ∈ idxs) then Some (empty_entry nt)
               else pf0 !! key).
  { induction idxs as [|p ps IH]; intros pf0; simpl.
    - reflexivity.
    - rewrite IH. destruct (decide (key ∈ ps)) as [Hin|Hout].
      + rewrite decide_True by (right; exact Hin). reflexivity.
      + destruct (decide (key = p)) as [->|Hne].
        * rewrite decide_True by left. apply lookup_insert_eq.
        * rewrite decide_False
            by (intros Hc; apply elem_of_cons in Hc; tauto).
          apply lookup_insert_ne. congruence. }
  rewrite Hgen. case_decide; [reflexivity|apply lookup_empty].
Qed.

End TrainingSlots.

Lemma train_slots {A GP : Type} `{Num A} (lib : Lib A GP)
      (g : globals A) (r r' : rng) (pf : gmap nat (pf_entry A GP))
      (i j : nat) :
  train lib g r = Ok (pf, r') -> i < nt g -> j < 20 ->
  exists key, port_idx g !! j = Some key /\ slot_trained pf key i.
Proof.
  intros Hrun Hi Hj. unfold train in Hrun.
  fold (train_pairs (nt g)) in Hrun.
  apply (pfold_establishes
           (fun (ij : nat * nat) pf =>
              exists key, port_idx g !! ij.2 = Some key /\
                          slot_trained pf key ij.1)
           _ _) with (x := (i, j)) in Hrun.
  - exact Hrun.
  - intros s [i' j'] g1 s' g2. apply train_step_trains.
  - intros s [i' j'] y g1 s' g2 Hstep (key & Hkey & Hs).
    exists key. split; [exact Hkey|]. eapply train_step_keeps; eassumption.
  - apply train_pairs_elem. auto.
Qed.

Lemma train_dom {A GP : Type} `{Num A} (lib : Lib A GP)
      (g : globals A) (r r' : rng) (pf : gmap nat (pf_entry A GP))
      (key : nat) :
  train lib g r = Ok (pf, r') ->
  is_Some (pf !! key) <-> key ∈ port_idx g.
Proof.
  unfold train.
  apply (pfold_invariant
           (fun pf : gmap nat (pf_entry A GP) =>
              is_Some (pf !! key) <-> key ∈ port_idx g)).
  - intros s [i j] g1 s' g2 Hs Hstep.
    apply train_step_effect in Hstep
      as (key' & e & gp & mn & mx & mnx & mxx & mny & mxy & Hkey & He &
          _ & _ & _ & _ & _ & _ & _ & ->).
    destruct (decide (key' = key)) as [->|Hne].
    + rewrite lookup_insert_eq. rewrite <- Hs, He. split; eauto.
    + rewrite lookup_insert_ne by exact Hne. exact Hs.
  - rewrite empty_portfolio_dom. case_decide as Hk; split; intros Hx.
    + exact Hk.
    + eauto.
    + destruct Hx; discriminate.
    + contradiction.
Qed.

(** The loop writes only to the entries of the first 20 swaps. *)
Lemma train_untouched {A GP : Type} `{Num A} (lib : Lib A GP)
      (g : globals A) (r r' : rng) (pf : gmap nat (pf_entry A GP))
      (key : nat) :
  train lib g r = Ok (pf, r') ->
  key ∈ port_idx g -> key ∉ take 20 (port_idx g) ->
  pf !! key = Some (empty_entry (nt g)).
Proof.
  intros Hrun Hin Hout. unfold train in Hrun.
  fold (train_pairs (nt g)) in Hrun. revert Hrun.
  apply (pfold_invariant_in
           (fun pf : gmap nat (pf_entry A GP) =>
              pf !! key = Some (empty_entry (nt g)))).
  - intros s [i j] g1 s' g2 Hij Hs Hstep.
    apply train_pairs_elem in Hij as [_ Hj].
    apply train_step_effect in Hstep
      as (key' & e & gp & mn & mx & mnx & mxx & mny & mxy & Hkey & He &
          _ & _ & _ & _ & _ & _ & _ & ->).
    rewrite lookup_insert_ne; [exact Hs|].
    intros ->. apply Hout.
    apply list_elem_of_lookup. exists j.
    rewrite lookup_take_lt by exact Hj. exact Hkey.
  - rewrite empty_portfolio_dom, decide_True by exact Hin. reflexivity.
Qed.

(** X5: when the training loop returns, for every step [i < nt] and every
    [j < 20] the slot [i] of [portfolio[port_idx[j]]] holds a fitted
    regressor and its six arrays of bounds; [portfolio] has an entry for
    exactly the swaps of [port_idx]; and the entry of a swap that is not
    among the first 20 of [port_idx] is as it was created, all its slots
    the placeholder [0]. *)
Theorem training_fills_every_slot {A GP : Type} `{Num A} (lib : Lib A GP)
        (g : globals A) (r r' : rng) (pf : gmap nat (pf_entry A GP)) :
  train lib g r = Ok (pf, r') ->
  (forall i j, i < nt g -> j < 20 ->
     exists key, port_idx g !! j = Some key /\ slot_trained pf key i) /\
  (forall key, is_Some (pf !! key) <-> key ∈ port_idx g) /\
  (forall key, key ∈ port_idx g -> key ∉ take 20 (port_idx g) ->
     pf !! key = Some (empty_entry (nt g))).
Proof.
  intros Hrun. split; [|split].
  - intros i j. eapply train_slots, Hrun.
  - intros key. eapply train_dom, Hrun.
  - intros key. eapply train_untouched, Hrun.
Qed.

Lemma training_fills_every_slot_witness :
  (forall i j, i < nt demo_g -> j < 20 ->
     exists key, port_idx demo_g !! j = Some key /\
                 slot_trained demo_portfolio key i) /\
  (forall key, is_Some (demo_portfolio !! key) <-> key ∈ port_idx demo_g) /\
  (forall key, key ∈ port_idx demo_g -> key ∉ take 20 (port_idx demo_g) ->
     demo_portfolio !! key = Some (empty_entry (nt demo_g))).
Proof.
  exact (training_fills_every_slot demo_lib demo_g g0 demo_rng demo_portfolio
           demo_train_ok).
Defined.

(** X6: the loop [for j in range(20)] needs 20 swaps of the counterparty:
    with fewer, and at least one time step, [port_idx[j]] raises
    [IndexError] at the first [j] past the end and the training loop does
    not return. *)
Theorem training_needs_twenty_swaps {A GP : Type} `{Num A} (lib : Lib A GP)
        (g : globals A) (r : rng) :
  1 <= nt g -> length (port_idx g) < 20 ->
  (forall pf r0,
      train_step lib g pf (0, length (port_idx g)) r0 = Raise IndexError) /\
  exists e, train lib g r = Raise e.
Proof.
  intros Hnt Hlen.
  assert (Hstep : forall pf r0,
             train_step lib g pf (0, length (port_idx g)) r0
             = Raise IndexError).
  { intros pf r0. unfold train_step. apply pbind_raises.
    assert (Hkey : getitem (port_idx g) (length (port_idx g))
                   = Raise IndexError).
    { unfold getitem. rewrite lookup_ge_None_2 by lia. reflexivity. }
    unfold train_inputs. rewrite Hkey. reflexivity. }
  split; [exact Hstep|].
  unfold train. fold (train_pairs (nt g)).
  apply pfold_raises with (x := (0, length (port_idx g))).
  - apply train_pairs_elem. lia.
  - intros pf r0. exists IndexError. apply Hstep.
Qed.

Lemma training_needs_twenty_swaps_witness :
  (forall pf r0,
      train_step demo_lib few_g pf (0, length (port_idx few_g)) r0
      = Raise IndexError) /\
  exists e, train demo_lib few_g g0 = Raise e.
Proof.
  apply (training_needs_twenty_swaps demo_lib few_g g0).
  - vm_compute. lia.
  - vm_compute. lia.
Defined.

(** ** The data cells *)

Lemma make_port_idx_elem (irs_params : list irs_param) (key : nat) :
  key ∈ make_port_idx irs_params <->
  exists p, irs_params !! key = Some p /\ cpty p = cpty_idx.
Proof.
  unfold make_port_idx, np_where. rewrite where_from_elem. split.
  - intros (k & -> & Hk). simpl. rewrite list_lookup_fmap in Hk.
    destruct (irs_params !! k) as [p|]; [|discriminate].
    exists p. split; [reflexivity|].
    injection Hk as Hk. apply bool_decide_eq_true in Hk. exact Hk.
  - intros (p & Hp & Hc). exists key. split; [reflexivity|].
    rewrite list_lookup_fmap, Hp. simpl. f_equal.
    apply bool_decide_eq_true. exact Hc.
Qed.

Lemma make_irs_map_total (irs_params : list irs_param) (idxs : list nat)
      (m0 : gmap nat (list nat)) :
  Forall (fun i => i < length irs_params) idxs ->
  exists m,
    rfold (fun irs_map i =>
             p ← getitem irs_params i;
             if decide (ccy p = 0)
             then Ok (<[i := [0]]> irs_map)
             else Ok (<[i := [ccy p; ccy p + 10]]> irs_map))
          idxs m0 = Ok m.
Proof.
  intros Hall. revert m0.
  induction Hall as [|i idxs Hi _ IH]; intros m0; simpl; [eauto|].
  destruct (getitem_lt irs_params i Hi) as (p & -> & _). simpl.
  destruct (decide (ccy p = 0)); simpl; apply IH.
Qed.

(** X7: the cells that build [port_idx] and [irs_map] never raise;
    [port_idx] lists, without repetition, the swaps whose counterparty is
    [cpty_idx], and [irs_map] has an entry for exactly these swaps: [[0]]
    for currency code 0 and [[ccy, ccy + 10]] otherwise. *)
Theorem irs_map_of_counterparty (irs_params : list irs_param) :
  exists m,
    make_irs_map irs_params (make_port_idx irs_params) = Ok m /\
    NoDup (make_port_idx irs_params) /\
    (forall key,
        key ∈ make_port_idx irs_params <->
        exists p, irs_params !! key = Some p /\ cpty p = cpty_idx) /\
    forall key,
      m !! key =
      match irs_params !! key with
      | Some p =>
          if decide (cpty p = cpty_idx) then Some (mapped_processes p)
          else None
      | None => None
      end.
Proof.
  destruct (make_irs_map_total irs_params (make_port_idx irs_params) ∅)
    as [m Hm].
  { eapply Forall_impl; [apply np_where_bound|].
    intros r Hr. rewrite length_fmap in Hr. exact Hr. }
  exists m. split; [exact Hm|]. split; [apply where_from_NoDup|].
  split; [apply make_port_idx_elem|].
  intros key.
  destruct (make_irs_map_fold _ _ _ _ key Hm) as [Hin Hout].
  destruct (decide (key ∈ make_port_idx irs_params)) as [Hk|Hk].
  - destruct (Hin Hk) as (p & Hp & ->). rewrite Hp.
    apply make_port_idx_elem in Hk as (p' & Hp' & Hc).
    assert (p' = p) by congruence. subst p'.
    rewrite decide_True by exact Hc. reflexivity.
  - rewrite (Hout Hk), lookup_empty.
    destruct (irs_params !! key) as [p|] eqn:Hp; [|reflexivity].
    rewrite decide_False; [reflexivity|].
    intros Hc. apply Hk, make_port_idx_elem. eauto.
Qed.

Lemma arange10_lookup (start stop i : nat) :
  i < length (arange10 start stop) ->
  arange10 start stop !! i = Some (start + 10 * i).
Proof.
  unfold arange10. rewrite length_fmap, length_seq. intros Hi.
  rewrite list_lookup_fmap, lookup_seq_lt by exact Hi. reflexivity.
Qed.

Lemma arange10_length (start stop : nat) :
  length (arange10 start stop) = (stop + 9 - start) / 10.
Proof. unfold arange10. rewrite length_fmap, length_seq. reflexivity. Qed.

Lemma reset_idx_lookup (t : nat) :
  t <= 100 -> reset_idx !! t = Some ((Z.of_nat t - 1) / 5 * 5)%Z.
Proof.
  intros Ht. unfold reset_idx.
  rewrite list_lookup_fmap, lookup_seq_lt by lia. reflexivity.
Qed.

Section DataCells.
Context {A : Type}.

(** The loop of the data cell, date by date. *)
Lemma data_loop (port_idx : list nat) (mtm_irs rates_and_fx : list (matrix A))
      (M0 : nat) (ts : list nat)
      (a b c a' b' c' : list (matrix A)) :
  rfold (fun '(mtm, rates_fx, prev_rates_fx) t =>
           cube_t ← getitem mtm_irs t;
           rows ← (if decide (port_idx = []) then Raise IndexError
                   else take_idx cube_t port_idx);
           prev ← getitem rates_and_fx (t - 5);
           cur ← getitem rates_and_fx t;
           Ok (mtm ++ [lmap (take (2 * M0)) rows],
               rates_fx ++ [transpose (lmap (take (2 * M0)) cur)],
               prev_rates_fx ++ [transpose (lmap (take (2 * M0)) prev)]))
        ts (a, b, c) = Ok (a', b', c') ->
  exists la lb lc,
    a' = a ++ la /\ b' = b ++ lb /\ c' = c ++ lc /\
    length la = length ts /\ length lb = length ts /\ length lc = length ts /\
    forall i t,
      ts !! i = Some t ->
      exists cube_t rows cur prev,
        mtm_irs !! t = Some cube_t /\ take_idx cube_t port_idx = Ok rows /\
        rates_and_fx !! t = Some cur /\ rates_and_fx !! (t - 5) = Some prev /\
        la !! i = Some (lmap (take (2 * M0)) rows) /\
        lb !! i = Some (transpose (lmap (take (2 * M0)) cur)) /\
        lc !! i = Some (transpose (lmap (take (2 * M0)) prev)).
Proof.
  revert a b c. induction ts as [|t ts IH]; intros a b c; simpl.
  - intros [= <- <- <-]. exists [], [], []. rewrite !app_nil_r.
    repeat split. intros i t Hi. discriminate.
  - intros Hrun. apply rbind_Ok in Hrun as ([[a1 b1] c1] & Hstep & Hrest).
    apply rbind_Ok in Hstep as (cube_t & Hcube & Hstep).
    apply rbind_Ok in Hstep as (rows & Hrows & Hstep).
    destruct (decide (port_idx = [])); [discriminate|].
    apply rbind_Ok in Hstep as (prev & Hprev & Hstep).
    apply rbind_Ok in Hstep as (cur & Hcur & Hstep).
    injection Hstep as <- <- <-.
    apply getitem_Ok in Hcube, Hprev, Hcur.
    apply IH in Hrest
      as (la & lb & lc & -> & -> & -> & La & Lb & Lc & Hall).
    eexists (_ :: la), (_ :: lb), (_ :: lc).
    rewrite <- !app_assoc. simpl.
    split; [reflexivity|]. split; [reflexivity|]. split; [reflexivity|].
    split; [lia|]. split; [lia|]. split; [lia|].
    intros [|i] t' Hi; simpl in Hi.
    + injection Hi as <-. exists cube_t, rows, cur, prev. auto 10.
    + apply Hall, Hi.
Qed.

End DataCells.

Lemma data_cells_entries {A : Type} (irs_params : list irs_param)
      (mtm_irs rates_and_fx : list (matrix A)) (M0 : nat) (g : globals A) :
  data_cells irs_params mtm_irs rates_and_fx M0 = Ok g ->
  length (mtm g) = (length mtm_irs + 4) / 10 /\
  length (rates_fx g) = length (mtm g) /\
  length (prev_rates_fx g) = length (mtm g) /\
  forall i,
    i < length (mtm g) ->
    exists cube_t rows cur prev,
      mtm_irs !! (5 + 10 * i) = Some cube_t /\
      take_idx cube_t (port_idx g) = Ok rows /\
      rates_and_fx !! (5 + 10 * i) = Some cur /\
      rates_and_fx !! (10 * i) = Some prev /\
      mtm g !! i = Some (lmap (take (2 * M0)) rows) /\
      rates_fx g !! i = Some (transpose (lmap (take (2 * M0)) cur)) /\
      prev_rates_fx g !! i = Some (transpose (lmap (take (2 * M0)) prev)).
Proof.
  unfold data_cells. intros Hrun.
  apply rbind_Ok in Hrun as (m & _ & Hrun).
  apply rbind_Ok in Hrun as ([[a b] c] & Hloop & Hrun).
  injection Hrun as <-. cbn [mtm rates_fx prev_rates_fx port_idx].
  apply data_loop in Hloop
    as (la & lb & lc & -> & -> & -> & La & Lb & Lc & Hall).
  cbn [app]. rewrite arange10_length in La, Lb, Lc.
  replace (length mtm_irs + 9 - 5) with (length mtm_irs + 4) in * by lia.
  split; [exact La|]. split; [congruence|]. split; [congruence|].
  intros i Hi.
  destruct (Hall i (5 + 10 * i))
    as (cube_t & rows & cur & prev & H1 & H2 & H3 & H4 & H5 & H6 & H7).
  { apply arange10_lookup. rewrite arange10_length.
    replace (length mtm_irs + 9 - 5) with (length mtm_irs + 4) by lia. lia. }
  replace (5 + 10 * i - 5) with (10 * i) in H4 by lia.
  exists cube_t, rows, cur, prev. auto 10.
Qed.

(** X8: when the data cells return, for a counterparty with at least one
    swap, [mtm], [rates_fx] and [prev_rates_fx] have one entry per time
    step [t] of [np.arange(5, T, 10)]; entry [i] holds the first [2 * M]
    scenarios of the prices of the counterparty's swaps at
    [t = 5 + 10 * i], of all processes at [t], transposed, and of all
    processes at [t - 5], transposed; and [t - 5] is the reset date
    [reset_idx[t]]. *)
Theorem data_cells_dates {A : Type} (irs_params : list irs_param)
        (mtm_irs rates_and_fx : list (matrix A)) (M0 : nat) (g : globals A) :
  data_cells irs_params mtm_irs rates_and_fx M0 = Ok g ->
  port_idx g <> [] ->
  length (mtm g) = (length mtm_irs + 4) / 10 /\
  length (rates_fx g) = length (mtm g) /\
  length (prev_rates_fx g) = length (mtm g) /\
  forall i,
    i < length (mtm g) ->
    exists cube_t rows cur prev,
      mtm_irs !! (5 + 10 * i) = Some cube_t /\
      take_idx cube_t (port_idx g) = Ok rows /\
      rates_and_fx !! (5 + 10 * i) = Some cur /\
      rates_and_fx !! (10 * i) = Some prev /\
      mtm g !! i = Some (lmap (take (2 * M0)) rows) /\
      rates_fx g !! i = Some (transpose (lmap (take (2 * M0)) cur)) /\
      prev_rates_fx g !! i = Some (transpose (lmap (take (2 * M0)) prev)) /\
      (5 + 10 * i <= 100 ->
       reset_idx !! (5 + 10 * i) = Some (Z.of_nat (10 * i))).
Proof.
  intros Hdata _.
  destruct (data_cells_entries _ _ _ _ _ Hdata) as (Lm & Lr & Lp & Hall).
  split; [exact Lm|]. split; [exact Lr|]. split; [exact Lp|].
  intros i Hi.
  destruct (Hall i Hi)
    as (cube_t & rows & cur & prev & H1 & H2 & H3 & H4 & H5 & H6 & H7).
  exists cube_t, rows, cur, prev. do 7 (split; [assumption|]).
  intros Ht. rewrite reset_idx_lookup by exact Ht. f_equal.
  replace (Z.of_nat (5 + 10 * i) - 1)%Z with (4 + Z.of_nat (2 * i) * 5)%Z
    by lia.
  rewrite Z.div_add by lia. change (4 / 5)%Z with 0%Z. lia.
Qed.

Lemma data_cells_dates_witness :
  length (mtm demo_g) = (length (demo_cube demo_price 21) + 4) / 10 /\
  length (rates_fx demo_g) = length (mtm demo_g) /\
  length (prev_rates_fx demo_g) = length (mtm demo_g) /\
  forall i,
    i < length (mtm demo_g) ->
    exists cube_t rows cur prev,
      demo_cube demo_price 21 !! (5 + 10 * i) = Some cube_t /\
      take_idx cube_t (port_idx demo_g) = Ok rows /\
      demo_cube demo_rate 12 !! (5 + 10 * i) = Some cur /\
      demo_cube demo_rate 12 !! (10 * i) = Some prev /\
      mtm demo_g !! i = Some (lmap (take (2 * 64)) rows) /\
      rates_fx demo_g !! i = Some (transpose (lmap (take (2 * 64)) cur)) /\
      prev_rates_fx demo_g !! i
      = Some (transpose (lmap (take (2 * 64)) prev)) /\
      (5 + 10 * i <= 100 ->
       reset_idx !! (5 + 10 * i) = Some (Z.of_nat (10 * i))).
Proof.
  apply (data_cells_dates demo_irs_params (demo_cube demo_price 21)
           (demo_cube demo_rate 12) 64 demo_g demo_globals_ok).
  discriminate.
Defined.

(** The number of dates in [np.arange(1, T, 10)] and in
    [np.arange(5, T, 10)]. *)
Lemma dates_count (T : nat) :
  (T + 9 - 1) / 10
  = (T + 9 - 5) / 10 + (if decide (2 <= T mod 10 <= 5) then 1 else 0).
Proof.
  pose proof (Nat.div_mod_eq T 10) as HT.
  pose proof (Nat.mod_upper_bound T 10 ltac:(lia)) as Hb.
  set (a := T / 10) in *. set (b := T mod 10) in *.
  replace (T + 9 - 1) with (a * 10 + (b + 8)) by lia.
  replace (T + 9 - 5) with (a * 10 + (b + 4)) by lia.
  rewrite !Nat.div_add_l by lia.
  do 10 (destruct b as [|b]; [case_decide; try lia; simpl; lia|]). lia.
Qed.

(** The loop over [range(nt)] reads a date that the lists do not hold. *)
Lemma train_missing_date {A GP : Type} `{Num A} (lib : Lib A GP)
      (g : globals A) (r : rng) :
  length (rates_fx g) < nt g ->
  length (prev_rates_fx g) = length (rates_fx g) ->
  exists e, train lib g r = Raise e.
Proof.
  intros Hlt Hprev. unfold train.
  apply pfold_raises with (x := (length (rates_fx g), 0)).
  - apply list_elem_of_bind. exists (length (rates_fx g)).
    split; [|apply elem_of_seq; lia].
    apply list_elem_of_bind. exists 0. split; [|apply elem_of_seq; lia].
    apply list_elem_of_singleton. reflexivity.
  - intros pf r0. unfold train_step.
    assert (Hin : exists e,
               train_inputs g (length (rates_fx g)) 0 = Raise e).
    { unfold train_inputs.
      destruct (getitem (port_idx g) 0) as [key|e]; simpl; [|eauto].
      destruct (dict_get (irs_map g) key) as [cols|e]; simpl; [|eauto].
      assert (Hb : getitem (rates_fx g) (length (rates_fx g))
                   = Raise IndexError).
      { unfold getitem. rewrite lookup_ge_None_2 by lia. reflexivity. }
      assert (Hc : getitem (prev_rates_fx g) (length (rates_fx g))
                   = Raise IndexError).
      { unfold getitem. rewrite lookup_ge_None_2 by lia. reflexivity. }
      case_decide; [rewrite Hc|rewrite Hb]; simpl; eauto. }
    destruct Hin as [e He]. exists e. apply pbind_raises.
    rewrite He. reflexivity.
Qed.

(** X9: for a counterparty with at least one swap, [nt] counts the dates
    of [np.arange(1, T, 10)], the three lists of the data cell hold the
    dates of [np.arange(5, T, 10)]: the two numbers are equal
    unless [T mod 10] is 2, 3, 4 or 5, and in that case [nt] is one more
    and the training loop, which runs over [range(nt)], does not
    return. *)
Theorem training_needs_matching_dates {A GP : Type} `{Num A} (lib : Lib A GP)
        (irs_params : list irs_param)
        (mtm_irs rates_and_fx : list (matrix A)) (M0 : nat) (g : globals A) :
  data_cells irs_params mtm_irs rates_and_fx M0 = Ok g ->
  port_idx g <> [] ->
  (~ 2 <= length mtm_irs mod 10 <= 5 -> nt g = length (rates_fx g)) /\
  (2 <= length mtm_irs mod 10 <= 5 ->
   nt g = S (length (rates_fx g)) /\
   forall r, exists e, train lib g r = Raise e).
Proof.
  intros Hdata _.
  pose proof (data_cells_Ok _ _ _ _ _ Hdata) as (_ & _ & Hnt & _).
  pose proof (data_cells_entries _ _ _ _ _ Hdata) as (Lm & Lr & Lp & _).
  rewrite arange10_length in Hnt.
  pose proof (dates_count (length mtm_irs)) as Hcount.
  replace (length mtm_irs + 9 - 5) with (length mtm_irs + 4) in Hcount by lia.
  split.
  - intros Hmod. rewrite decide_False in Hcount by exact Hmod. lia.
  - intros Hmod. rewrite decide_True in Hcount by exact Hmod.
    split; [lia|]. intros r. apply train_missing_date; lia.
Qed.

Lemma short_g_ok :
  data_cells demo_irs_params (take 15 (demo_cube demo_price 21))
             (take 15 (demo_cube demo_rate 12)) 64 = Ok short_g.
Proof. vm_compute. reflexivity. Qed.

Lemma training_needs_matching_dates_witness :
  nt short_g = S (length (rates_fx short_g)) /\
  forall r, exists e, train demo_lib short_g r = Raise e.
Proof.
  apply (training_needs_matching_dates demo_lib demo_irs_params
           (take 15 (demo_cube demo_price 21))
           (take 15 (demo_cube demo_rate 12)) 64 short_g short_g_ok).
  - discriminate.
  - vm_compute. lia.
Defined.

(** ** The simulation *)

(** X10: for numbers of paths and of dates that are natural numbers
    ([M >= 0], [nt >= 0]) and model parameters that are Python numbers, in
    the namespace of the notebook [CVA_simulation] ends in an exception;
    with [nt = 0] the exception is [ZeroDivisionError], raised at
    [dt = T/nt], in any namespace. *)
Theorem CVA_simulation_raises_for_natural_counts {A GP : Type} `{Num A}
        (lib : Lib A GP) (call : string -> A -> result A) (g : globals A)
        (pf : gmap nat (pf_entry A GP)) (mp : model_params A)
        (dm : def_model A) (r : rng) :
  (forall M nt : nat,
      exists e,
        CVA_simulation lib (notebook_ns call) g pf
                       {| sp_M := M; sp_nt := nt |} mp dm r = Raise e) /\
  (forall ns (M : nat),
      CVA_simulation lib ns g pf {| sp_M := M; sp_nt := 0 |} mp dm r
      = Raise ZeroDivisionError).
Proof.
  assert (Hzero : forall ns sp,
             sp_nt sp = 0 ->
             CVA_simulation lib ns g pf sp mp dm r = Raise ZeroDivisionError).
  { intros ns sp Hnt. unfold CVA_simulation. apply pbind_raises.
    unfold time_step. rewrite decide_True by exact Hnt. reflexivity. }
  split.
  - intros M nt. destruct (decide (nt = 0)) as [Hnt|Hnt].
    + exists ZeroDivisionError. apply Hzero. exact Hnt.
    + destruct (CVA_simulation_name_error lib (notebook_ns call) g pf
                  {| sp_M := M; sp_nt := nt |} mp dm r
                  (notebook_ns_sqrt call)) as [Hno _]; [simpl; lia|].
      destruct (CVA_simulation lib (notebook_ns call) g pf
                  {| sp_M := M; sp_nt := nt |} mp dm r) as [res|e].
      * destruct (Hno res eq_refl).
      * exists e. reflexivity.
  - intros ns M. apply Hzero. reflexivity.
Qed.

(** X11: in a namespace in which [sqrt] is bound to a function that is
    positive at [M], with [np.std] and [np.exp] non-negative, [dt >= 0] and
    a recovery rate of at most 1, a call whose first loop returns does
    return, and the lower bound, the estimate and the upper bound of the
    CVA are in this order, for the surrogate and for the analytical
    prices. *)
Theorem CVA_simulation_bounds_with_sqrt {A GP : Type} `{NumLaws A}
        (lib : Lib A GP) (ns : gmap string (A -> result A)) (sqrt : A -> A)
        (g : globals A) (pf : gmap nat (pf_entry A GP)) (sp : sim_params)
        (mp : model_params A) (dm : def_model A) (dt : A) (r r' : rng)
        (pi : pi_t A) (dPD : matrix A) :
  ns !! "sqrt"%string = Some (fun x => Ok (sqrt x)) ->
  (f0 < sqrt (of_int (Z.of_nat (sp_M sp))))%num ->
  (forall a, (f0 <= np_std lib a)%num) ->
  (forall x, (f0 <= np_exp lib x)%num) ->
  time_step mp (sp_nt sp) = Ok dt -> (f0 <= dt)%num ->
  (recovery dm <= f1)%num ->
  exposure_loop lib g pf sp mp dt r = Ok ((pi, dPD), r') ->
  exists CVA,
    CVA_simulation lib ns g pf sp mp dm r = Ok ((CVA, pi), r') /\
    bounds_ordered CVA.
Proof.
  intros Hsqrt Hpos Hstd Hexp Hdt Hdt0 Hrec Hloop.
  pose proof (exposure_loop_Ok _ _ _ _ _ _ _ _ _ _ Hloop) as (HdPD & Lt & Lx).
  destruct (cva_loop_ordered_with_sqrt lib ns sqrt sp mp dm dt pi dPD)
    as (CVA & HCVA & Hord); try assumption.
  { rewrite HdPD. apply length_replicate. }
  exists CVA. split; [|exact Hord].
  unfold CVA_simulation.
  rewrite (pbind_returns _ _ r r dt) by (rewrite Hdt; reflexivity).
  rewrite (pbind_returns _ _ r r' (pi, dPD)) by exact Hloop.
  rewrite (pbind_returns _ _ r' r' CVA) by (rewrite HCVA; reflexivity).
  reflexivity.
Qed.

Lemma Qsquare_nonneg (a : Q) : (0 <= a * a)%Q.
Proof.
  destruct (Qlt_le_dec a 0) as [Hneg|Hpos].
  - assert (E : (a * a == (- a) * (- a))%Q) by ring. rewrite E.
    apply Qmult_le_0_compat; lra.
  - apply Qmult_le_0_compat; exact Hpos.
Qed.

Lemma demo_exp_nonneg (x : Q) : (f0 <= np_exp demo_lib x)%num.
Proof.
  apply Q_fle. rewrite Q_f0.
  change (np_exp demo_lib x) with (1 + x + x * x / 2)%Q.
  pose proof (Qsquare_nonneg (x + 1)) as Hsq.
  assert (E : (1 + x + x * x / 2 == ((x + 1) * (x + 1) + 1) * (1 # 2))%Q)
    by field.
  rewrite E.
  apply Qmult_le_0_compat; [lra|discriminate].
Qed.

Lemma CVA_simulation_bounds_with_sqrt_witness :
  exists CVA,
    CVA_simulation demo_lib demo_ns demo_g demo_portfolio demo_sim demo_model
                   demo_def g0 = Ok ((CVA, demo_pi), demo_rng') /\
    bounds_ordered CVA.
Proof.
  apply (CVA_simulation_bounds_with_sqrt
           demo_lib demo_ns heron demo_g demo_portfolio demo_sim demo_model
           demo_def demo_dt g0 demo_rng' demo_pi demo_dPD).
  - reflexivity.
  - vm_compute. reflexivity.
  - intros a. vm_compute. reflexivity.
  - exact demo_exp_nonneg.
  - exact demo_time_step.
  - vm_compute. reflexivity.
  - vm_compute. reflexivity.
  - exact demo_exposed_ok.
Defined.

(** ** The rescaling of the prices and its inverse *)

(** X12: in exact arithmetic the transformation
    [min_y_ + pred_sc * (max_y_ - min_y_)] that [CVA_simulation] applies to
    a prediction inverts the rescaling of the prices of the training loop,
    in its branch for a price range of zero as in the other one. *)
Theorem price_rescaling_round_trip (irs_prices : list Q) :
  irs_prices <> [] ->
  exists mn mx sc,
    np_min irs_prices = Ok mn /\ np_max irs_prices = Ok mx /\
    rescale_prices irs_prices = Ok sc /\
    Forall2 (fun p y => (mn + y * (mx - mn) == p)%Q) irs_prices sc.
Proof.
  intros Hne.
  destruct (np_min_total irs_prices Hne) as [mn Hmn].
  destruct (np_max_total irs_prices Hne) as [mx Hmx].
  exists mn, mx.
  pose proof (np_min_spec _ _ Hmn) as [Hlo _].
  pose proof (np_max_spec _ _ Hmx) as [Hhi _].
  unfold rescale_prices. rewrite Hmx, Hmn. simpl.
  destruct (Qeq_bool (mx - mn) (inject_Z 0)) eqn:E; simpl.
  - apply Qeq_bool_iff in E. eexists. do 3 (split; [reflexivity|]).
    apply Forall2_fmap_r, Forall_Forall2_diag, Forall_forall. intros p Hp.
    rewrite Forall_forall in Hlo, Hhi.
    pose proof (proj1 (Q_fle _ _) (Hlo p Hp)) as H1.
    pose proof (proj1 (Q_fle _ _) (Hhi p Hp)) as H2.
    change (inject_Z 0) with 0%Q in E.
    assert (Hz : ((p - mn) * (mx - mn) == 0 * (mx - mn))%Q)
      by (apply Qmult_comp; [lra|reflexivity]).
    unfold compose. lra.
  - apply Qeq_bool_neq in E. eexists. do 3 (split; [reflexivity|]).
    apply Forall2_fmap_r, Forall_Forall2_diag, Forall_forall. intros p Hp.
    unfold compose. field. exact E.
Qed.

Lemma price_rescaling_round_trip_witness :
  exists mn mx sc,
    np_min prices_exact = Ok mn /\ np_max prices_exact = Ok mx /\
    rescale_prices prices_exact = Ok sc /\
    Forall2 (fun p y => (mn + y * (mx - mn) == p)%Q) prices_exact sc.
Proof.
  apply (price_rescaling_round_trip prices_exact). discriminate.
Defined.

(** ** Clipping *)

Section ClippingInside.
Context {A GP : Type} `{NumLaws A}.
Local Open Scope num_scope.

Lemma clip_inside (lo hi x : A) : lo <= x -> x <= hi -> clip lo hi x = x.
Proof.
  intros Hlo Hhi. unfold clip.
  rewrite (proj2 (fltb_false x lo) Hlo), (proj2 (fltb_false hi x) Hhi).
  reflexivity.
Qed.

Lemma clip_rows_inside (mn mx row : list A) (ks : list nat) :
  (forall k x lo hi,
      row !! k = Some x -> mn !! k = Some lo -> mx !! k = Some hi ->
      lo <= x /\ x <= hi) ->
  foldl (clip_row mn mx) row ks = row.
Proof.
  intros Hin. induction ks as [|k ks IH]; simpl; [reflexivity|].
  assert (Hk : clip_row mn mx row k = row).
  { unfold clip_row.
    destruct (row !! k) as [x|] eqn:Ex; [|reflexivity].
    destruct (mn !! k) as [lo|] eqn:El; [|reflexivity].
    destruct (mx !! k) as [hi|] eqn:Eh; [|reflexivity].
    destruct (Hin k x lo hi Ex El Eh) as [H1 H2].
    rewrite clip_inside by assumption. apply list_insert_id, Ex. }
  rewrite Hk. exact IH.
Qed.

End ClippingInside.

(** X13: the clipping of the test inputs leaves unchanged every scenario
    whose factors all lie between the stored bounds
    [portfolio[key]['min'][i]] and [portfolio[key]['max'][i]]. *)
Theorem clipping_keeps_inside_scenarios {A GP : Type} `{NumLaws A}
        (g : globals A) (pf : gmap nat (pf_entry A GP)) (i j : nat)
        (idx : list nat) (test_rates : matrix A) :
  test_inputs g pf i j idx = Ok test_rates ->
  exists key cols e mn mx,
    port_idx g !! j = Some key /\ irs_map g !! key = Some cols /\
    pf !! key = Some e /\
    pf_min e !! i = Some (Some mn) /\ pf_max e !! i = Some (Some mx) /\
    forall m s,
      idx !! m = Some s ->
      exists factors,
        scenario_factors g i cols s = Ok factors /\
        ((forall k x lo hi,
             factors !! k = Some x -> mn !! k = Some lo ->
             mx !! k = Some hi -> (lo <= x)%num /\ (x <= hi)%num) ->
         test_rates !! m = Some factors).
Proof.
  intros Hrun.
  apply test_inputs_rows in Hrun
    as (key & cols & e & mn & mx & Hkey & Hcols & He & Hmn & Hmx & _ & Hall).
  exists key, cols, e, mn, mx. do 5 (split; [assumption|]).
  intros m s Hs. destruct (Hall m s Hs) as (factors & Hf & Hrow).
  exists factors. split; [exact Hf|]. intros Hin.
  rewrite Hrow. f_equal. apply clip_rows_inside. exact Hin.
Qed.

Lemma clipping_keeps_inside_scenarios_witness :
  exists key cols e mn mx,
    port_idx demo_g !! 0 = Some key /\ irs_map demo_g !! key = Some cols /\
    demo_portfolio !! key = Some e /\
    pf_min e !! 1 = Some (Some mn) /\ pf_max e !! 1 = Some (Some mx) /\
    forall m s,
      [0; 3; 5; 7] !! m = Some s ->
      exists factors,
        scenario_factors demo_g 1 cols s = Ok factors /\
        ((forall k x lo hi,
             factors !! k = Some x -> mn !! k = Some lo ->
             mx !! k = Some hi -> (lo <= x)%num /\ (x <= hi)%num) ->
         demo_test !! m = Some factors).
Proof.
  exact (clipping_keeps_inside_scenarios demo_g demo_portfolio 1 0
           [0; 3; 5; 7] demo_test demo_test_ok).
Defined.

(** ** Clipping and rescaling of the test inputs, coordinate by coordinate *)

Section ClippingCoordinates.
Context {A GP : Type} `{NumLaws A}.
Local Open Scope num_scope.







End ClippingCoordinates.




(** On these scenarios the clipping acts in each of its three ways: of
    the factors of scenario 0, the first lies between the bounds and is
    kept, the second lies below the lower bound and the third above the
    upper bound, and each of these two is replaced by the bound. *)
Lemma fresh_scenario_is_clipped :
  exists e mn mx factors row,
    demo_portfolio !! 0 = Some e /\
    pf_min e !! 1 = Some (Some mn) /\ pf_max e !! 1 = Some (Some mx) /\
    scenario_factors fresh_g 1 [1; 11] 0 = Ok factors /\
    fresh_test !! 0 = Some row /\
    (exists x0 lo hi,
        factors !! 0 = Some x0 /\ mn !! 0 = Some lo /\ mx !! 0 = Some hi /\
        (lo <= x0)%Q /\ (x0 <= hi)%Q /\ row !! 0 = Some x0) /\
    (exists x0 lo,
        factors !! 1 = Some x0 /\ mn !! 1 = Some lo /\
        (x0 < lo)%Q /\ row !! 1 = Some lo) /\
    (exists x0 hi,
        factors !! 2 = Some x0 /\ mx !! 2 = Some hi /\
        (hi < x0)%Q /\ row !! 2 = Some hi).
Proof.
  eexists _, _, _, _, _.
  split; [vm_compute; reflexivity|]. split; [vm_compute; reflexivity|].
  split; [vm_compute; reflexivity|]. split; [vm_compute; reflexivity|].
  split; [vm_compute; reflexivity|].
  split; [|split].
  - eexists _, _, _.
    split; [vm_compute; reflexivity|]. split; [vm_compute; reflexivity|].
    split; [vm_compute; reflexivity|].
    split; [vm_compute; discriminate|].
    split; [vm_compute; discriminate|]. vm_compute. reflexivity.
  - eexists _, _.
    split; [vm_compute; reflexivity|]. split; [vm_compute; reflexivity|].
    split; vm_compute; reflexivity.
  - eexists _, _.
    split; [vm_compute; reflexivity|]. split; [vm_compute; reflexivity|].
    split; vm_compute; reflexivity.
Qed.


(** ** The variance of the surrogate *)

Section Variance.
Context {GP : Type} (lib : Lib Q GP).

Lemma instrument_variance_nonneg (g : globals Q)
      (pf : gmap nat (pf_entry Q GP)) (i j : nat) (idx : list nat)
      (dp dv dobs : list Q) :
  instrument_values lib g pf i j idx = Ok (dp, dv, dobs) ->
  Forall (fun v => (0 <= v)%Q) dv.
Proof.
  unfold instrument_values. intros Hrun.
  apply rbind_Ok in Hrun as (mtm_i & _ & Hrun).
  apply rbind_Ok in Hrun as (prices_j & _ & Hrun).
  apply rbind_Ok in Hrun as (irs_prices & _ & Hrun).
  apply rbind_Ok in Hrun as (test_rates & _ & Hrun).
  apply rbind_Ok in Hrun as (key & _ & Hrun).
  apply rbind_Ok in Hrun as (e & _ & Hrun).
  apply rbind_Ok in Hrun as (min_ & _ & Hrun).
  apply rbind_Ok in Hrun as (max_ & _ & Hrun).
  apply rbind_Ok in Hrun as (test_rates_sc & _ & Hrun).
  apply rbind_Ok in Hrun as (gp & _ & Hrun).
  apply rbind_Ok in Hrun as (out & _ & Hrun).
  apply rbind_Ok in Hrun as (min_y_ & _ & Hrun).
  apply rbind_Ok in Hrun as (max_y_ & _ & Hrun).
  injection Hrun as _ <- _.
  apply Forall_fmap, Forall_forall. intros s _. apply Qsquare_nonneg.
Qed.

Lemma zip_with_add_nonneg (u v : list Q) :
  Forall (fun x => (0 <= x)%Q) u -> Forall (fun x => (0 <= x)%Q) v ->
  Forall (fun x => (0 <= x)%Q) (zip_with fadd u v).
Proof.
  intros Hu. revert v. induction Hu as [|x u Hx _ IH]; intros v Hv;
    [constructor|].
  destruct Hv as [|y v Hy Hv]; simpl; constructor; [|apply IH, Hv].
  change (0 <= x + y)%Q. lra.
Qed.

Lemma exposure_step_variance (g : globals Q) (pf : gmap nat (pf_entry Q GP))
      (M n : nat) (haz_rate dt : Q) (pi pi' : pi_t Q) (dPD dPD' : matrix Q)
      (i : nat) (r r' : rng) :
  exposure_step lib g pf M n haz_rate dt (pi, dPD) i r = Ok ((pi', dPD'), r') ->
  Forall (Forall (fun v => (0 <= v)%Q)) (pi_tilde_var pi) ->
  Forall (Forall (fun v => (0 <= v)%Q)) (pi_tilde_var pi').
Proof.
  intros Hrun Hinv.
  apply exposure_step_Ok in Hrun
    as (pred_ & var_ & obs_ & Hloop & _ & _ & _ & _ & _ & -> & _).
  apply Forall_insert; [exact Hinv|].
  apply Forall_fmap. change (Forall (fun v : Q => (0 <= v)%Q) var_).
  revert Hloop.
  apply (pfold_invariant
           (fun acc : list Q * list Q * list Q =>
              Forall (fun v => (0 <= v)%Q) acc.1.2)).
  - intros acc j g1 acc' g2 Hacc Hstep. unfold instrument_step in Hstep.
    apply pbind_Ok in Hstep as (idx & g3 & _ & Hstep).
    apply lift_Ok in Hstep as [Hstep _].
    apply rbind_Ok in Hstep as ([[dp dv] dobs] & Hvals & Hstep).
    injection Hstep as <-. simpl.
    apply zip_with_add_nonneg; [exact Hacc|].
    eapply instrument_variance_nonneg, Hvals.
  - simpl. apply Forall_replicate. apply Qle_refl.
Qed.

End Variance.

(** X14: in exact arithmetic every entry of [pi['tilde_var']] that the
    first loop of [CVA_simulation] returns is non-negative. *)
Theorem exposure_variance_nonnegative {GP : Type} (lib : Lib Q GP)
        (g : globals Q) (pf : gmap nat (pf_entry Q GP)) (sp : sim_params)
        (mp : model_params Q) (dt : Q) (r r' : rng) (pi : pi_t Q)
        (dPD : matrix Q) :
  exposure_loop lib g pf sp mp dt r = Ok ((pi, dPD), r') ->
  Forall (Forall (fun v => (0 <= v)%Q)) (pi_tilde_var pi).
Proof.
  unfold exposure_loop.
  apply (pfold_invariant
           (fun st : pi_t Q * matrix Q =>
              Forall (Forall (fun v => (0 <= v)%Q)) (pi_tilde_var st.1))).
  - intros [pi0 dPD0] i g1 [pi1 dPD1] g2 Hinv Hstep.
    eapply exposure_step_variance; eassumption.
  - simpl. apply Forall_replicate, Forall_replicate. apply Qle_refl.
Qed.

Lemma exposure_variance_nonnegative_witness :
  Forall (Forall (fun v => (0 <= v)%Q)) (pi_tilde_var demo_pi).
Proof.
  exact (exposure_variance_nonnegative demo_lib demo_g demo_portfolio
           demo_sim demo_model demo_dt g0 demo_rng' demo_pi demo_dPD
           demo_exposed_ok).
Defined.

(** ** Instruments beyond the twentieth *)

Lemma random_choice_range_total (M : nat) (g : rng) :
  exists idx g1, random_choice (seq 0 (2 * M)) M g = Ok (idx, g1).
Proof.
  destruct M as [|M].
  - eexists _, _. reflexivity.
  - destruct (random_choice_Ok (seq 0 (2 * S M)) (S M) g) as (out & Hout & _).
    + intros Hnil. apply (f_equal length) in Hnil.
      rewrite length_seq in Hnil. simpl in Hnil. lia.
    + eauto.
Qed.

Section Untrained.
Context {A GP : Type} `{Num A} (lib : Lib A GP).

(** An instrument whose slots hold the placeholder cannot be valued. *)
Lemma instrument_values_untrained (g : globals A)
      (pf : gmap nat (pf_entry A GP)) (i j key n : nat) (idx : list nat) :
  port_idx g !! j = Some key -> pf !! key = Some (empty_entry n) ->
  exists e, instrument_values lib g pf i j idx = Raise e.
Proof.
  intros Hkey He.
  destruct (instrument_values lib g pf i j idx) as [v|e] eqn:E; [|eauto].
  exfalso. unfold instrument_values in E.
  apply rbind_Ok in E as (mtm_i & _ & E).
  apply rbind_Ok in E as (prices_j & _ & E).
  apply rbind_Ok in E as (irs_prices & _ & E).
  apply rbind_Ok in E as (test_rates & Htest & _).
  apply test_inputs_rows in Htest
    as (key' & cols & e & mn & mx & Hkey' & _ & He' & Hmn & _).
  assert (key' = key) by congruence. subst key'.
  assert (e = empty_entry n) by congruence. subst e.
  simpl in Hmn. apply lookup_replicate in Hmn as [Hmn _]. discriminate.
Qed.

Lemma exposure_loop_untrained (g : globals A)
      (pf : gmap nat (pf_entry A GP)) (sp : sim_params)
      (mp : model_params A) (dt : A) (j key n : nat) (r : rng) :
  1 <= sp_nt sp -> j < mp_size mp ->
  port_idx g !! j = Some key -> pf !! key = Some (empty_entry n) ->
  exists e, exposure_loop lib g pf sp mp dt r = Raise e.
Proof.
  intros Hnt Hj Hkey He. unfold exposure_loop.
  apply pfold_raises with (x := 0); [apply elem_of_seq; lia|].
  intros [pi dPD] g1. unfold exposure_step.
  assert (Hinner : exists e,
             pfold (instrument_step lib g pf (sp_M sp) 0) (seq 0 (mp_size mp))
                   (replicate (sp_M sp) f0, replicate (sp_M sp) f0,
                    replicate (sp_M sp) f0) g1 = Raise e).
  { apply pfold_raises with (x := j); [apply elem_of_seq; lia|].
    intros acc g2. unfold instrument_step.
    destruct (random_choice_range_total (sp_M sp) g2) as (idx & g3 & Hidx).
    rewrite (pbind_returns _ _ g2 g3 idx) by exact Hidx.
    destruct (instrument_values_untrained g pf 0 j key n idx Hkey He)
      as [e Hv].
    exists e. rewrite Hv. reflexivity. }
  destruct Hinner as [e Hinner]. exists e. apply pbind_raises. exact Hinner.
Qed.

End Untrained.

(** X15: the simulation cannot value more instruments than the 20 that
    the training loop fits: with [model_params['size'] > 20] and at least
    one date, the first loop of [CVA_simulation] raises, whatever the
    data and the library code. *)
Theorem simulation_limited_to_trained_swaps {A GP : Type} `{Num A}
        (lib : Lib A GP) (irs_params : list irs_param)
        (mtm_irs rates_and_fx : list (matrix A)) (M0 : nat) (g : globals A)
        (pf : gmap nat (pf_entry A GP)) (r r1 r2 : rng)
        (sp : sim_params) (mp : model_params A) (dt : A) :
  data_cells irs_params mtm_irs rates_and_fx M0 = Ok g ->
  train lib g r = Ok (pf, r1) ->
  1 <= sp_nt sp -> 20 < mp_size mp ->
  exists e, exposure_loop lib g pf sp mp dt r2 = Raise e.
Proof.
  intros Hdata Htrain Hnt Hsize.
  destruct (port_idx g !! 20) as [key|] eqn:Hkey.
  - apply (exposure_loop_untrained lib g pf sp mp dt 20 key (nt g));
      [exact Hnt|lia|exact Hkey|].
    eapply train_untouched; [exact Htrain| |].
    + eapply list_elem_of_lookup_2, Hkey.
    + intros Hin. apply list_elem_of_lookup in Hin as (j & Hj).
      apply lookup_take_Some in Hj as [Hj Hlt].
      apply data_cells_Ok in Hdata as (Hport & _).
      assert (Hnd : NoDup (port_idx g))
        by (rewrite Hport; apply where_from_NoDup).
      pose proof (NoDup_lookup _ _ _ _ Hnd Hj Hkey). lia.
  - unfold exposure_loop.
    apply pfold_raises with (x := 0); [apply elem_of_seq; lia|].
    intros [pi dPD] g1. unfold exposure_step.
    assert (Hinner : exists e,
               pfold (instrument_step lib g pf (sp_M sp) 0)
                     (seq 0 (mp_size mp))
                     (replicate (sp_M sp) f0, replicate (sp_M sp) f0,
                      replicate (sp_M sp) f0) g1 = Raise e).
    { apply pfold_raises with (x := 20); [apply elem_of_seq; lia|].
      intros acc g2. unfold instrument_step.
      destruct (random_choice_range_total (sp_M sp) g2) as (idx & g3 & Hidx).
      rewrite (pbind_returns _ _ g2 g3 idx) by exact Hidx.
      destruct (instrument_values lib g pf 0 20 idx) as [v|e] eqn:E;
        [|exists e; reflexivity].
      exfalso. unfold instrument_values in E.
      apply rbind_Ok in E as (mtm_i & _ & E).
      apply rbind_Ok in E as (prices_j & _ & E).
      apply rbind_Ok in E as (irs_prices & _ & E).
      apply rbind_Ok in E as (test_rates & Htest & _).
      apply test_inputs_rows in Htest
        as (key' & cols & e & mn & mx & Hkey' & _).
      congruence. }
    destruct Hinner as [e Hinner]. exists e. apply pbind_raises. exact Hinner.
Qed.

Lemma simulation_limited_to_trained_swaps_witness :
  exists e,
    exposure_loop demo_lib demo_g demo_portfolio demo_sim demo_model21 demo_dt
                  g0 = Raise e.
Proof.
  apply (simulation_limited_to_trained_swaps
           demo_lib demo_irs_params (demo_cube demo_price 21)
           (demo_cube demo_rate 12) 64 demo_g demo_portfolio g0 demo_rng g0
           demo_sim demo_model21 demo_dt demo_globals_ok demo_train_ok).
  - simpl. lia.
  - simpl. lia.
Defined.

(** ** The quartile grid covers the array *)

Section QuantileCover.
Local Open Scope Q_scope.

Lemma insert_sorted_elem (x y : Q) (s : list Q) :
  y ∈ insert_sorted x s <-> y = x \/ y ∈ s.
Proof.
  induction s as [|z s IH]; simpl.
  - rewrite list_elem_of_singleton. split; [auto|].
    intros [->|Hin]; [reflexivity|]. apply elem_of_nil in Hin. destruct Hin.
  - destruct (Qle_bool x z).
    + rewrite elem_of_cons. reflexivity.
    + rewrite !elem_of_cons, IH. tauto.
Qed.

Lemma np_sort_elem (y : Q) (a : list Q) : y ∈ np_sort a <-> y ∈ a.
Proof.
  unfold np_sort. induction a as [|x a IH]; simpl; [reflexivity|].
  rewrite insert_sorted_elem, elem_of_cons, IH. reflexivity.
Qed.

Lemma insert_sorted_ascending (x : Q) (s : list Q) :
  ascending s -> ascending (insert_sorted x s).
Proof.
  induction s as [|z s IH]; simpl; [intros _; split; [constructor|exact I]|].
  intros [Hz Hs]. change (fleb x z) with (Qle_bool x z).
  destruct (Qle_bool x z) eqn:E.
  - apply Qle_bool_iff in E. simpl. split; [|split; assumption].
    constructor; [exact E|].
    eapply Forall_impl; [exact Hz|]. intros w Hw. simpl in Hw. lra.
  - assert (Hlt : z <= x).
    { destruct (Qlt_le_dec z x) as [Hlt|Hle]; [lra|].
      apply Qle_bool_iff in Hle. congruence. }
    simpl. split; [|apply IH, Hs].
    apply Forall_forall. intros w Hw.
    apply insert_sorted_elem in Hw as [->|Hw]; [exact Hlt|].
    rewrite Forall_forall in Hz. apply Hz, Hw.
Qed.

Lemma np_sort_ascending (a : list Q) : ascending (np_sort a).
Proof.
  unfold np_sort. induction a as [|x a IH]; simpl; [exact I|].
  apply insert_sorted_ascending, IH.
Qed.

Lemma ascending_lookup (s : list Q) (i j : nat) (x y : Q) :
  ascending s -> (i <= j)%nat -> s !! i = Some x -> s !! j = Some y -> x <= y.
Proof.
  revert i j. induction s as [|z s IH]; intros i j Hs Hij Hx Hy;
    [discriminate|].
  destruct Hs as [Hz Hs]. destruct i as [|i].
  - injection Hx as <-. destruct j as [|j].
    + injection Hy as <-. apply Qle_refl.
    + rewrite Forall_forall in Hz. apply Hz.
      eapply list_elem_of_lookup_2, Hy.
  - destruct j as [|j]; [lia|]. simpl in Hx, Hy.
    apply (IH i j Hs); [lia|exact Hx|exact Hy].
Qed.

(** The quantiles 0 and 1 of a column are its least and its greatest
    value. *)
Lemma quartile_ends (a : list Q) (k : nat) (v : Q) :
  (k = 0 \/ k = 4)%nat -> quartile a k = Ok v ->
  exists y, y ∈ a /\ v == y /\
            (k = 0%nat -> Forall (fun x => y <= x) a) /\
            (k = 4%nat -> Forall (fun x => x <= y) a).
Proof.
  intros Hk. unfold quartile. intros Hrun.
  apply rbind_Ok in Hrun as (lo & Hlo & Hrun).
  apply rbind_Ok in Hrun as (hi & Hhi & Hrun).
  injection Hrun as <-. apply getitem_Ok in Hlo, Hhi.
  pose proof (np_sort_ascending a) as Hasc.
  set (s := np_sort a) in *. set (n := length s) in *.
  assert (Hmod : (((n - 1) * k) mod 4 = 0)%nat).
  { destruct Hk as [->| ->]; [rewrite Nat.mul_0_r; reflexivity|].
    apply Nat.Div0.mod_mul. }
  change (3 - (Nat.divmod ((n - 1) * k) 3 0 3).2)%nat
    with (((n - 1) * k) mod 4)%nat.
  rewrite Hmod.
  exists lo. split; [apply np_sort_elem; eapply list_elem_of_lookup_2, Hlo|].
  split.
  { change (lo * (1 - 0 / 4) + hi * (0 / 4) == lo). field. }
  split; intros ->.
  - rewrite Nat.mul_0_r in Hlo. change (0 / 4)%nat with 0%nat in Hlo.
    apply Forall_forall. intros x Hx.
    apply np_sort_elem, list_elem_of_lookup in Hx as (j & Hj).
    apply (ascending_lookup s 0 j lo x Hasc); [lia|exact Hlo|exact Hj].
  - rewrite Nat.div_mul in Hlo by lia.
    apply Forall_forall. intros x Hx.
    apply np_sort_elem, list_elem_of_lookup in Hx as (j & Hj).
    pose proof (lookup_lt_Some _ _ _ Hj) as Hlt.
    apply (ascending_lookup s j (n - 1) x lo Hasc);
      [unfold n, s; lia|exact Hj|exact Hlo].
Qed.

Lemma np_quantile_lookup (ar q : matrix Q) (k c : nat) :
  np_quantile ar = Ok q -> (k < 5)%nat -> (c < ncols ar)%nat ->
  exists col row v,
    column ar c = Ok col /\ q !! k = Some row /\ row !! c = Some v /\
    quartile col k = Ok v.
Proof.
  unfold np_quantile. intros Hq Hk Hc.
  apply rmapM_Ok in Hq.
  destruct (Forall2_lookup_l _ _ _ k k Hq) as (row & Hrow & Hr);
    [apply lookup_seq_lt; exact Hk|].
  apply rmapM_Ok in Hr.
  destruct (Forall2_lookup_l _ _ _ c c Hr) as (v & Hv & Hcv);
    [apply lookup_seq_lt; exact Hc|].
  apply rbind_Ok in Hcv as (col & Hcol & Hquart).
  exists col, row, v. auto.
Qed.

Lemma bucket_exists (x q0 q1 q2 q3 q4 : Q) :
  q0 <= x -> x <= q4 ->
  (q0 <= x /\ x <= q1) \/ (q1 <= x /\ x <= q2) \/
  (q2 <= x /\ x <= q3) \/ (q3 <= x /\ x <= q4).
Proof.
  intros H0 H4.
  destruct (Qlt_le_dec q1 x) as [H1|H1]; [|left; split; assumption].
  destruct (Qlt_le_dec q2 x) as [H2|H2]; [|right; left; split; lra].
  destruct (Qlt_le_dec q3 x) as [H3|H3]; [|right; right; left; split; lra].
  right; right; right. split; lra.
Qed.

Lemma in_bucket_true (ar q : matrix Q) (c k r : nat) (col qlo qhi : list Q)
      (lo hi x : Q) :
  column ar c = Ok col -> q !! k = Some qlo -> qlo !! c = Some lo ->
  q !! S k = Some qhi -> qhi !! c = Some hi -> col !! r = Some x ->
  lo <= x -> x <= hi ->
  exists m, in_bucket ar q c k = Ok m /\ m !! r = Some true.
Proof.
  intros Hcol Hqlo Hlo Hqhi Hhi Hx H1 H2. unfold in_bucket.
  rewrite Hcol. simpl.
  rewrite (proj2 (getitem_Ok _ _ _) Hqlo). simpl.
  rewrite (proj2 (getitem_Ok _ _ _) Hlo). simpl.
  rewrite (proj2 (getitem_Ok _ _ _) Hqhi). simpl.
  rewrite (proj2 (getitem_Ok _ _ _) Hhi). simpl.
  eexists. split; [reflexivity|].
  rewrite list_lookup_fmap, Hx. simpl. f_equal.
  change (Qle_bool lo x && Qle_bool x hi = true).
  rewrite (proj2 (Qle_bool_iff _ _) H1), (proj2 (Qle_bool_iff _ _) H2).
  reflexivity.
Qed.

Lemma column_in_some_bucket (ar q : matrix Q) (c r : nat) (row : list Q) :
  ar <> [] -> rect ar -> np_quantile ar = Ok q ->
  (c < ncols ar)%nat -> ar !! r = Some row ->
  exists k m, (k < 4)%nat /\ in_bucket ar q c k = Ok m /\ m !! r = Some true.
Proof.
  intros Hne Hrect Hq Hc Hrow.
  destruct (np_quantile_lookup ar q 0 c Hq) as (col & r0 & v0 & Hcol & Hr0 & Hv0 & Hq0);
    [lia|exact Hc|].
  destruct (np_quantile_lookup ar q 1 c Hq) as (col1 & r1 & v1 & Hcol1 & Hr1 & Hv1 & _);
    [lia|exact Hc|].
  destruct (np_quantile_lookup ar q 2 c Hq) as (col2 & r2 & v2 & Hcol2 & Hr2 & Hv2 & _);
    [lia|exact Hc|].
  destruct (np_quantile_lookup ar q 3 c Hq) as (col3 & r3 & v3 & Hcol3 & Hr3 & Hv3 & _);
    [lia|exact Hc|].
  destruct (np_quantile_lookup ar q 4 c Hq) as (col4 & r4 & v4 & Hcol4 & Hr4 & Hv4 & Hq4);
    [lia|exact Hc|].
  assert (col4 = col) by congruence. subst col4.
  assert (Hx : exists x, col !! r = Some x).
  { apply column_Ok in Hcol as [_ Hall].
    destruct (Forall2_lookup_l _ _ _ r row Hall Hrow) as (x & Hx & _). eauto. }
  destruct Hx as [x Hx].
  pose proof (list_elem_of_lookup_2 _ _ _ Hx) as Hin.
  destruct (quartile_ends col 0 v0 (or_introl eq_refl) Hq0)
    as (y0 & _ & E0 & Hmin & _).
  destruct (quartile_ends col 4 v4 (or_intror eq_refl) Hq4)
    as (y4 & _ & E4 & _ & Hmax).
  specialize (Hmin eq_refl). specialize (Hmax eq_refl).
  rewrite Forall_forall in Hmin, Hmax.
  pose proof (Hmin x Hin) as Hlo. pose proof (Hmax x Hin) as Hhi.
  destruct (bucket_exists x v0 v1 v2 v3 v4) as [[H1 H2]|[[H1 H2]|[[H1 H2]|[H1 H2]]]];
    [lra|lra| | | | ].
  - destruct (in_bucket_true ar q c 0 r col r0 r1 v0 v1 x) as (m & Hm & Ht);
      try assumption. exists 0%nat, m. split; [lia|auto].
  - destruct (in_bucket_true ar q c 1 r col r1 r2 v1 v2 x) as (m & Hm & Ht);
      try assumption. exists 1%nat, m. split; [lia|auto].
  - destruct (in_bucket_true ar q c 2 r col r2 r3 v2 v3 x) as (m & Hm & Ht);
      try assumption. exists 2%nat, m. split; [lia|auto].
  - destruct (in_bucket_true ar q c 3 r col r3 r4 v3 v4 x) as (m & Hm & Ht);
      try assumption. exists 3%nat, m. split; [lia|auto].
Qed.

Lemma row_in_some_cell (ar q : matrix Q) (r : nat) (row : list Q) (d c : nat) :
  ar <> [] -> rect ar -> np_quantile ar = Ok q -> ar !! r = Some row ->
  (c + d <= ncols ar)%nat ->
  exists ks m,
    length ks = d /\ Forall (fun k => (k < 4)%nat) ks /\
    cell_mask ar q c ks = Ok m /\ m !! r = Some true.
Proof.
  intros Hne Hrect Hq Hrow. revert c.
  induction d as [|d IH]; intros c Hc.
  - exists [], (lmap (fun _ => true) ar). split; [reflexivity|].
    split; [constructor|]. split; [reflexivity|].
    rewrite list_lookup_fmap, Hrow. reflexivity.
  - destruct (column_in_some_bucket ar q c r row Hne Hrect Hq) as (k & m & Hk & Hm & Ht);
      [lia|exact Hrow|].
    destruct (IH (S c)) as (ks & ms & Hlen & Hks & Hms & Hts); [lia|].
    exists (k :: ks), (zip_with andb m ms).
    split; [simpl; lia|]. split; [constructor; assumption|].
    split; [simpl; rewrite Hm, Hms; reflexivity|].
    rewrite lookup_zip_with, Ht. simpl. rewrite Hts. reflexivity.
Qed.

End QuantileCover.

Lemma cells2_elem (i j : nat) : i < 4 -> j < 4 -> [i; j] ∈ cells2.
Proof.
  intros Hi Hj. unfold cells2.
  apply list_elem_of_bind. exists i. split; [|apply elem_of_seq; lia].
  apply list_elem_of_bind. exists j. split; [|apply elem_of_seq; lia].
  apply list_elem_of_singleton. reflexivity.
Qed.

Lemma cells3_elem (i j k : nat) : i < 4 -> j < 4 -> k < 4 -> [i; j; k] ∈ cells3.
Proof.
  intros Hi Hj Hk. unfold cells3.
  apply list_elem_of_bind. exists i. split; [|apply elem_of_seq; lia].
  apply list_elem_of_bind. exists j. split; [|apply elem_of_seq; lia].
  apply list_elem_of_bind. exists k. split; [|apply elem_of_seq; lia].
  apply list_elem_of_singleton. reflexivity.
Qed.

(** X16: in exact arithmetic, on an array of at least two columns, rows 0
    and 4 of [np.quantile(ar, [0, 0.25, 0.5, 0.75, 1], axis=0)] are the
    column minima and maxima, and every row of the array belongs to at
    least one of the cells over which [stratified_sampling] loops. *)
Theorem quartile_cells_cover (ar : matrix Q) :
  ar <> [] -> rect ar -> 2 <= ncols ar ->
  exists q,
    np_quantile ar = Ok q /\
    (forall c,
        c < ncols ar ->
        exists col r0 r4 lo hi mn mx,
          column ar c = Ok col /\ q !! 0 = Some r0 /\ q !! 4 = Some r4 /\
          r0 !! c = Some lo /\ r4 !! c = Some hi /\
          np_min col = Ok mn /\ np_max col = Ok mx /\
          (lo == mn)%Q /\ (hi == mx)%Q) /\
    forall r,
      r < length ar ->
      exists ks rows,
        ks ∈ (if decide (ncols ar = 2) then cells2 else cells3) /\
        cell_rows ar q ks = Ok rows /\ r ∈ rows.
Proof.
  intros Hne Hrect Hdim.
  destruct (np_quantile_total ar Hne Hrect) as [q Hq].
  exists q. split; [exact Hq|]. split.
  - intros c Hc.
    destruct (np_quantile_lookup ar q 0 c Hq)
      as (col & r0 & v0 & Hcol & Hr0 & Hv0 & Hq0); [lia|exact Hc|].
    destruct (np_quantile_lookup ar q 4 c Hq)
      as (col4 & r4 & v4 & Hcol4 & Hr4 & Hv4 & Hq4); [lia|exact Hc|].
    assert (col4 = col) by congruence. subst col4.
    pose proof (column_nonempty ar c col Hne Hcol) as Hcne.
    destruct (np_min_total col Hcne) as [mn Hmn].
    destruct (np_max_total col Hcne) as [mx Hmx].
    exists col, r0, r4, v0, v4, mn, mx. do 7 (split; [assumption|]).
    destruct (quartile_ends col 0 v0 (or_introl eq_refl) Hq0)
      as (y0 & Hy0 & E0 & Hmin & _).
    destruct (quartile_ends col 4 v4 (or_intror eq_refl) Hq4)
      as (y4 & Hy4 & E4 & _ & Hmax).
    specialize (Hmin eq_refl). specialize (Hmax eq_refl).
    apply np_min_spec in Hmn as [Hlo Hmn_in].
    apply np_max_spec in Hmx as [Hhi Hmx_in].
    rewrite Forall_forall in Hmin, Hmax, Hlo, Hhi.
    pose proof (Hmin mn Hmn_in). pose proof (Hmax mx Hmx_in).
    pose proof (proj1 (Q_fle _ _) (Hlo y0 Hy0)).
    pose proof (proj1 (Q_fle _ _) (Hhi y4 Hy4)).
    split; lra.
  - intros r Hr.
    destruct (lookup_lt_is_Some_2 ar r Hr) as [row Hrow].
    case_decide as Hd.
    + destruct (row_in_some_cell ar q r row 2 0 Hne Hrect Hq Hrow)
        as (ks & m & Hlen & Hks & Hm & Ht); [lia|].
      destruct ks as [|i [|j [|]]]; try discriminate.
      inversion Hks as [|? ? Hi Hks']; subst.
      inversion Hks' as [|? ? Hj _]; subst.
      exists [i; j], (np_where m). split; [apply cells2_elem; assumption|].
      split; [unfold cell_rows; rewrite Hm; reflexivity|].
      apply where_from_elem. exists r. auto.
    + destruct (row_in_some_cell ar q r row 3 0 Hne Hrect Hq Hrow)
        as (ks & m & Hlen & Hks & Hm & Ht); [lia|].
      destruct ks as [|i [|j [|k [|]]]]; try discriminate.
      inversion Hks as [|? ? Hi Hks']; subst.
      inversion Hks' as [|? ? Hj Hks'']; subst.
      inversion Hks'' as [|? ? Hk _]; subst.
      exists [i; j; k], (np_where m).
      split; [apply cells3_elem; assumption|].
      split; [unfold cell_rows; rewrite Hm; reflexivity|].
      apply where_from_elem. exists r. auto.
Qed.

Lemma quartile_cells_cover_witness :
  exists q,
    np_quantile grid_exact = Ok q /\
    (forall c,
        c < ncols grid_exact ->
        exists col r0 r4 lo hi mn mx,
          column grid_exact c = Ok col /\ q !! 0 = Some r0 /\
          q !! 4 = Some r4 /\
          r0 !! c = Some lo /\ r4 !! c = Some hi /\
          np_min col = Ok mn /\ np_max col = Ok mx /\
          (lo == mn)%Q /\ (hi == mx)%Q) /\
    forall r,
      r < length grid_exact ->
      exists ks rows,
        ks ∈ (if decide (ncols grid_exact = 2) then cells2 else cells3) /\
        cell_rows grid_exact q ks = Ok rows /\ r ∈ rows.
Proof.
  apply (quartile_cells_cover grid_exact).
  - discriminate.
  - repeat constructor.
  - simpl. lia.
Defined.

(** ** Training and simulation read the same number of factors *)

(** X17: for a portfolio that the training loop returned, the test
    inputs of instrument [j] at date [i] have one row per drawn scenario
    and as many columns as the training inputs of that instrument and
    date, which is also the length of the four arrays of bounds stored in
    slot [i]. *)
Theorem test_inputs_match_training_shape {A GP : Type} `{NumLaws A}
        (lib : Lib A GP) (g : globals A) (r r' : rng)
        (pf : gmap nat (pf_entry A GP)) (i j : nat) (idx : list nat)
        (test_rates : matrix A) :
  train lib g r = Ok (pf, r') ->
  test_inputs g pf i j idx = Ok test_rates ->
  exists key cols e mn mx mnx mxx,
    port_idx g !! j = Some key /\ irs_map g !! key = Some cols /\
    pf !! key = Some e /\
    pf_min e !! i = Some (Some mn) /\ pf_max e !! i = Some (Some mx) /\
    min_sc_x e !! i = Some (Some mnx) /\ max_sc_x e !! i = Some (Some mxx) /\
    length mn = dim_of cols i /\ length mx = dim_of cols i /\
    length mnx = dim_of cols i /\ length mxx = dim_of cols i /\
    length test_rates = length idx /\
    Forall (fun row => length row = dim_of cols i) test_rates /\
    forall rates_,
      train_inputs g i j = Ok rates_ ->
      Forall (fun row => length row = dim_of cols i) rates_.
Proof.
  intros Htrain Htest.
  apply train_inv in Htrain.
  pose proof (test_inputs_rows _ _ _ _ _ _ Htest)
    as (key & cols & e & mn & mx & Hkey & Hcols & He & Hmn & Hmx & Hlen & _).
  apply test_inputs_Ok in Htest
    as (key' & cols' & e' & test0 & Hkey' & Hcols' & He' & _ & _ & Hshape0 &
        Hloop).
  assert (key' = key) by congruence. subst key'.
  assert (cols' = cols) by congruence. subst cols'.
  assert (e' = e) by congruence. subst e'.
  destruct (Htrain key e He i mn Hmn)
    as (mx' & mnx & mxx & cols' & Hcols'' & Hmx' & Hmnx & Hmxx & Hb).
  assert (cols' = cols) by congruence. subst cols'.
  assert (mx' = mx) by congruence. subst mx'.
  destruct Hb as (L1 & L2 & L3 & L4 & _).
  exists key, cols, e, mn, mx, mnx, mxx.
  do 11 (split; [assumption|]). split; [exact Hlen|]. split.
  - eapply clip_loop_shape; eassumption.
  - intros rates_ Hrates.
    apply train_inputs_shape in Hrates
      as (key' & cols' & Hkey'' & Hcols''' & Hshape).
    assert (key' = key) by congruence. subst key'.
    assert (cols' = cols) by congruence. subst cols'. exact Hshape.
Qed.

Lemma test_inputs_match_training_shape_witness :
  exists key cols e mn mx mnx mxx,
    port_idx demo_g !! 0 = Some key /\ irs_map demo_g !! key = Some cols /\
    demo_portfolio !! key = Some e /\
    pf_min e !! 1 = Some (Some mn) /\ pf_max e !! 1 = Some (Some mx) /\
    min_sc_x e !! 1 = Some (Some mnx) /\ max_sc_x e !! 1 = Some (Some mxx) /\
    length mn = dim_of cols 1 /\ length mx = dim_of cols 1 /\
    length mnx = dim_of cols 1 /\ length mxx = dim_of cols 1 /\
    length demo_test = length [0; 3; 5; 7] /\
    Forall (fun row => length row = dim_of cols 1) demo_test /\
    forall rates_,
      train_inputs demo_g 1 0 = Ok rates_ ->
      Forall (fun row => length row = dim_of cols 1) rates_.
Proof.
  exact (test_inputs_match_training_shape demo_lib demo_g g0 demo_rng
           demo_portfolio 1 0 [0; 3; 5; 7] demo_test demo_train_ok
           demo_test_ok).
Defined.

(** ** What one training step fits *)

(** X18: with more than one scenario in the arrays of step [i], a pass of
    the training loop that returns has fitted its regressor on the
    rescaled inputs and the rescaled prices of instrument [j] at step [i],
    both taken at the indices that [stratified_sampling] returned, row
    [s] of the inputs being the mapped factors of scenario [s], and has
    stored it in slot [i] of the entry of the swap. *)
Theorem training_step_fits_sampled_scenarios {A GP : Type} `{Num A}
        (lib : Lib A GP) (g : globals A) (pf pf' : gmap nat (pf_entry A GP))
        (i j : nat) (r r' : rng) :
  (forall m, rates_fx g !! i = Some m -> length m <> 1) ->
  (forall m, prev_rates_fx g !! i = Some m -> length m <> 1) ->
  train_step lib g pf (i, j) r = Ok (pf', r') ->
  exists key cols rates_ idx rates_sc_ mtm_i irs_prices irs_prices_sc_ X y gp e',
    port_idx g !! j = Some key /\ irs_map g !! key = Some cols /\
    train_inputs g i j = Ok rates_ /\
    (forall s row,
        rates_ !! s = Some row -> scenario_factors g i cols s = Ok row) /\
    stratified_sampling rates_ (M g) r = Ok (idx, r') /\
    rescale_inputs rates_ = Ok rates_sc_ /\
    mtm g !! i = Some mtm_i /\ mtm_i !! j = Some irs_prices /\
    rescale_prices irs_prices = Ok irs_prices_sc_ /\
    take_idx rates_sc_ idx = Ok X /\ take_idx irs_prices_sc_ idx = Ok y /\
    gp_fit lib X y = Ok gp /\
    pf' !! key = Some e' /\ GPs e' !! i = Some (Some gp).
Proof. apply train_step_fits. Qed.

Lemma demo_step_ok :
  train_step demo_lib demo_g (empty_portfolio (port_idx demo_g) (nt demo_g))
             (1, 0) g0 = Ok (demo_step_portfolio, demo_step_rng).
Proof. vm_compute. reflexivity. Qed.

Lemma demo_dates_many_scenarios (m : matrix Q) :
  rates_fx demo_g !! 1 = Some m \/ prev_rates_fx demo_g !! 1 = Some m ->
  length m <> 1.
Proof.
  intros [Hm|Hm]; vm_compute in Hm; injection Hm as <-; discriminate.
Qed.

Lemma training_step_fits_sampled_scenarios_witness :
  exists key cols rates_ idx rates_sc_ mtm_i irs_prices irs_prices_sc_ X y gp e',
    port_idx demo_g !! 0 = Some key /\ irs_map demo_g !! key = Some cols /\
    train_inputs demo_g 1 0 = Ok rates_ /\
    (forall s row,
        rates_ !! s = Some row -> scenario_factors demo_g 1 cols s = Ok row) /\
    stratified_sampling rates_ (M demo_g) g0 = Ok (idx, demo_step_rng) /\
    rescale_inputs rates_ = Ok rates_sc_ /\
    mtm demo_g !! 1 = Some mtm_i /\ mtm_i !! 0 = Some irs_prices /\
    rescale_prices irs_prices = Ok irs_prices_sc_ /\
    take_idx rates_sc_ idx = Ok X /\ take_idx irs_prices_sc_ idx = Ok y /\
    gp_fit demo_lib X y = Ok gp /\
    demo_step_portfolio !! key = Some e' /\ GPs e' !! 1 = Some (Some gp).
Proof.
  apply (training_step_fits_sampled_scenarios
           demo_lib demo_g (empty_portfolio (port_idx demo_g) (nt demo_g))
           demo_step_portfolio 1 0 g0 demo_step_rng).
  - intros m Hm. apply demo_dates_many_scenarios. left. exact Hm.
  - intros m Hm. apply demo_dates_many_scenarios. right. exact Hm.
  - exact demo_step_ok.
Defined.

(** ** The first loop of the simulation on a trained portfolio *)






Section SimulationTotal.
Context {A GP : Type} `{NumLaws A} (lib : Lib A GP).






End SimulationTotal.





(** ** Where a training step can fail *)

Section TrainingStepTotal.
Context {A GP : Type} `{Num A} (lib : Lib A GP).



End TrainingStepTotal.


